(** * IACSGRAPH mail pipeline: keyword extraction and content-hash deduplication

    A shallow embedding of
      - [src/modules/mail_processor/keyword_extractor_service.py]
        ([MailProcessorKeywordExtractorService]) and
      - [src/modules/mail_process/service/db_service.py]
        ([MailDatabaseService]),
    followed by the properties established about them.

    Python [str] values are sequences of Unicode code points; the regular
    expressions of the source are run by a small backtracking matcher that
    follows the semantics of Python's [re] module for the constructs the
    source uses (greedy quantified character classes, [^], [$], [\b] and
    top-level alternation). *)

From Stdlib Require Import String Ascii.
From Stdlib Require Import List NArith ZArith Bool Arith Lia DecimalString.
From Stdlib Require Import Sorted Permutation.
Import ListNotations.

(** ** Code points and strings *)

Definition char := N.
Definition str := list char.

Definition str_eqb (a b : str) : bool :=
  if list_eq_dec N.eq_dec a b then true else false.

Open Scope N_scope.

(** UTF-8 decoding, used only to write string literals of the source
    (["선박"], ["apple"]) as code point sequences. *)
Fixpoint utf8_decode (bs : list N) : str :=
  match bs with
  | [] => []
  | b0 :: t0 =>
      if b0 <? 128 then b0 :: utf8_decode t0
      else if b0 <? 224 then
        match t0 with
        | b1 :: t1 => ((b0 - 192) * 64 + (b1 - 128)) :: utf8_decode t1
        | _ => []
        end
      else if b0 <? 240 then
        match t0 with
        | b1 :: b2 :: t2 =>
            ((b0 - 224) * 4096 + (b1 - 128) * 64 + (b2 - 128)) :: utf8_decode t2
        | _ => []
        end
      else
        match t0 with
        | b1 :: b2 :: b3 :: t3 =>
            ((b0 - 240) * 262144 + (b1 - 128) * 4096 + (b2 - 128) * 64 + (b3 - 128))
              :: utf8_decode t3
        | _ => []
        end
  end.

Definition u (s : string) : str :=
  utf8_decode (map (fun b => N_of_ascii (ascii_of_byte b)) (list_byte_of_string s)).

Definition ch (a : ascii) : char := N_of_ascii a.

Definition LF : char := 10.
Definition CR : char := 13.
Definition TAB : char := 9.
Definition SP : char := 32.

(** ** Character classes *)

Definition cls := char -> bool.

Definition one (c : char) : cls := fun x => x =? c.
Definition rng (lo hi : char) : cls := fun x => (lo <=? x) && (x <=? hi).
Definition any_of (l : list cls) : cls := fun x => existsb (fun p => p x) l.
Definition none_of (l : list cls) : cls := fun x => negb (any_of l x).
Definition chars (l : str) : cls := fun x => existsb (N.eqb x) l.

(** [가-힣], the Hangul syllables block U+AC00..U+D7A3. *)
Definition hangul : cls := rng 44032 55203.

Definition ascii_digit : cls := rng 48 57.
Definition ascii_upper : cls := rng 65 90.
Definition ascii_lower : cls := rng 97 122.
Definition ascii_letter : cls := any_of [ascii_lower; ascii_upper].
Definition ascii_alnum : cls := any_of [ascii_digit; ascii_upper; ascii_lower].

(** [str.isspace] on one code point, which is also [\s] of [re] on [str]
    patterns: CPython's [Py_UNICODE_ISSPACE]. *)
Definition is_space : cls :=
  any_of [rng 9 13; rng 28 31; one 32; one 133; one 160; one 5760;
          rng 8192 8202; one 8232; one 8233; one 8239; one 8287; one 12288].

(** The Unicode character database beyond ASCII is part of the interpreter,
    not of the repository: which non-ASCII code points are alphanumeric
    ([str.isalnum]) and which are decimal digits is left open. *)
Class UnicodeData := {
  uni_alnum : char -> bool;
  uni_decimal : char -> bool;
  (* surrogate code points have category Cs: they are no letters or digits *)
  uni_alnum_surrogate : forall c, rng 55296 57343 c = true -> uni_alnum c = false
}.

Section Engine.
Context {ucd : UnicodeData}.

(** [\w] and [\d] of [re] on [str] patterns. *)
Definition is_word : cls :=
  fun c => if c <? 128 then ascii_alnum c || one 95 c else uni_alnum c.
Definition is_digit : cls :=
  fun c => if c <? 128 then ascii_digit c else uni_decimal c.

(** ** Regular expressions

    Every quantifier of the source applies to a single character class, so a
    pattern is a list of alternatives, each a sequence of quantified classes
    and zero-width assertions. *)

Inductive item :=
| Rep (p : cls) (lo : nat) (hi : option nat)  (* p{lo,hi}, greedy *)
| Bol                                         (* ^ *)
| Eol                                         (* $ *)
| WordB.                                      (* \b *)

Definition regex := list (list item).

Definition lit (c : char) : item := Rep (one c) 1 (Some 1%nat).
Definition cl (p : cls) : item := Rep p 1 (Some 1%nat).
Definition opt (p : cls) : item := Rep p 0 (Some 1%nat).
Definition star (p : cls) : item := Rep p 0 None.
Definition plus (p : cls) : item := Rep p 1 None.
Definition atleast (n : nat) (p : cls) : item := Rep p n None.

(** Length of the longest prefix of [s] inside [p], at most [cap]. *)
Fixpoint run (p : cls) (cap : option nat) (s : str) : nat :=
  match s with
  | [] => 0%nat
  | c :: t =>
      if p c then
        match cap with
        | Some O => 0%nat
        | Some (S k) => S (run p (Some k) t)
        | None => S (run p None t)
        end
      else 0%nat
  end.

(** Try [f n], [f (n-1)], ..., [f lo] and keep the first success: the order
    in which a greedy quantifier gives characters back. *)
Fixpoint first_down {A} (f : nat -> option A) (lo n : nat) : option A :=
  if (n <? lo)%nat then None
  else match f n with
       | Some r => Some r
       | None => match n with
                 | O => None
                 | S n' => first_down f lo n'
                 end
       end.

(** The character before the current position, after [consumed] was read. *)
Definition prev_after (prev : option char) (consumed : str) : option char :=
  match consumed with
  | [] => prev
  | c :: t => Some (last t c)
  end.

Definition word_at (o : option char) : bool :=
  match o with Some c => is_word c | None => false end.

(** [$] without MULTILINE: at the end, or before a final line feed. *)
Definition at_eol (s : str) : bool :=
  match s with
  | [] => true
  | [c] => c =? LF
  | _ => false
  end.

Definition add_piece (w : str) (r : list str * str) : list str * str :=
  (w :: fst r, snd r).

(** Match a sequence of items at the current position. The result is the
    text matched by each item, in order, and the remaining input. *)
Fixpoint match_seq (items : list item) (prev : option char) (s : str)
  : option (list str * str) :=
  match items with
  | [] => Some ([], s)
  | Bol :: rest =>
      match prev with
      | None => option_map (add_piece []) (match_seq rest prev s)
      | Some _ => None
      end
  | Eol :: rest =>
      if at_eol s then option_map (add_piece []) (match_seq rest prev s) else None
  | WordB :: rest =>
      if xorb (word_at prev) (word_at (hd_error s))
      then option_map (add_piece []) (match_seq rest prev s) else None
  | Rep p lo hi :: rest =>
      first_down
        (fun k => option_map (add_piece (firstn k s))
                    (match_seq rest (prev_after prev (firstn k s)) (skipn k s)))
        lo (run p hi s)
  end.

Fixpoint match_here (r : regex) (prev : option char) (s : str)
  : option (list str * str) :=
  match r with
  | [] => None
  | a :: r' =>
      match match_seq a prev s with
      | Some m => Some m
      | None => match_here r' prev s
      end
  end.

Definition matched (m : list str * str) : str := concat (fst m).

(** [re.match]: a match at the start of the string. *)
Definition re_match (r : regex) (s : str) : option (list str * str) :=
  match_here r None s.

(** [re.search], as a truth value. *)
Fixpoint search_from (r : regex) (prev : option char) (s : str) : bool :=
  match match_here r prev s with
  | Some _ => true
  | None => match s with
            | [] => false
            | c :: t => search_from r (Some c) t
            end
  end.

Definition re_search (r : regex) (s : str) : bool := search_from r None s.

(** [re.sub] and [re.findall] scan left to right; after a match of [n]
    characters the next [n] positions are skipped ([skip]); an empty match
    moves on by one character. *)
Fixpoint sub_from (r : regex) (repl : str) (prev : option char) (s : str)
  (skip : nat) {struct s} : str :=
  match skip, s with
  | S k, c :: t => sub_from r repl (Some c) t k
  | S _, [] => []
  | O, _ =>
      match match_here r prev s with
      | Some m =>
          repl ++ match s with
                  | [] => []
                  | c :: t =>
                      match length (matched m) with
                      | O => c :: sub_from r repl (Some c) t 0
                      | S k => sub_from r repl (Some c) t k
                      end
                  end
      | None =>
          match s with
          | [] => []
          | c :: t => c :: sub_from r repl (Some c) t 0
          end
      end
  end.

Definition re_sub (r : regex) (repl : str) (s : str) : str :=
  sub_from r repl None s 0.

Fixpoint findall_from (r : regex) (prev : option char) (s : str)
  (skip : nat) {struct s} : list str :=
  match skip, s with
  | S k, c :: t => findall_from r (Some c) t k
  | S _, [] => []
  | O, _ =>
      match match_here r prev s with
      | Some m =>
          matched m :: match s with
                       | [] => []
                       | c :: t =>
                           findall_from r (Some c) t (pred (length (matched m)))
                       end
      | None =>
          match s with
          | [] => []
          | c :: t => findall_from r (Some c) t 0
          end
      end
  end.

Definition re_findall (r : regex) (s : str) : list str :=
  findall_from r None s 0.

End Engine.

(** ** [str] methods *)

Fixpoint drop_while (p : cls) (s : str) : str :=
  match s with
  | [] => []
  | c :: t => if p c then drop_while p t else s
  end.

Definition lstrip (s : str) : str := drop_while is_space s.
Definition rstrip (s : str) : str := rev (drop_while is_space (rev s)).
(** [s.strip()] *)
Definition strip (s : str) : str := rstrip (lstrip s).

Fixpoint prefixb (p s : str) : bool :=
  match p, s with
  | [], _ => true
  | a :: p', b :: s' => (a =? b) && prefixb p' s'
  | _ :: _, [] => false
  end.

(** [s.replace(old, new)] for a non-empty [old] (the source only replaces
    ["\r\n"], ["\r"] and ["\t"]). *)
Fixpoint replace_from (old new : str) (s : str) (skip : nat) {struct s} : str :=
  match skip, s with
  | S k, _ :: t => replace_from old new t k
  | S _, [] => []
  | O, [] => []
  | O, c :: t =>
      if prefixb old s then new ++ replace_from old new t (pred (length old))
      else c :: replace_from old new t 0
  end.

Definition replace (old new : str) (s : str) : str := replace_from old new s 0.

(** [s.split(sep)] for a one-character separator. *)
Fixpoint split_sep (sep : char) (s : str) : list str :=
  match s with
  | [] => [[]]
  | c :: t =>
      if c =? sep then [] :: split_sep sep t
      else match split_sep sep t with
           | [] => [[c]]
           | w :: ws => (c :: w) :: ws
           end
  end.

(** [s.split()]: the maximal runs of non-whitespace. [acc] is the current
    run, reversed. *)
Fixpoint split_ws_aux (acc : str) (s : str) : list str :=
  match s with
  | [] => match acc with [] => [] | _ => [rev acc] end
  | c :: t =>
      if is_space c then
        match acc with
        | [] => split_ws_aux [] t
        | _ => rev acc :: split_ws_aux [] t
        end
      else split_ws_aux (c :: acc) t
  end.

Definition split_ws (s : str) : list str := split_ws_aux [] s.

(** [sub in s] for a one-character [sub]. *)
Definition contains (c : char) (s : str) : bool := existsb (N.eqb c) s.

(** Truth value of a [str]. *)
Definition nonempty (s : str) : bool :=
  match s with [] => false | _ => true end.

(** ** [MailProcessorKeywordExtractorService]: the pure parts *)

Section KeywordText.
Context {ucd : UnicodeData}.

(** The patterns of [_clean_text], in the order of the source. *)

(** [<[^>]+>] *)
Definition re_tag : regex :=
  [[lit (ch "<"); plus (none_of [one (ch ">")]); lit (ch ">")]].

(** [<[^>]+@[^>]+>] *)
Definition re_angle_address : regex :=
  [[lit (ch "<"); plus (none_of [one (ch ">")]); lit (ch "@");
    plus (none_of [one (ch ">")]); lit (ch ">")]].

(** [[a-zA-Z0-9._%+-]+@[a-zA-Z0-9.-]+\.[a-zA-Z]{2,}] *)
Definition re_address : regex :=
  [[plus (any_of [ascii_lower; ascii_upper; ascii_digit; chars (u "._%+-")]);
    lit (ch "@");
    plus (any_of [ascii_lower; ascii_upper; ascii_digit; chars (u ".-")]);
    lit (ch ".");
    atleast 2 ascii_letter]].

(** [https?://[^\s]+] *)
Definition re_url : regex :=
  [[lit (ch "h"); lit (ch "t"); lit (ch "t"); lit (ch "p"); opt (one (ch "s"));
    lit (ch ":"); lit (ch "/"); lit (ch "/"); plus (none_of [is_space])]].

(** [www\.[^\s]+] *)
Definition re_www : regex :=
  [[lit (ch "w"); lit (ch "w"); lit (ch "w"); lit (ch ".");
    plus (none_of [is_space])]].

(** [\n+] *)
Definition re_newlines : regex := [[plus (one LF)]].

(** [[^\w\s가-힣.,!?():;-]] *)
Definition kept : cls := any_of [is_word; is_space; hangul; chars (u ".,!?():;-")].
Definition re_special : regex := [[cl (none_of [kept])]].

(** [[-=]{3,}] *)
Definition re_divider : regex := [[atleast 3 (chars (u "-="))]].

(** [\s+] *)
Definition re_spaces : regex := [[plus is_space]].

(** [\b[a-zA-Z]\b] *)
Definition re_single_letter : regex := [[WordB; cl ascii_letter; WordB]].

Definition _clean_text (text : str) : str :=
  if nonempty text then
    let clean := replace [CR; LF] [LF] text in
    let clean := replace [CR] [LF] clean in
    let clean := re_sub re_tag [] clean in
    let clean := re_sub re_angle_address [SP] clean in
    let clean := re_sub re_address [SP] clean in
    let clean := re_sub re_url [SP] clean in
    let clean := re_sub re_www [SP] clean in
    let clean := re_sub re_newlines [SP] clean in
    let clean := replace [TAB] [SP] clean in
    let clean := re_sub re_special [SP] clean in
    let clean := re_sub re_divider [SP] clean in
    let clean := re_sub re_spaces [SP] clean in
    let clean := re_sub re_single_letter [] clean in
    strip clean
  else [].

(** The patterns of [_parse_keywords]. *)

(** [\d+\.\s*] *)
Definition re_numbered : regex := [[plus is_digit; lit (ch "."); star is_space]].

(** [\d+\.\s*(.+)]; group 1 is the fourth item. *)
Definition re_numbered_line : regex :=
  [[plus is_digit; lit (ch "."); star is_space; plus (none_of [one LF])]].

Definition group1_numbered_line (m : list str * str) : str := nth 3 (fst m) [].

(** [^[^\w가-힣]+|[^\w가-힣]+$] *)
Definition edge : cls := none_of [is_word; hangul].
Definition re_edges : regex := [[Bol; plus edge]; [plus edge; Eol]].

(** The numbered-list branch: the loop over [lines]. *)
Definition numbered_keywords (lines : list str) : list str :=
  flat_map
    (fun line =>
       let line := strip line in
       if nonempty line then
         match re_match re_numbered_line line with
         | Some m =>
             let keyword := strip (group1_numbered_line m) in
             if nonempty keyword then [keyword] else []
         | None => []
         end
       else [])
    lines.

(** The list [keywords] before the cleaning loop. *)
Definition keyword_candidates (content : str) : list str :=
  if re_search re_numbered content then
    numbered_keywords (split_sep LF content)
  else if contains (ch ",") content then
    map strip (filter (fun kw => nonempty (strip kw)) (split_sep (ch ",") content))
  else if contains LF content then
    map strip (filter (fun line => nonempty (strip line)) (split_sep LF content))
  else split_ws content.

(** The cleaning loop. *)
Definition clean_keywords (keywords : list str) : list str :=
  flat_map
    (fun kw =>
       let kw := re_sub re_edges [] kw in
       if nonempty kw && (2 <=? length kw)%nat then [kw] else [])
    keywords.

Definition _parse_keywords (content : str) : list str :=
  clean_keywords (keyword_candidates content).

(** The patterns of [_fallback_keyword_extraction]. *)

(** [[가-힣]{2,}] *)
Definition re_korean : regex := [[atleast 2 hangul]].
(** [[A-Za-z]{3,}] *)
Definition re_english : regex := [[atleast 3 (any_of [ascii_upper; ascii_lower])]].
(** [[A-Z]{2,}\d+|[A-Z]+-\d+|\d{3,}] *)
Definition re_identifier : regex :=
  [[atleast 2 ascii_upper; plus is_digit];
   [plus ascii_upper; lit (ch "-"); plus is_digit];
   [atleast 3 is_digit]].

End KeywordText.

(** [collections.Counter]: a dict, so the keys stay in the order of their
    first insertion. *)
Definition counter := list (str * nat).

Fixpoint counter_incr (w : str) (c : counter) : counter :=
  match c with
  | [] => [(w, 1%nat)]
  | (k, n) :: t =>
      if str_eqb k w then (k, S n) :: t else (k, n) :: counter_incr w t
  end.

(** [Counter(words)] *)
Definition Counter (words : list str) : counter :=
  fold_left (fun c w => counter_incr w c) words [].

(** [Counter.most_common(n)] is [heapq.nlargest(n, items, key=count)]: the
    items by decreasing count, items of equal count in the order first
    encountered, cut to [n] of them (none for [n <= 0]). *)
Fixpoint insert_by_count (x : str * nat) (l : counter) : counter :=
  match l with
  | [] => [x]
  | y :: t =>
      if (snd y <=? snd x)%nat then x :: y :: t else y :: insert_by_count x t
  end.

Definition sort_by_count (c : counter) : counter :=
  fold_right insert_by_count [] c.

Definition most_common (c : counter) (n : Z) : counter :=
  firstn (Z.to_nat n) (sort_by_count c).

Section Fallback.
Context {ucd : UnicodeData}.

Definition _fallback_keyword_extraction (text : str) (max_keywords : Z) : list str :=
  let clean_text := _clean_text text in
  let korean_words := re_findall re_korean clean_text in
  let english_words := re_findall re_english clean_text in
  let identifiers := re_findall re_identifier clean_text in
  let all_words := korean_words ++ english_words ++ identifiers in
  let word_counts := Counter all_words in
  map fst (most_common word_counts max_keywords).

End Fallback.

(** ** Exceptions, dynamic values and effects *)

(** The exceptions the source can meet; all derive from [Exception]. *)
Inductive exc :=
| ClientError      (* aiohttp.ClientError: connection and payload errors *)
| TimeoutError     (* the 30 s total timeout of the request expired *)
| TypeError
| KeyError
| IndexError
| AttributeError
| OverflowError
| UnicodeEncodeError
| OperationalError (* sqlite3: a statement the database refuses *)
| JSONDecodeError  (* json: the text is no JSON document *)
| RecursionError   (* json: the document is nested too deep for the decoder *)
| ValueError       (* a ValueError that is no JSONDecodeError, such as an
                      integer literal beyond the digit limit *)
| OtherError.

Definition exc_eq_dec (a b : exc) : {a = b} + {a <> b}.
Proof. decide equality. Defined.

Inductive res (A : Type) :=
| Ok (a : A)
| Raise (e : exc).
Arguments Ok {A} a.
Arguments Raise {A} e.

(** Computations that read and change a state [S] and may raise. *)
Definition M (S A : Type) := S -> res A * S.

Definition ret {S A} (a : A) : M S A := fun s => (Ok a, s).
Definition raise {S A} (e : exc) : M S A := fun s => (Raise e, s).
Definition bind {S A B} (c : M S A) (k : A -> M S B) : M S B :=
  fun s => match c s with
           | (Ok a, s') => k a s'
           | (Raise e, s') => (Raise e, s')
           end.
(** [try: c  except Exception as e: h e] *)
Definition try_except {S A} (c : M S A) (h : exc -> M S A) : M S A :=
  fun s => match c s with
           | (Ok a, s') => (Ok a, s')
           | (Raise e, s') => h e s'
           end.
(** [try: c  except (E1, ..., En): h]: the other exceptions pass. *)
Definition try_except_of {S A} (classes : list exc) (c : M S A) (h : M S A) : M S A :=
  fun s => match c s with
           | (Ok a, s') => (Ok a, s')
           | (Raise e, s') =>
               if existsb (fun x => if exc_eq_dec x e then true else false) classes
               then h s' else (Raise e, s')
           end.
Definition lift {S A} (r : res A) : M S A := fun s => (r, s).
Definition get {S} : M S S := fun s => (Ok s, s).
Definition put {S} (s : S) : M S unit := fun _ => (Ok tt, s).

Declare Scope monad_scope.
Delimit Scope monad_scope with monad.
Notation "x <- c ;; k" := (bind c (fun x => k))
  (at level 61, c at next level, right associativity) : monad_scope.
Notation "c ;;; k" := (bind c (fun _ => k))
  (at level 61, right associativity) : monad_scope.

(** Values as [json.loads] and the configuration produce them. A float is
    kept as its IEEE-754 binary64 bit pattern; no arithmetic is done on it. *)
#[local] Unset Elimination Schemes.
Inductive pyval :=
| PNone
| PBool (b : bool)
| PInt (z : Z)
| PFloat (bits : Z)
| PStr (s : str)
| PList (l : list pyval)
| PDict (d : list (str * pyval)).
#[local] Set Elimination Schemes.

Definition truthy (v : pyval) : bool :=
  match v with
  | PNone => false
  | PBool b => b
  | PInt z => negb (z =? 0)%Z
  | PFloat bits => negb ((bits =? 0)%Z || (bits =? 9223372036854775808)%Z)
  | PStr s => nonempty s
  | PList l => match l with [] => false | _ => true end
  | PDict d => match d with [] => false | _ => true end
  end.

Fixpoint dict_get (k : str) (d : list (str * pyval)) : option pyval :=
  match d with
  | [] => None
  | (k', v) :: t => if str_eqb k' k then Some v else dict_get k t
  end.

(** [d[k] = v] *)
Fixpoint dict_set (k : str) (v : pyval) (d : list (str * pyval)) : list (str * pyval) :=
  match d with
  | [] => [(k, v)]
  | (k', v') :: t =>
      if str_eqb k' k then (k', v) :: t else (k', v') :: dict_set k v t
  end.

Fixpoint substring (p s : str) : bool :=
  prefixb p s || match s with [] => false | _ :: t => substring p t end.

(** [k in v] for a [str] key [k]. *)
Definition py_in (k : str) (v : pyval) : res bool :=
  match v with
  | PDict d => Ok (match dict_get k d with Some _ => true | None => false end)
  | PList l =>
      Ok (existsb (fun x => match x with PStr s => str_eqb s k | _ => false end) l)
  | PStr s => Ok (substring k s)
  | _ => Raise TypeError
  end.

(** [v[k]] for a [str] key [k]. *)
Definition py_getitem (v : pyval) (k : str) : res pyval :=
  match v with
  | PDict d => match dict_get k d with Some x => Ok x | None => Raise KeyError end
  | _ => Raise TypeError
  end.

(** [v[0]] *)
Definition py_first (v : pyval) : res pyval :=
  match v with
  | PList l => match l with x :: _ => Ok x | [] => Raise IndexError end
  | PStr s => match s with c :: _ => Ok (PStr [c]) | [] => Raise IndexError end
  | PDict _ => Raise KeyError
  | _ => Raise TypeError
  end.

(** [v.get(k, default)] *)
Definition py_get (v : pyval) (k : str) (default : pyval) : res pyval :=
  match v with
  | PDict d => Ok (match dict_get k d with Some x => x | None => default end)
  | _ => Raise AttributeError
  end.

(** [v.strip()] *)
Definition py_strip (v : pyval) : res str :=
  match v with
  | PStr s => Ok (strip s)
  | _ => Raise AttributeError
  end.

(** [l[:n]] on a list, for any integer [n]. *)
Definition slice_to {A} (l : list A) (n : Z) : list A :=
  if (n <? 0)%Z then firstn (length l - Z.to_nat (- n)) l
  else firstn (Z.to_nat n) l.

(** [str(n)] for an integer. *)
Definition str_of_int (n : Z) : str :=
  u (DecimalString.NilZero.string_of_int (Z.to_int n)).

(** ** [MailProcessorKeywordExtractorService]: the service *)

(** What one request to the chat-completion endpoint comes to: either
    [session.post] or [response.text()] raises, or a status and a body
    arrive. *)
Inductive http_outcome :=
| HttpRaise (e : exc)
| HttpResponse (status : Z) (response_text : str).

(** Calls that leave the service, in the order they are made. *)
Inductive event :=
| RemoteCall (prompt : str)
| FallbackCall (text : str).

Definition trace := list event.

Definition token_usage := list (str * pyval).

(** [KeywordExtractionResponse]; [execution_time_ms] is wall-clock time and
    is left out. *)
Record KeywordExtractionResponse := {
  keywords : list str;
  method : str;
  model : str;
  token_info : token_usage
}.

Section ExtractorService.
Context {ucd : UnicodeData}.

(** [self.api_key], [self.model] as [__init__] reads them from the
    configuration. *)
Variable self_api_key : pyval.
Variable self_model : str.

(** The remote endpoint, as a function of the prompt sent. *)
Variable post : str -> http_outcome.

(** [json.loads]; [None] stands for [json.JSONDecodeError]. *)
Variable json_loads : str -> option pyval.

(** [round(prompt_tokens / 1000 * 0.0015 + completion_tokens / 1000 * 0.002, 6)]:
    floating-point arithmetic, kept abstract together with the [TypeError]
    or [OverflowError] it raises on operands that are no numbers or too
    large. *)
Variable cost_usd : pyval -> pyval -> res pyval.

(** [self.api_key[:10]] and [self.api_key[-4:]] in the log line, outside the [try]. *)
Definition api_key_excerpt : res unit :=
  match self_api_key with
  | PStr _ | PList _ => Ok tt
  | _ => Raise TypeError
  end.

Definition initial_token_info : token_usage :=
  [(u "prompt_tokens", PInt 0); (u "completion_tokens", PInt 0);
   (u "total_tokens", PInt 0); (u "cost_usd", PFloat 0)].

(** The block under [if "usage" in data:]. [token_info] is a dict changed in
    place: what was written before an exception stays written. *)
Definition update_usage (data : pyval) : M token_usage unit :=
  (has_usage <- lift (py_in (u "usage") data) ;;
   if has_usage then
     usage <- lift (py_getitem data (u "usage")) ;;
     p <- lift (py_get usage (u "prompt_tokens") (PInt 0)) ;;
     c <- lift (py_get usage (u "completion_tokens") (PInt 0)) ;;
     t <- lift (py_get usage (u "total_tokens") (PInt 0)) ;;
     token_info <- get ;;
     put (dict_set (u "total_tokens") t
            (dict_set (u "completion_tokens") c
               (dict_set (u "prompt_tokens") p token_info))) ;;;
     cost <- lift (cost_usd p c) ;;
     token_info <- get ;;
     put (dict_set (u "cost_usd") cost token_info)
   else ret tt)%monad.

Definition res_bind {A B} (r : res A) (k : A -> res B) : res B :=
  match r with Ok a => k a | Raise e => Raise e end.

(** [a and b] on truth values, [b] evaluated only when [a] holds. *)
Definition res_and (a : res bool) (b : res bool) : res bool :=
  res_bind a (fun x => if x then b else Ok false).

(** [choices[0].message.content], when the body has one. *)
Definition read_content (data : pyval) : res (option pyval) :=
  res_bind
    (res_and (py_in (u "choices") data)
             (res_bind (py_getitem data (u "choices")) (fun c => Ok (truthy c))))
    (fun has_choices =>
       if has_choices then
         res_bind (res_bind (py_getitem data (u "choices")) py_first) (fun choice =>
         res_bind
           (res_and (py_in (u "message") choice)
                    (res_bind (py_getitem choice (u "message")) (py_in (u "content"))))
           (fun has_content =>
              if has_content then
                res_bind (res_bind (py_getitem choice (u "message"))
                                   (fun m => py_getitem m (u "content")))
                         (fun content => Ok (Some content))
              else Ok None))
       else Ok None).

(** [if content and content.strip(): return self._parse_keywords(content)[:max_keywords]] *)
Definition keywords_of_content (content : pyval) (max_keywords : Z) : res (list str) :=
  res_bind
    (if truthy content
     then res_bind (py_strip content) (fun s => Ok (nonempty s))
     else Ok false)
    (fun filled =>
       if filled then
         match content with
         | PStr c => Ok (slice_to (_parse_keywords c) max_keywords)
         | _ => Raise TypeError
         end
       else Ok []).

Definition read_keywords (data : pyval) (max_keywords : Z) : res (list str) :=
  res_bind (read_content data) (fun c =>
    match c with
    | Some content => keywords_of_content content max_keywords
    | None => Ok []
    end).

(** The prompt: the text cut to 1000 characters inside the instruction. *)
Definition prompt_for (text : str) (max_keywords : Z) : str :=
  let limited_text :=
    if (1000 <? length text)%nat then firstn 1000 text else text in
  u "Extract " ++ str_of_int max_keywords ++ u " keywords from this email: "
    ++ limited_text ++ [LF; LF] ++ u "Keywords:".

Local Open Scope monad_scope.

(** The locals of the [try] block of [_call_openrouter_api]: the calls made
    so far and the dict [token_info]. *)
Definition log_call (e : event) : M (trace * token_usage) unit :=
  fun st => (Ok tt, (fst st ++ [e], snd st)).

Definition on_token_info {A} (c : M token_usage A) : M (trace * token_usage) A :=
  fun st => let (r, token_info) := c (snd st) in (r, (fst st, token_info)).

Definition _call_openrouter_api (text : str) (max_keywords : Z)
  : M trace (list str * token_usage) :=
  if negb (truthy self_api_key) then ret ([], [])
  else
    lift api_key_excerpt ;;;
    let prompt := prompt_for text max_keywords in
    fun tr =>
      let (r, locals) :=
        try_except
          (log_call (RemoteCall prompt) ;;;
           match post prompt with
           | HttpRaise e => raise e
           | HttpResponse status response_text =>
               if negb (status =? 200)%Z then ret []
               else
                 match json_loads response_text with
                 | None => ret []
                 | Some data =>
                     on_token_info (update_usage data) ;;;
                     lift (read_keywords data max_keywords)
                 end
           end)
          (fun _ => ret [])
          (tr, initial_token_info) in
      (* every [return] of the block hands back [token_info] as it stands *)
      (match r with
       | Ok keywords => Ok (keywords, snd locals)
       | Raise e => Raise e
       end, fst locals).

(** [_fallback_keyword_extraction], seen from the service. *)
Definition fallback (text : str) (max_keywords : Z) : M trace (list str) :=
  tr <- get ;;
  put (tr ++ [FallbackCall text]) ;;;
  ret (_fallback_keyword_extraction text max_keywords).

Definition extract_keywords (text : str) (max_keywords : Z)
  : M trace KeywordExtractionResponse :=
  try_except
    (let clean_text := _clean_text text in
     let fallback_branch :=
       keywords <- fallback clean_text max_keywords ;;
       ret {| keywords := keywords; method := u "fallback";
              model := u "rule_based"; token_info := [] |} in
     if (length (strip clean_text) <? 10)%nat then
       ret {| keywords := []; method := u "empty_text";
              model := self_model; token_info := [] |}
     else if truthy self_api_key then
       kt <- _call_openrouter_api clean_text max_keywords ;;
       if match fst kt with [] => false | _ => true end then
         ret {| keywords := fst kt; method := u "openrouter";
                model := self_model; token_info := snd kt |}
       else fallback_branch
     else fallback_branch)
    (fun _ =>
       keywords <- fallback text max_keywords ;;
       ret {| keywords := keywords; method := u "fallback_error";
              model := u "rule_based"; token_info := [] |}).

End ExtractorService.

(** ** [MailDatabaseService] *)

Module MailDb.

(** Rows of the two tables the service touches. Times are kept as text. *)
Record account := {
  id : Z;
  user_id : str;
  user_name : str;
  is_active : Z
}.

Record mail_history_row := {
  account_id : Z;
  message_id : str;
  received_time : str;
  subject : str;
  sender : str;
  keywords : option str;       (* TEXT, NULL allowed *)
  processed_at : str;
  content_hash : option str    (* NULL in rows older than the column *)
}.

Record database := {
  accounts : list account;
  mail_history : list mail_history_row;
  has_content_hash_column : bool
}.

(** [ProcessedMailData.account_id]: [_get_actual_account_id] tells an [int]
    from anything else by [isinstance]. *)
Inductive account_ref :=
| AccountInt (n : Z)
| AccountStr (s : str).

(** [ProcessedMailData], the fields [save_mail_with_hash] reads. *)
Record ProcessedMailData := {
  pm_mail_id : str;
  pm_account_id : account_ref;
  pm_sent_time : str;
  pm_subject : str;
  pm_sender_address : str;
  pm_keywords : list str;
  pm_processed_at : str
}.

(** Modelled from the spec: the persistence collaborator [db_manager]
    ([infra.core.database]) is not among the sources. It is a row store
    behind a query interface; each statement of the service is one
    operation on it. [fetch_one] gives the first row, in table order, that
    satisfies the WHERE clause. *)
Definition fetch_one_keywords (hash mail_id : str)
  : M database (option mail_history_row) :=
  fun db =>
    (Ok (find (fun r => match content_hash r with
                        | Some h => str_eqb h hash
                        | None => false
                        end || str_eqb (message_id r) mail_id)
              (mail_history db)), db).

Definition fetch_one_account (uid : str) : M database (option account) :=
  fun db => (Ok (find (fun a => str_eqb (user_id a) uid) (accounts db)), db).

(** Modelled from the spec: [execute_query] of the collaborator. A new
    account gets the next free integer key; the ALTER statement is refused
    when the column is there already; an INSERT appends its row. *)
Definition next_account_id (l : list account) : Z :=
  fold_right (fun a m => Z.max (id a) m) 0%Z l + 1.

Definition execute_insert_account (uid uname : str) : M database unit :=
  fun db =>
    (Ok tt,
     {| accounts := accounts db ++
                    [{| id := next_account_id (accounts db); user_id := uid;
                        user_name := uname; is_active := 1 |}];
        mail_history := mail_history db;
        has_content_hash_column := has_content_hash_column db |}).

Definition execute_add_content_hash_column : M database unit :=
  fun db =>
    if has_content_hash_column db then (Raise OperationalError, db)
    else (Ok tt, {| accounts := accounts db; mail_history := mail_history db;
                    has_content_hash_column := true |}).

Definition execute_insert_mail_history (row : mail_history_row) : M database unit :=
  fun db =>
    (Ok tt, {| accounts := accounts db; mail_history := mail_history db ++ [row];
               has_content_hash_column := has_content_hash_column db |}).

Section Service.

(** [hashlib.sha256(b).hexdigest()] of the UTF-8 encoding [b] of a string. *)
Variable sha256_hexdigest : str -> str.
(** [json.loads] on a stored payload: the value decoded, or the exception
    raised. Next to [json.JSONDecodeError] the decoder raises
    [RecursionError] on a document nested too deep and [ValueError] on an
    integer literal beyond the digit limit. *)
Variable json_loads : str -> res pyval.
(** [json.dumps(keywords, ensure_ascii=False)] *)
Variable json_dumps : list str -> str.

(** [content.encode('utf-8')] refuses lone surrogates, U+D800..U+DFFF. *)
Definition encodable (content : str) : bool :=
  forallb (fun c => negb (rng 55296 57343 c)) content.

Definition _generate_content_hash (content : str) : res str :=
  if encodable content then Ok (sha256_hexdigest content)
  else Raise UnicodeEncodeError.

Local Open Scope monad_scope.

Definition check_duplicate_by_content_hash (mail_id content : str)
  : M database (bool * pyval) :=
  content_hash <- lift (_generate_content_hash content) ;;
  result <- fetch_one_keywords content_hash mail_id ;;
  match result with
  | Some row =>
      existing_keywords <-
        try_except_of [JSONDecodeError; TypeError]
          (match keywords row with
           | Some text =>
               if nonempty text then lift (json_loads text) else ret (PList [])
           | None => ret (PList [])
           end)
          (ret (PList [])) ;;
      ret (true, existing_keywords)
  | None => ret (false, PList [])
  end.

Definition _get_actual_account_id (ref : account_ref) : M database Z :=
  match ref with
  | AccountInt n => ret n
  | AccountStr uid =>
      account_result <- fetch_one_account uid ;;
      match account_result with
      | Some a => ret (id a)
      | None =>
          execute_insert_account uid (u "Test User (" ++ uid ++ u ")") ;;;
          account_result <- fetch_one_account uid ;;
          match account_result with
          | Some a => ret (id a)
          | None => raise TypeError
          end
      end
  end.

Definition _ensure_content_hash_column : M database unit :=
  try_except execute_add_content_hash_column (fun _ => ret tt).

Definition save_mail_with_hash (processed_mail : ProcessedMailData)
  (clean_content : str) : M database unit :=
  content_hash <- lift (_generate_content_hash clean_content) ;;
  actual_account_id <- _get_actual_account_id (pm_account_id processed_mail) ;;
  _ensure_content_hash_column ;;;
  let keywords_json := json_dumps (pm_keywords processed_mail) in
  execute_insert_mail_history
    {| account_id := actual_account_id;
       message_id := pm_mail_id processed_mail;
       received_time := pm_sent_time processed_mail;
       subject := pm_subject processed_mail;
       sender := pm_sender_address processed_mail;
       keywords := Some keywords_json;
       processed_at := pm_processed_at processed_mail;
       content_hash := Some content_hash |}.

End Service.

End MailDb.

(** ** [MailProcessorKeywordExtractorService]: the HTTP session *)

Module Session.

(** The [aiohttp.ClientSession] objects made so far, in the order of their
    creation, each with its attribute [closed]; [self._session] is one of
    them, by number, or [None]. *)
Record state := {
  closed : list bool;
  _session : option nat
}.

(** [s.closed]; a number that names no session reads as closed. *)
Definition is_closed (n : nat) (st : state) : bool := nth n (closed st) true.

Fixpoint set_closed (n : nat) (l : list bool) : list bool :=
  match l, n with
  | [], _ => []
  | _ :: t, O => true :: t
  | b :: t, S k => b :: set_closed k t
  end.

(** [__init__]: no session yet. *)
Definition __init__ : state := {| closed := []; _session := None |}.

(** [self._session = aiohttp.ClientSession()] *)
Definition new_session (st : state) : state :=
  {| closed := closed st ++ [false]; _session := Some (length (closed st)) |}.

Definition __aenter__ (st : state) : state := new_session st.

(** [if self._session: await self._session.close(); self._session = None];
    a session object is truthy. *)
Definition __aexit__ (st : state) : state :=
  match _session st with
  | Some n => {| closed := set_closed n (closed st); _session := None |}
  | None => st
  end.

Definition close (st : state) : state :=
  match _session st with
  | Some n => {| closed := set_closed n (closed st); _session := None |}
  | None => st
  end.

(** [if self._session is None or self._session.closed: ...; return self._session] *)
Definition _get_session (st : state) : nat * state :=
  let fresh := (length (closed st), new_session st) in
  match _session st with
  | None => fresh
  | Some n => if is_closed n st then fresh else (n, st)
  end.

(** The calls that touch the session: the three a user of the service
    makes, and [_get_session], which every remote request makes. *)
Inductive call :=
| Enter
| Exit
| Close
| GetSession.

Definition step (c : call) (st : state) : state :=
  match c with
  | Enter => __aenter__ st
  | Exit => __aexit__ st
  | Close => close st
  | GetSession => snd (_get_session st)
  end.

Definition run (calls : list call) (st : state) : state :=
  fold_left (fun st c => step c st) calls st.

End Session.

(** ** Notions used in the statements *)

(** A character database that knows no letters beyond ASCII but the Hangul
    syllables; used to run the functions on concrete inputs. *)
Definition hangul_only : UnicodeData.
Proof.
  refine {| uni_alnum := hangul; uni_decimal := fun _ => false |}.
  intros c H. unfold rng in H. apply andb_prop in H. destruct H as [H1 H2].
  apply N.leb_le in H1. unfold hangul, rng.
  apply andb_false_iff. right. apply N.leb_gt. lia.
Defined.

Section TextNotions.
Context {ucd : UnicodeData}.

(** A position keeps its character when nothing, or only the empty string,
    matches there. *)
Definition keeps (r : regex) (prev : option char) (s : str) : Prop :=
  match match_here r prev s with
  | None => True
  | Some m => matched m = []
  end.

Definition only_plain_space (c : char) : Prop := is_space c = true -> c = SP.

(** Lone surrogates, which UTF-8 cannot encode. *)
Definition surrogate : cls := rng 55296 57343.

(** What the spec calls stripping: drop the leading, then the trailing
    characters that are neither word characters nor Hangul syllables. *)
Definition strip_edges (kw : str) : str :=
  rev (drop_while edge (rev (drop_while edge kw))).

(** The tokens the spec pools: the matches of the three token classes, class
    after class. *)
Definition pooled_tokens (normalized : str) : list str :=
  re_findall re_korean normalized ++ re_findall re_english normalized
    ++ re_findall re_identifier normalized.

End TextNotions.

(** *** The three token classes of the fallback extractor *)

Section TokenClasses.
Context {ucd : UnicodeData}.

Definition all_in (p : cls) (w : str) : Prop := Forall (fun c => p c = true) w.

(** A run of at least two Hangul syllables. *)
Definition hangul_run (w : str) : Prop := all_in hangul w /\ (2 <= length w)%nat.

(** A run of at least three Latin letters. *)
Definition latin_run (w : str) : Prop :=
  all_in (any_of [ascii_upper; ascii_lower]) w /\ (3 <= length w)%nat.

(** [[A-Z]{2,}\d+], [[A-Z]+-\d+] or [\d{3,}]. *)
Definition identifier (w : str) : Prop :=
  (exists a b, w = a ++ b /\ all_in ascii_upper a /\ (2 <= length a)%nat /\
               all_in is_digit b /\ (1 <= length b)%nat) \/
  (exists a b, w = a ++ ch "-" :: b /\ all_in ascii_upper a /\ (1 <= length a)%nat /\
               all_in is_digit b /\ (1 <= length b)%nat) \/
  (all_in is_digit w /\ (3 <= length w)%nat).

End TokenClasses.

(** *** Frequency ranking, in the words of the spec *)

Definition str_eq_dec : forall a b : str, {a = b} + {a <> b} := list_eq_dec N.eq_dec.

(** How often [w] occurs in the pool. *)
Definition frequency (pool : list str) (w : str) : nat := count_occ str_eq_dec pool w.

(** Position of the first occurrence of [w] in the pool. *)
Fixpoint first_occurrence (pool : list str) (w : str) : nat :=
  match pool with
  | [] => 0%nat
  | x :: t => if str_eq_dec x w then 0%nat else S (first_occurrence t w)
  end.

Definition earlier (pool : list str) (a b : str) : Prop :=
  (first_occurrence pool a < first_occurrence pool b)%nat.

(** [a] ranks before [b]: it is more frequent, or as frequent and met
    earlier. *)
Definition ranks_before (pool : list str) (a b : str) : Prop :=
  (frequency pool b < frequency pool a)%nat \/
  (frequency pool a = frequency pool b /\ earlier pool a b).

Definition keys (c : counter) : list str := map fst c.

(** The order of counter entries that corresponds to [ranks_before]. *)
Definition before_pair (before_key : str -> str -> Prop) (a b : str * nat) : Prop :=
  (snd b < snd a)%nat \/ (snd a = snd b /\ before_key (fst a) (fst b)).

(** *** Outcomes of the extractor *)

Section ExtractorNotions.
Context {ucd : UnicodeData}.
Variable self_api_key : pyval.
Variable self_model : str.
Variable post : str -> http_outcome.
Variable json_loads : str -> option pyval.
Variable cost_usd : pyval -> pyval -> res pyval.

(** What [_call_openrouter_api] comes to. *)
Inductive call_outcome (text : str) (max_keywords : Z) (tr : trace)
  : res (list str * token_usage) * trace -> Prop :=
| call_no_key :
    truthy self_api_key = false ->
    call_outcome text max_keywords tr (Ok ([], []), tr)
| call_raises e :
    truthy self_api_key = true -> api_key_excerpt self_api_key = Raise e ->
    call_outcome text max_keywords tr (Raise e, tr)
| call_nothing info :
    truthy self_api_key = true -> api_key_excerpt self_api_key = Ok tt ->
    call_outcome text max_keywords tr
      (Ok ([], info), tr ++ [RemoteCall (prompt_for text max_keywords)])
| call_keywords body data c info :
    truthy self_api_key = true -> api_key_excerpt self_api_key = Ok tt ->
    post (prompt_for text max_keywords) = HttpResponse 200 body ->
    json_loads body = Some data ->
    update_usage cost_usd data initial_token_info = (Ok tt, info) ->
    read_content data = Ok (Some (PStr c)) ->
    strip c <> [] ->
    call_outcome text max_keywords tr
      (Ok (slice_to (_parse_keywords c) max_keywords, info),
       tr ++ [RemoteCall (prompt_for text max_keywords)]).

Definition methods : list str :=
  [u "empty_text"; u "openrouter"; u "fallback"; u "fallback_error"].

(** What [extract_keywords] comes to, path by path. *)
Inductive extract_outcome (text : str) (max_keywords : Z) (tr : trace)
  : res KeywordExtractionResponse * trace -> Prop :=
| path_empty_text :
    (length (strip (_clean_text text)) < 10)%nat ->
    extract_outcome text max_keywords tr
      (Ok {| keywords := []; method := u "empty_text"; model := self_model;
             token_info := [] |}, tr)
| path_remote body data c info :
    (10 <= length (strip (_clean_text text)))%nat ->
    truthy self_api_key = true ->
    api_key_excerpt self_api_key = Ok tt ->
    post (prompt_for (_clean_text text) max_keywords) = HttpResponse 200 body ->
    json_loads body = Some data ->
    update_usage cost_usd data initial_token_info = (Ok tt, info) ->
    read_content data = Ok (Some (PStr c)) ->
    strip c <> [] ->
    slice_to (_parse_keywords c) max_keywords <> [] ->
    extract_outcome text max_keywords tr
      (Ok {| keywords := slice_to (_parse_keywords c) max_keywords;
             method := u "openrouter"; model := self_model; token_info := info |},
       tr ++ [RemoteCall (prompt_for (_clean_text text) max_keywords)])
| path_fallback_no_key :
    (10 <= length (strip (_clean_text text)))%nat ->
    truthy self_api_key = false ->
    extract_outcome text max_keywords tr
      (Ok {| keywords := _fallback_keyword_extraction (_clean_text text) max_keywords;
             method := u "fallback"; model := u "rule_based"; token_info := [] |},
       tr ++ [FallbackCall (_clean_text text)])
| path_fallback_after_call :
    (10 <= length (strip (_clean_text text)))%nat ->
    truthy self_api_key = true ->
    extract_outcome text max_keywords tr
      (Ok {| keywords := _fallback_keyword_extraction (_clean_text text) max_keywords;
             method := u "fallback"; model := u "rule_based"; token_info := [] |},
       tr ++ [RemoteCall (prompt_for (_clean_text text) max_keywords)]
          ++ [FallbackCall (_clean_text text)])
| path_fallback_error e :
    (10 <= length (strip (_clean_text text)))%nat ->
    truthy self_api_key = true ->
    api_key_excerpt self_api_key = Raise e ->
    extract_outcome text max_keywords tr
      (Ok {| keywords := _fallback_keyword_extraction text max_keywords;
             method := u "fallback_error"; model := u "rule_based"; token_info := [] |},
       tr ++ [FallbackCall text]).

(** The ways the remote attempt can fail, as the spec lists them. *)
Inductive remote_failure (max_keywords : Z) : http_outcome -> Prop :=
| network_error : remote_failure max_keywords (HttpRaise ClientError)
| request_timeout : remote_failure max_keywords (HttpRaise TimeoutError)
| unexpected_exception e : remote_failure max_keywords (HttpRaise e)
| non_200_status status body :
    status <> 200%Z -> remote_failure max_keywords (HttpResponse status body)
| unparsable_body body :
    json_loads body = None -> remote_failure max_keywords (HttpResponse 200 body)
| exception_while_reading body data e :
    json_loads body = Some data ->
    fst (update_usage cost_usd data initial_token_info) = Raise e \/
    read_content data = Raise e ->
    remote_failure max_keywords (HttpResponse 200 body)
| no_completion body data :
    json_loads body = Some data -> read_content data = Ok None ->
    remote_failure max_keywords (HttpResponse 200 body)
| empty_completion body data content :
    json_loads body = Some data -> read_content data = Ok (Some content) ->
    truthy content = false \/ (exists c, content = PStr c /\ strip c = []) ->
    remote_failure max_keywords (HttpResponse 200 body)
| completion_not_text body data content :
    json_loads body = Some data -> read_content data = Ok (Some content) ->
    (forall c, content <> PStr c) ->
    remote_failure max_keywords (HttpResponse 200 body)
| zero_parsed_keywords body data c :
    json_loads body = Some data -> read_content data = Ok (Some (PStr c)) ->
    slice_to (_parse_keywords c) max_keywords = [] ->
    remote_failure max_keywords (HttpResponse 200 body).

End ExtractorNotions.

(** *** Outcomes of the database service *)

Section DatabaseNotions.
Variable json_loads : str -> res pyval.

(** The WHERE clause of the duplicate query. *)
Definition row_matches (hash mail_id : str) (r : MailDb.mail_history_row) : Prop :=
  MailDb.content_hash r = Some hash \/ MailDb.message_id r = mail_id.

(** The exceptions the duplicate check catches around the decoding. *)
Definition caught (e : exc) : Prop := e = JSONDecodeError \/ e = TypeError.

(** How a stored keyword payload reads, when the check answers. *)
Inductive decodes_to : option str -> pyval -> Prop :=
| stored_null : decodes_to None (PList [])
| stored_empty : decodes_to (Some []) (PList [])
| stored_malformed text e :
    json_loads text = Raise e -> caught e -> decodes_to (Some text) (PList [])
| stored_decoded text v :
    text <> [] -> json_loads text = Ok v -> decodes_to (Some text) v.

(** A stored payload on which the decoder raises what the check does not
    catch. *)
Definition escapes (payload : option str) (e : exc) : Prop :=
  exists text, payload = Some text /\ text <> [] /\
               json_loads text = Raise e /\ ~ caught e.

(** How [_get_actual_account_id] resolves a reference, and what it does to
    the accounts table. *)
Inductive resolves (db : MailDb.database)
  : MailDb.account_ref -> Z -> list MailDb.account -> Prop :=
| resolves_int n : resolves db (MailDb.AccountInt n) n (MailDb.accounts db)
| resolves_known uid a before after :
    MailDb.accounts db = before ++ a :: after ->
    MailDb.user_id a = uid ->
    (forall b, In b before -> MailDb.user_id b <> uid) ->
    resolves db (MailDb.AccountStr uid) (MailDb.id a) (MailDb.accounts db)
| resolves_placeholder uid n :
    (forall a, In a (MailDb.accounts db) -> MailDb.user_id a <> uid) ->
    (forall a, In a (MailDb.accounts db) -> MailDb.id a <> n) ->
    resolves db (MailDb.AccountStr uid) n
      (MailDb.accounts db ++
       [{| MailDb.id := n; MailDb.user_id := uid;
           MailDb.user_name := u "Test User (" ++ uid ++ u ")";
           MailDb.is_active := 1 |}]).

End DatabaseNotions.

(** *** Concrete runs *)

(** An endpoint that answers every request with three keywords. *)
Definition sample_completion : pyval :=
  PDict [(u "choices",
          PList [PDict [(u "message",
                         PDict [(u "content", PStr (u "alpha, beta, gamma"))])]])].

(** A stored payload of 100000 opening brackets. *)
Definition deep_payload : str := repeat (ch "[") (N.to_nat 100000).

(** A decoder for the runs below: it reads the empty list, gives up on
    brackets nested deeper than 1000 and refuses every other text. *)
Definition sample_decoder (text : str) : res pyval :=
  if str_eqb text (u "[]") then Ok (PList [])
  else if forallb (N.eqb (ch "[")) text && (1000 <? length text)%nat
       then Raise RecursionError
       else Raise JSONDecodeError.

(** *** Matching, item by item *)

(** What the text matched by one item looks like. *)
Definition piece_ok (it : item) (w : str) : Prop :=
  match it with
  | Rep p lo hi =>
      Forall (fun c => p c = true) w /\ (lo <= length w)%nat /\
      (forall h, hi = Some h -> (length w <= h)%nat)
  | _ => w = []
  end.

(** An alternative cannot match without a character of class [p]. *)
Definition needs (p : cls) (alt : list item) : Prop :=
  exists lo hi, In (Rep p lo hi) alt /\ (1 <= lo)%nat.

(** *** Normal forms of the normalizer *)

(** The window [W] opens at no position of [s]. *)
Fixpoint none_at (W : str -> bool) (s : str) : bool :=
  match s with
  | [] => true
  | _ :: t => negb (W s) && none_at W t
  end.

Section NormalFormNotions.
Context {ucd : UnicodeData}.

(** [\b[a-zA-Z]\b] matches [c] between [prev] and [next]. *)
Definition isolated (prev : option char) (c : char) (next : option char) : bool :=
  negb (word_at prev) && ascii_letter c && negb (word_at next).

(** The text without its isolated letters. *)
Fixpoint drop_isolated (prev : option char) (s : str) : str :=
  match s with
  | [] => []
  | c :: t =>
      if isolated prev c (hd_error t) then drop_isolated (Some c) t
      else c :: drop_isolated (Some c) t
  end.

(** No letter of [s] is isolated, [prev] being the character before [s]. *)
Fixpoint iso_free (prev : option char) (s : str) : bool :=
  match s with
  | [] => true
  | c :: t => negb (isolated prev c (hd_error t)) && iso_free (Some c) t
  end.

(** [www\.[^\s]+] matches at the start of [s]. *)
Definition www_at (s : str) : bool :=
  match s with
  | a :: b :: c :: d :: e :: _ =>
      (a =? ch "w") && (b =? ch "w") && (c =? ch "w") && (d =? ch ".")
      && negb (is_space e)
  | _ => false
  end.

(** ["---"] stands at the start of [s]. *)
Definition dashes_at (s : str) : bool := prefixb (u "---") s.

(** Two spaces stand at the start of [s]. *)
Definition spaces_at (s : str) : bool := prefixb [SP; SP] s.

End NormalFormNotions.

(** [spaced s s']: [s'] is [s] with some stretches replaced by one space
    each. *)
Inductive spaced : str -> str -> Prop :=
| spaced_nil : spaced [] []
| spaced_copy c s s' : spaced s s' -> spaced (c :: s) (c :: s')
| spaced_repl l s s' : spaced s s' -> spaced (l ++ s) (SP :: s').

(** The same, every replaced stretch being non-empty and free of word
    characters. *)
Inductive spaced_nw {ucd : UnicodeData} : str -> str -> Prop :=
| nw_nil : spaced_nw [] []
| nw_copy c s s' : spaced_nw s s' -> spaced_nw (c :: s) (c :: s')
| nw_repl c l s s' :
    Forall (fun x => is_word x = false) (c :: l) ->
    spaced_nw s s' -> spaced_nw ((c :: l) ++ s) (SP :: s').

(** *** Occurrence *)

(** [w] stands in [s], as a contiguous stretch. *)
Definition occurs_in (w s : str) : Prop := exists l1 l2, s = l1 ++ w ++ l2.

(** *** Sessions *)

(** Every session that is still open is the one the service holds. *)
Definition leak_free (st : Session.state) : Prop :=
  forall n, Session.is_closed n st = false -> Session._session st = Some n.

(** *** The second pass of the normalizer, seen by the token patterns *)

(** The characters a second pass replaces. *)
Definition separator : cls := chars [ch "-"; ch "="; SP].

(** A class with no separator in it. *)
Definition sep_free (p : cls) : bool :=
  negb (p (ch "-")) && negb (p (ch "=")) && negb (p SP).

(** A stretch a second pass replaces by one space: separators, and not one
    hyphen alone. *)
Definition stretch (l : str) : Prop :=
  l <> [] /\ Forall (fun c => separator c = true) l /\ l <> [ch "-"].

(** [collapsed s s']: [s'] is [s] with some such stretches replaced by one
    space each, and separators dropped at the end. *)
Inductive collapsed : str -> str -> Prop :=
| collapsed_nil : collapsed [] []
| collapsed_copy c s s' : collapsed s s' -> collapsed (c :: s) (c :: s')
| collapsed_repl l s s' :
    stretch l -> collapsed s s' -> collapsed (l ++ s) (SP :: s')
| collapsed_end l :
    Forall (fun c => separator c = true) l -> collapsed l [].

(** Sequences of quantified classes that hold no separator, but for a
    literal hyphen right before a class that must match. *)
Fixpoint token_items (items : list item) : bool :=
  match items with
  | [] => true
  | Rep p lo hi :: rest =>
      (sep_free p
       || (p (ch "-") && negb (p (ch "=")) && negb (p SP) && (lo =? 1)%nat
           && match hi with Some 1%nat => true | _ => false end
           && match rest with
              | Rep q lo' _ :: _ => sep_free q && (1 <=? lo')%nat
              | _ => false
              end))
      && token_items rest
  | _ => false
  end.

(** Patterns made of such sequences, each starting with a class that must
    match. *)
Definition token_regex (r : regex) : bool :=
  forallb (fun alt => match alt with
                      | Rep p lo _ :: _ => sep_free p && (1 <=? lo)%nat
                      | _ => false
                      end && token_items alt) r.

(** Two match results with the same pieces, before remainders of which one
    is the other collapsed. *)
Definition agree (o o' : option (list str * str)) : Prop :=
  match o, o' with
  | None, None => True
  | Some m, Some m' => fst m = fst m' /\ collapsed (snd m) (snd m')
  | _, _ => False
  end.

(** *** The token classes, read off the text *)

Section TokenPool.
Context {ucd : UnicodeData}.

(** The number of characters of class [p] the text starts with. *)
Fixpoint prefix_len (p : cls) (s : str) : nat :=
  match s with
  | c :: t => if p c then S (prefix_len p t) else 0%nat
  | [] => 0%nat
  end.

(** The maximal runs of characters of class [p], left to right; [acc] is
    the run being read, last character first. *)
Fixpoint runs_from (p : cls) (acc : str) (s : str) : list str :=
  match s with
  | [] => match acc with [] => [] | _ => [rev acc] end
  | c :: t =>
      if p c then runs_from p (c :: acc) t
      else match acc with
           | [] => runs_from p [] t
           | _ => rev acc :: runs_from p [] t
           end
  end.

(** The maximal runs of at least [n] characters. *)
Definition long_runs (p : cls) (n : nat) (s : str) : list str :=
  filter (fun w => (n <=? length w)%nat) (runs_from p [] s).

(** The length of the identifier the text starts with, if it starts with
    one: capitals, two at least, then digits; or capitals, a hyphen and
    digits; or three digits at least. Capitals and digits are taken as far
    as they go. *)
Definition identifier_at (s : str) : option nat :=
  let a := prefix_len ascii_upper s in
  let rest := skipn a s in
  if (2 <=? a)%nat && (1 <=? prefix_len is_digit rest)%nat
  then Some (a + prefix_len is_digit rest)%nat
  else if (1 <=? a)%nat
          && match rest with
             | h :: t => (h =? ch "-")%N && (1 <=? prefix_len is_digit t)%nat
             | [] => false
             end
  then Some (a + 1 + prefix_len is_digit (tl rest))%nat
  else if (3 <=? prefix_len is_digit s)%nat then Some (prefix_len is_digit s)
  else None.

(** The identifiers of the text, left to right, none inside another; [skip]
    counts the characters still to pass of the identifier just read. *)
Fixpoint identifiers_from (s : str) (skip : nat) : list str :=
  match skip, s with
  | _, [] => []
  | S k, _ :: t => identifiers_from t k
  | O, _ :: t =>
      match identifier_at s with
      | Some n => firstn n s :: identifiers_from t (pred n)
      | None => identifiers_from t 0
      end
  end.

(** A stretch between [l] and [r] that no character of class [p] bounds:
    a run there is maximal. *)
Definition maximal_in (p : cls) (l r : str) : Prop :=
  (forall l' d, l = l' ++ [d] -> p d = false) /\
  (forall d r', r = d :: r' -> p d = false).

(** The pool of the spec: Hangul runs of two or more, then Latin runs of
    three or more, then identifiers. *)
Definition token_pool (normalized : str) : list str :=
  long_runs hangul 2 normalized ++ long_runs ascii_letter 3 normalized
    ++ identifiers_from normalized 0.

End TokenPool.

(** * Properties *)

Section EngineFacts.
Context {ucd : UnicodeData}.

Lemma first_down_top {A} (f : nat -> option A) lo n r :
  (lo <= n)%nat -> f n = Some r -> first_down f lo n = Some r.
Proof.
  intros Hle Hf. destruct n; simpl.
  - destruct lo; [|lia]. simpl. now rewrite Hf.
  - destruct (Nat.ltb_spec (S n) lo); [lia|]. now rewrite Hf.
Qed.

Lemma first_down_below {A} (f : nat -> option A) lo n :
  (n < lo)%nat -> first_down f lo n = None.
Proof.
  intros H. destruct n; simpl.
  - destruct lo; [lia|]. reflexivity.
  - destruct (Nat.ltb_spec (S n) lo); [reflexivity|lia].
Qed.

(** A successful [first_down] comes from some [k] in range. *)
Lemma first_down_some {A} (f : nat -> option A) lo n r :
  first_down f lo n = Some r -> exists k, (lo <= k <= n)%nat /\ f k = Some r.
Proof.
  induction n as [|n IH]; simpl.
  - destruct lo; simpl; [|discriminate].
    destruct (f 0%nat) eqn:E; [|discriminate]. intros [= ->]. exists 0%nat. split; [lia|assumption].
  - destruct (Nat.ltb_spec (S n) lo); [discriminate|].
    destruct (f (S n)) eqn:E.
    + intros [= ->]. exists (S n). split; [lia|assumption].
    + intros H1. destruct (IH H1) as (k & Hk & Hf). exists k. split; [lia|assumption].
Qed.

Lemma first_down_none {A} (f : nat -> option A) lo n :
  first_down f lo n = None -> forall k, (lo <= k <= n)%nat -> f k = None.
Proof.
  induction n as [|n IH]; simpl.
  - destruct lo; simpl.
    + destruct (f 0%nat) eqn:E; [discriminate|]. intros _ k Hk. assert (k = 0)%nat by lia. now subst.
    + intros _ k Hk. lia.
  - destruct (Nat.ltb_spec (S n) lo).
    + intros _ k Hk. lia.
    + destruct (f (S n)) eqn:E; [discriminate|].
      intros H1 k Hk. destruct (Nat.eq_dec k (S n)) as [->|]; [assumption|].
      apply IH; [assumption|lia].
Qed.

Lemma run_le_length p cap s : (run p cap s <= length s)%nat.
Proof.
  revert cap. induction s as [|c t IH]; intros cap; simpl; [lia|].
  destruct (p c); [|lia]. destruct cap as [[|k]|]; [lia| |].
  - specialize (IH (Some k)). lia.
  - specialize (IH None). lia.
Qed.

Lemma run_firstn_all p cap s : Forall (fun c => p c = true) (firstn (run p cap s) s).
Proof.
  revert cap. induction s as [|c t IH]; intros cap; simpl; [constructor|].
  destruct (p c) eqn:E; [|constructor]. destruct cap as [[|k]|]; simpl; [constructor| |];
  constructor; auto.
Qed.

End EngineFacts.

Section SubFacts.
Context {ucd : UnicodeData}.

Lemma sub_from_Forall_kept (P : char -> Prop) r repl :
  Forall P repl ->
  (forall prev c t, keeps r prev (c :: t) -> P c) ->
  forall s prev k, Forall P (sub_from r repl prev s k).
Proof.
  intros Hrepl Hkeep. induction s as [|c t IH]; intros prev k.
  - destruct k; simpl; [|constructor].
    destruct (match_here r prev []); [rewrite app_nil_r; assumption|constructor].
  - destruct k; simpl; [|apply IH].
    destruct (match_here r prev (c :: t)) as [m|] eqn:E.
    + apply Forall_app. split; [assumption|].
      destruct (length (matched m)) eqn:L; [|apply IH].
      constructor; [|apply IH].
      apply (Hkeep prev c t). unfold keeps. rewrite E.
      now apply length_zero_iff_nil.
    + constructor; [|apply IH].
      apply (Hkeep prev c t). unfold keeps. now rewrite E.
Qed.

Lemma sub_from_Forall (P : char -> Prop) r repl s :
  Forall P repl -> Forall P s ->
  forall prev k, Forall P (sub_from r repl prev s k).
Proof.
  intros Hrepl. induction 1 as [|c t Hc Ht IH]; intros prev k.
  - destruct k; simpl; [|constructor].
    destruct (match_here r prev []); [rewrite app_nil_r; assumption|constructor].
  - destruct k; simpl; [|apply IH].
    destruct (match_here r prev (c :: t)) as [m|].
    + apply Forall_app. split; [assumption|].
      destruct (length (matched m)); [constructor; auto|apply IH].
    + constructor; auto.
Qed.

Lemma re_sub_Forall (P : char -> Prop) r repl s :
  Forall P repl -> Forall P s -> Forall P (re_sub r repl s).
Proof. intros. now apply sub_from_Forall. Qed.

Lemma replace_from_Forall (P : char -> Prop) old new s :
  Forall P new -> Forall P s -> forall k, Forall P (replace_from old new s k).
Proof.
  intros Hnew. induction 1 as [|c t Hc Ht IH]; intros k.
  - destruct k; constructor.
  - destruct k; simpl; [|apply IH].
    destruct (prefixb old (c :: t)).
    + apply Forall_app. split; [assumption|apply IH].
    + constructor; auto.
Qed.

Lemma drop_while_Forall (P : char -> Prop) p s :
  Forall P s -> Forall P (drop_while p s).
Proof.
  induction 1 as [|c t Hc Ht IH]; simpl; [constructor|].
  destruct (p c); [assumption|constructor; assumption].
Qed.

Lemma strip_Forall (P : char -> Prop) s : Forall P s -> Forall P (strip s).
Proof.
  intros H. unfold strip, rstrip, lstrip.
  apply Forall_rev, drop_while_Forall, Forall_rev, drop_while_Forall, H.
Qed.

Lemma drop_while_head p s :
  match drop_while p s with c :: _ => p c = false | [] => True end.
Proof.
  induction s as [|c t IH]; simpl; [exact I|].
  destruct (p c) eqn:E; [assumption|assumption].
Qed.

Lemma drop_while_id p s :
  match s with c :: _ => p c = false | [] => True end -> drop_while p s = s.
Proof. destruct s as [|c t]; simpl; [reflexivity|]. now intros ->. Qed.

(** Dropping from one end does not disturb the other. *)
Lemma drop_while_last p s d :
  drop_while p s <> [] -> last (drop_while p s) d = last s d.
Proof.
  induction s as [|c t IH]; simpl; [congruence|].
  destruct (p c); [|reflexivity].
  intros H. rewrite (IH H). destruct t; [simpl in H; congruence|reflexivity].
Qed.

Lemma hd_rev_last (s : str) d : hd d (rev s) = last s d.
Proof.
  induction s as [|c t IH] using rev_ind; [reflexivity|].
  rewrite rev_app_distr, last_last. reflexivity.
Qed.

(** Stripping a class [p] from both ends leaves no [p] at either end. *)
Lemma strip_by_head p s :
  match rev (drop_while p (rev (drop_while p s))) with
  | c :: _ => p c = false
  | [] => True
  end.
Proof.
  pose proof (drop_while_head p s) as H.
  set (a := drop_while p s) in *.
  destruct (drop_while p (rev a)) as [|x l] eqn:E; [exact I|].
  assert (Hne : drop_while p (rev a) <> []) by (rewrite E; discriminate).
  pose proof (drop_while_last p (rev a) 0 Hne) as HL.
  rewrite E in HL.
  destruct (rev (x :: l)) as [|y l'] eqn:E2; [exact I|].
  assert (Hy : y = hd 0 (rev (x :: l))) by now rewrite E2.
  rewrite hd_rev_last, HL, <- hd_rev_last, rev_involutive in Hy.
  destruct a as [|z a']; simpl in *; [discriminate|]. now subst.
Qed.

Lemma strip_by_last p s :
  match rev (rev (drop_while p (rev (drop_while p s)))) with
  | c :: _ => p c = false
  | [] => True
  end.
Proof. rewrite rev_involutive. apply drop_while_head. Qed.

Lemma strip_head s :
  match strip s with c :: _ => is_space c = false | [] => True end.
Proof. apply strip_by_head. Qed.

Lemma strip_last s :
  match rev (strip s) with c :: _ => is_space c = false | [] => True end.
Proof. apply strip_by_last. Qed.

Lemma lstrip_strip s : lstrip (strip s) = strip s.
Proof. apply drop_while_id, strip_head. Qed.

Lemma rstrip_strip s : rstrip (strip s) = strip s.
Proof.
  unfold rstrip at 1. rewrite drop_while_id by apply strip_last.
  apply rev_involutive.
Qed.

Lemma strip_strip s : strip (strip s) = strip s.
Proof. unfold strip at 1. now rewrite lstrip_strip, rstrip_strip. Qed.

End SubFacts.

Section CleanTextWhitespace.
Context {ucd : UnicodeData}.

(** A pattern made of one quantified class matches its longest run. *)
Lemma match_seq_rep1 p lo hi prev s :
  match_seq [Rep p lo hi] prev s =
  if (lo <=? run p hi s)%nat
  then Some ([firstn (run p hi s) s], skipn (run p hi s) s) else None.
Proof.
  cbn [match_seq]. destruct (Nat.leb_spec lo (run p hi s)) as [H|H].
  - apply first_down_top; [exact H|reflexivity].
  - now apply first_down_below.
Qed.

Lemma run_head p s : run p None s = 0%nat ->
  match s with c :: _ => p c = false | [] => True end.
Proof. destruct s as [|c t]; simpl; [trivial|]. destruct (p c); [discriminate|reflexivity]. Qed.

Lemma firstn_nil_inv {A} n (s : list A) : firstn n s = [] -> n = 0%nat \/ s = [].
Proof. destruct n, s; simpl; auto; discriminate. Qed.

(** [\s+] leaves no whitespace character in place. *)
Lemma keeps_spaces_not_space prev c t :
  keeps re_spaces prev (c :: t) -> is_space c = false.
Proof.
  unfold keeps, re_spaces, plus. cbn [match_here].
  rewrite match_seq_rep1.
  destruct (Nat.leb_spec 1 (run is_space None (c :: t))) as [H|H].
  - unfold matched. cbn [fst concat]. rewrite app_nil_r. intros E.
    apply firstn_nil_inv in E. destruct E; [lia|discriminate].
  - intros _. apply (run_head is_space (c :: t)). lia.
Qed.

Lemma clean_text_only_plain_space text :
  Forall only_plain_space (_clean_text text).
Proof.
  unfold _clean_text. destruct (nonempty text); [|constructor].
  apply strip_Forall. apply re_sub_Forall; [constructor|].
  apply sub_from_Forall_kept.
  - constructor; [|constructor]. intros _. reflexivity.
  - intros prev c t H Hs. rewrite (keeps_spaces_not_space _ _ _ H) in Hs. discriminate.
Qed.

(** C10: the normalizer's output has no line feed, carriage return or tab,
    every whitespace character left in it is the ASCII space, and it neither
    starts nor ends with whitespace. *)
Theorem clean_text_whitespace_normal (text : str) :
  let out := _clean_text text in
  (forall c, In c out -> is_space c = true -> c = SP) /\
  ~ In LF out /\ ~ In CR out /\ ~ In TAB out /\
  (forall c t, out = c :: t -> is_space c = false) /\
  (forall l c, out = l ++ [c] -> is_space c = false) /\
  strip out = out.
Proof.
  intros out.
  assert (H : forall c, In c out -> is_space c = true -> c = SP).
  { intros c Hc. pose proof (clean_text_only_plain_space text) as HF.
    rewrite Forall_forall in HF. exact (HF c Hc). }
  assert (Hs : exists s, out = strip s).
  { subst out. unfold _clean_text. destruct (nonempty text); eauto. now exists []. }
  destruct Hs as [s Hs].
  split; [exact H|].
  split; [intros Hc; specialize (H _ Hc eq_refl); discriminate|].
  split; [intros Hc; specialize (H _ Hc eq_refl); discriminate|].
  split; [intros Hc; specialize (H _ Hc eq_refl); discriminate|].
  split.
  { intros c t E. pose proof (strip_head s) as Hh. rewrite <- Hs, E in Hh. exact Hh. }
  split.
  { intros l c E. pose proof (strip_last s) as Hl. rewrite <- Hs, E, rev_app_distr in Hl.
    exact Hl. }
  rewrite Hs. apply strip_strip.
Qed.

End CleanTextWhitespace.

Section ParserFacts.
Context {ucd : UnicodeData}.

Lemma last_cons_default (t : str) (d c : char) : last (d :: t) c = last t d.
Proof.
  revert d c. induction t as [|x t IH]; intros d c; [reflexivity|].
  change (last (d :: x :: t) c) with (last (x :: t) c).
  now rewrite (IH x c), (IH x d).
Qed.

(** Skipping [k] positions resumes the scan [k] characters further. *)
Lemma sub_from_skip r repl s : forall k prev,
  (k <= length s)%nat ->
  sub_from r repl prev s k =
  sub_from r repl (prev_after prev (firstn k s)) (skipn k s) 0.
Proof.
  induction s as [|c t IH]; intros k prev Hk.
  - simpl in Hk. assert (k = 0)%nat by lia. subst. reflexivity.
  - destruct k as [|k]; [reflexivity|].
    simpl in Hk. cbn [sub_from firstn skipn]. rewrite IH by lia.
    f_equal. unfold prev_after. destruct (firstn k t) as [|d t'] eqn:E; [reflexivity|].
    now rewrite last_cons_default.
Qed.

Lemma drop_while_skipn_run p s : drop_while p s = skipn (run p None s) s.
Proof.
  induction s as [|c t IH]; [reflexivity|]. simpl.
  destruct (p c); [exact IH|reflexivity].
Qed.

Lemma run_all p s : forallb p s = true -> run p None s = length s.
Proof.
  induction s as [|c t IH]; [reflexivity|]. simpl.
  destruct (p c); [|discriminate]. intros H. now rewrite IH.
Qed.

Lemma run_not_all p s :
  forallb p s = false ->
  exists d rest, skipn (run p None s) s = d :: rest /\ p d = false.
Proof.
  induction s as [|c t IH]; [discriminate|]. simpl.
  destruct (p c) eqn:E; simpl; [exact IH|]. intros _. now exists c, t.
Qed.

(** Trailing strip, by recursion from the left. *)
Lemma rstrip_cons p c t :
  rev (drop_while p (rev (c :: t))) =
  if forallb p (c :: t) then [] else c :: rev (drop_while p (rev t)).
Proof.
  cbn [rev forallb].
  induction t as [|x t IH] using rev_ind.
  - simpl. destruct (p c); reflexivity.
  - rewrite rev_app_distr. cbn [rev app drop_while].
    rewrite forallb_app. cbn [forallb]. rewrite andb_true_r.
    destruct (p x) eqn:Ex.
    + rewrite andb_true_r. exact IH.
    + rewrite andb_false_r, andb_false_r. cbn [rev].
      rewrite rev_app_distr, rev_involutive. reflexivity.
Qed.

Lemma edge_LF : edge LF = true.
Proof. reflexivity. Qed.

Lemma at_eol_false_2 a b (l : str) : at_eol (a :: b :: l) = false.
Proof. reflexivity. Qed.

(** [[^\w가-힣]+$] at a position where the run of edge characters stops before
    the end does not match. *)
Lemma edges_eol_stuck prev s d rest :
  skipn (run edge None s) s = d :: rest -> edge d = false ->
  match_seq [plus edge; Eol] prev s = None.
Proof.
  intros Hs Hd. unfold plus. cbn [match_seq].
  destruct (first_down _ 1 (run edge None s)) eqn:E; [|reflexivity].
  apply first_down_some in E. destruct E as (k & Hk & Hf).
  assert (Hat : at_eol (skipn k s) = false).
  { destruct (Nat.eq_dec k (run edge None s)) as [->|Hne].
    - rewrite Hs. destruct rest; [|reflexivity]. simpl.
      destruct (N.eqb_spec d LF) as [->|]; [|reflexivity].
      rewrite edge_LF in Hd. discriminate.
    - assert (Hlt : (k < run edge None s)%nat) by lia.
      assert (Hsk : skipn (run edge None s - k) (skipn k s) = d :: rest).
      { rewrite skipn_skipn. replace (run edge None s - k + k)%nat with (run edge None s) by lia.
        exact Hs. }
      destruct (skipn k s) as [|a [|b l]] eqn:E1.
      + rewrite skipn_nil in Hsk. discriminate.
      + destruct (run edge None s - k)%nat as [|j] eqn:Ej; [lia|].
        simpl in Hsk. rewrite skipn_nil in Hsk. discriminate.
      + reflexivity. }
  rewrite Hat in Hf. discriminate.
Qed.

Lemma edges_eol_all prev s :
  s <> [] -> forallb edge s = true ->
  match_seq [plus edge; Eol] prev s = Some ([s; []], []).
Proof.
  intros Hne Hall. unfold plus. cbn [match_seq].
  rewrite (run_all _ _ Hall).
  apply first_down_top.
  - destruct s; [congruence|simpl; lia].
  - rewrite skipn_all, firstn_all. reflexivity.
Qed.

Lemma edges_eol_nil prev : match_seq [plus edge; Eol] prev [] = None.
Proof. reflexivity. Qed.

Lemma sub_from_past_end r repl : forall (s : str) prev k,
  (length s < k)%nat -> sub_from r repl prev s k = [].
Proof.
  induction s as [|c t IH]; intros prev k Hk.
  - destruct k; [simpl in Hk; lia|reflexivity].
  - destruct k; [lia|]. simpl in Hk. cbn [sub_from]. apply IH. lia.
Qed.

Lemma prev_after_some c (l : str) : exists q, prev_after (Some c) l = Some q.
Proof. destruct l; simpl; eauto. Qed.

(** After the first position only the trailing alternative can match. *)
Lemma sub_edges_tail : forall s p,
  sub_from re_edges [] (Some p) s 0 = rev (drop_while edge (rev s)).
Proof.
  induction s as [|c t IH]; intros p; [reflexivity|].
  rewrite rstrip_cons.
  cbn [sub_from re_edges match_here].
  change (match_seq [Bol; plus edge] (Some p) (c :: t)) with (@None (list str * str)).
  destruct (forallb edge (c :: t)) eqn:Hall.
  - rewrite (@edges_eol_all (Some p) (c :: t)) by (congruence || assumption).
    unfold matched. cbn [fst concat app]. rewrite app_nil_r. cbn [length].
    rewrite sub_from_skip by lia.
    rewrite skipn_all.
    destruct (prev_after_some c (firstn (length t) t)) as [q ->]. reflexivity.
  - destruct (run_not_all _ _ Hall) as (d & rest & Hs & Hd).
    rewrite (edges_eol_stuck (Some p) _ _ _ Hs Hd).
    now rewrite IH.
Qed.

(** The cleaning substitution of the parser is exactly [strip_edges]. *)
Lemma re_sub_edges kw : re_sub re_edges [] kw = strip_edges kw.
Proof.
  unfold re_sub, strip_edges. destruct kw as [|c t]; [reflexivity|].
  cbn [sub_from re_edges match_here match_seq option_map].
  destruct (edge c) eqn:Ec.
  - (* the leading alternative takes the whole leading run *)
    rewrite (drop_while_skipn_run edge (c :: t)).
    set (n := run edge None (c :: t)).
    assert (Hn : (1 <= n <= length (c :: t))%nat).
    { split; [subst n; simpl; rewrite Ec; lia|apply run_le_length]. }
    unfold plus. cbn [match_seq].
    fold n.
    match goal with |- context [first_down ?f 1%nat n] =>
      rewrite (first_down_top f 1 n (add_piece (firstn n (c :: t)) ([], skipn n (c :: t)))
                 (proj1 Hn) eq_refl) end.
    unfold matched. cbn [option_map add_piece fst snd concat app]. rewrite app_nil_r.
    rewrite length_firstn, Nat.min_l by lia.
    destruct n as [|k]; [lia|].
    cbn [length] in Hn. rewrite sub_from_skip by lia.
    cbn [skipn].
    destruct (prev_after_some c (firstn k t)) as [q ->].
    apply sub_edges_tail.
  - (* nothing matches at the first position *)
    assert (Hrun : run edge None (c :: t) = 0%nat) by (simpl; now rewrite Ec).
    unfold plus. cbn [match_seq]. rewrite Hrun.
    cbn [first_down Nat.ltb Nat.leb].
    rewrite sub_edges_tail.
    cbn [drop_while]. rewrite Ec.
    rewrite rstrip_cons. cbn [forallb]. rewrite Ec. reflexivity.
Qed.

End ParserFacts.

Section ParserClaims.
Context {ucd : UnicodeData}.

Lemma strip_edges_fixed kw :
  match kw with c :: _ => edge c = false | [] => True end ->
  match rev kw with c :: _ => edge c = false | [] => True end ->
  strip_edges kw = kw.
Proof.
  intros H1 H2. unfold strip_edges.
  rewrite (drop_while_id edge kw H1), (drop_while_id edge (rev kw) H2).
  apply rev_involutive.
Qed.

Lemma edge_hangul c : hangul c = true -> edge c = false.
Proof.
  intros H. unfold edge, none_of, any_of. cbn [existsb].
  rewrite H. now rewrite orb_true_r.
Qed.

Lemma flat_map_filter_map {A B} (f : A -> B) (keep : B -> bool) l :
  flat_map (fun x => if keep (f x) then [f x] else []) l = filter keep (map f l).
Proof.
  induction l as [|x l IH]; [reflexivity|]. cbn [flat_map map filter].
  rewrite IH. destruct (keep (f x)); reflexivity.
Qed.

Lemma clean_keywords_spec keywords :
  clean_keywords keywords =
  filter (fun kw => (2 <=? length kw)%nat) (map strip_edges keywords).
Proof.
  unfold clean_keywords. rewrite <- flat_map_filter_map.
  apply flat_map_ext. intros kw. rewrite re_sub_edges.
  destruct (strip_edges kw) as [|a [|b l]]; reflexivity.
Qed.

(** C8: whatever rule produced the candidates, the parser strips every
    candidate of its leading and trailing characters that are neither word
    characters nor Hangul syllables, drops the ones left with fewer than two
    characters, and changes nothing else: the output is the candidates in
    their order, stripped and filtered, duplicates included. *)
Theorem parse_keywords_post_filter (content : str) :
  _parse_keywords content =
    filter (fun kw => (2 <=? length kw)%nat)
           (map strip_edges (keyword_candidates content)) /\
  forall kw, In kw (_parse_keywords content) ->
    (2 <= length kw)%nat /\
    (exists raw, In raw (keyword_candidates content) /\ kw = strip_edges raw) /\
    (forall c t, kw = c :: t -> edge c = false) /\
    (forall l c, kw = l ++ [c] -> edge c = false).
Proof.
  unfold _parse_keywords. rewrite clean_keywords_spec. split; [reflexivity|].
  intros kw Hin. apply filter_In in Hin. destruct Hin as [Hin Hlen].
  apply in_map_iff in Hin. destruct Hin as (raw & <- & Hraw).
  split; [now apply Nat.leb_le|].
  split; [now exists raw|].
  split.
  - intros c t E. pose proof (strip_by_head edge raw) as H.
    unfold strip_edges in E. now rewrite E in H.
  - intros l c E. pose proof (strip_by_last edge raw) as H.
    unfold strip_edges in E. now rewrite E, rev_app_distr in H.
Qed.

(** C7: the five literal cases of the response parser. *)
Theorem parse_keywords_literal_cases :
  _parse_keywords (u "1. 선박" ++ [LF] ++ u "2. 안전" ++ [LF] ++ u "3. 점검")
    = [u "선박"; u "안전"; u "점검"] /\
  _parse_keywords (u "apple, banana, cherry")
    = [u "apple"; u "banana"; u "cherry"] /\
  _parse_keywords (u "alpha" ++ [LF] ++ u "beta" ++ [LF] ++ u "gamma")
    = [u "alpha"; u "beta"; u "gamma"] /\
  _parse_keywords (u "one two three") = [u "one"; u "two"; u "three"] /\
  _parse_keywords (u "a, ") = [].
Proof.
  split; [|repeat split; vm_compute; reflexivity].
  unfold _parse_keywords. rewrite clean_keywords_spec.
  assert (E : keyword_candidates
                (u "1. 선박" ++ [LF] ++ u "2. 안전" ++ [LF] ++ u "3. 점검")
              = [[49440; 48149]; [50504; 51204]; [51216; 44160]])
    by (vm_compute; reflexivity).
  rewrite E. cbn [map].
  rewrite !strip_edges_fixed by (cbn [rev app]; apply edge_hangul; reflexivity).
  vm_compute. reflexivity.
Qed.

End ParserClaims.

Open Scope nat_scope.

Section CounterFacts.

Lemma str_eqb_eq a b : str_eqb a b = true <-> a = b.
Proof. unfold str_eqb. destruct (list_eq_dec N.eq_dec a b); split; congruence. Qed.

Lemma str_eqb_neq a b : str_eqb a b = false <-> a <> b.
Proof. unfold str_eqb. destruct (list_eq_dec N.eq_dec a b); split; congruence. Qed.

Lemma counter_incr_keys w c :
  keys (counter_incr w c) = if in_dec str_eq_dec w (keys c) then keys c else keys c ++ [w].
Proof.
  unfold keys. induction c as [|[k n] t IH]; [reflexivity|].
  cbn [counter_incr]. destruct (str_eqb k w) eqn:E.
  - apply str_eqb_eq in E. subst k. cbn [map fst].
    destruct (in_dec str_eq_dec w (w :: map fst t)) as [|Hn]; [reflexivity|].
    exfalso. apply Hn. now left.
  - apply str_eqb_neq in E. cbn [map fst] in *. rewrite IH.
    destruct (in_dec str_eq_dec w (map fst t)) as [Hi|Hn];
      destruct (in_dec str_eq_dec w (k :: map fst t)) as [Hi'|Hn']; try reflexivity.
    + exfalso. apply Hn'. now right.
    + exfalso. destruct Hi' as [->|]; [now apply E|contradiction].
Qed.

Lemma Counter_snoc l w : Counter (l ++ [w]) = counter_incr w (Counter l).
Proof. unfold Counter. now rewrite fold_left_app. Qed.

Lemma Counter_keys_in l w : In w (keys (Counter l)) <-> In w l.
Proof.
  induction l as [|x l IH] using rev_ind; [reflexivity|].
  rewrite Counter_snoc, counter_incr_keys.
  destruct (in_dec str_eq_dec x (keys (Counter l))) as [Hi|Hn];
    rewrite ?in_app_iff; cbn [In]; rewrite ?IH.
  - split; [tauto|]. intros [H|[<-|[]]]; [assumption|]. now apply IH.
  - tauto.
Qed.

Lemma Counter_keys_NoDup l : NoDup (keys (Counter l)).
Proof.
  induction l as [|x l IH] using rev_ind; [constructor|].
  rewrite Counter_snoc, counter_incr_keys.
  destruct (in_dec str_eq_dec x (keys (Counter l))) as [Hi|Hn]; [assumption|].
  apply NoDup_app; [assumption|repeat constructor; intros []|].
  intros a Ha [<-|[]]. contradiction.
Qed.

Lemma first_occurrence_lt pool w : In w pool -> first_occurrence pool w < length pool.
Proof.
  induction pool as [|x t IH]; [intros []|]. cbn [first_occurrence length].
  destruct (str_eq_dec x w); [lia|]. intros [->|H]; [congruence|].
  specialize (IH H). lia.
Qed.

Lemma first_occurrence_app_in pool l w :
  In w pool -> first_occurrence (pool ++ l) w = first_occurrence pool w.
Proof.
  induction pool as [|x t IH]; [intros []|]. cbn [first_occurrence app].
  destruct (str_eq_dec x w); [reflexivity|]. intros [->|H]; [congruence|].
  now rewrite IH.
Qed.

Lemma first_occurrence_app_new pool w :
  ~ In w pool -> first_occurrence (pool ++ [w]) w = length pool.
Proof.
  induction pool as [|x t IH]; cbn [first_occurrence app length In].
  - destruct (str_eq_dec w w); [reflexivity|congruence].
  - intros H. destruct (str_eq_dec x w); [tauto|]. rewrite IH; tauto.
Qed.

(** The keys of a counter stand in the order of first occurrence. *)
Lemma Counter_keys_sorted l : StronglySorted (earlier l) (keys (Counter l)).
Proof.
  induction l as [|x l IH] using rev_ind; [constructor|].
  rewrite Counter_snoc, counter_incr_keys.
  assert (Hmono : StronglySorted (earlier (l ++ [x])) (keys (Counter l))).
  { assert (Hin : forall a, In a (keys (Counter l)) -> In a l)
      by (intros a; apply Counter_keys_in).
    revert IH Hin. generalize (keys (Counter l)) as ks.
    induction ks as [|a ks IHks]; intros Hs Hin; [constructor|].
    apply StronglySorted_inv in Hs. destruct Hs as [Hs Ha].
    constructor; [apply IHks; [assumption|intros b Hb; apply Hin; now right]|].
    rewrite Forall_forall in *. intros b Hb. specialize (Ha b Hb).
    unfold earlier in *.
    rewrite !first_occurrence_app_in; [assumption|apply Hin; now right|apply Hin; now left]. }
  destruct (in_dec str_eq_dec x (keys (Counter l))) as [Hi|Hn]; [assumption|].
  assert (Hx : ~ In x l) by (intros H; apply Hn; now apply Counter_keys_in).
  assert (Hall : Forall (fun a => earlier (l ++ [x]) a x) (keys (Counter l))).
  { rewrite Forall_forall. intros a Ha. apply (proj1 (Counter_keys_in l a)) in Ha.
    unfold earlier. rewrite (first_occurrence_app_in l [x] a Ha).
    rewrite first_occurrence_app_new by assumption.
    now apply first_occurrence_lt. }
  revert Hmono Hall. generalize (keys (Counter l)) as ks.
  induction ks as [|a ks IHks]; intros Hs Hall; cbn [app].
  - repeat constructor.
  - apply StronglySorted_inv in Hs. destruct Hs as [Hs Ha].
    apply Forall_inv_tail in Hall as Hall'. apply Forall_inv in Hall.
    constructor; [apply IHks; assumption|].
    apply Forall_app. split; [assumption|]. now constructor.
Qed.

Lemma counter_incr_count w c x n :
  NoDup (keys c) ->
  In (x, n) (counter_incr w c) ->
  (x = w /\ ((n = 1 /\ ~ In w (keys c)) \/ exists m, n = S m /\ In (w, m) c)) \/
  (x <> w /\ In (x, n) c).
Proof.
  induction c as [|[k m] t IH]; cbn [counter_incr keys map fst In].
  - intros _ [[= <- <-]|[]]. left. split; [reflexivity|]. left. tauto.
  - intros Hnd. apply NoDup_cons_iff in Hnd. destruct Hnd as [Hk Hnd].
    destruct (str_eqb k w) eqn:E.
    + apply str_eqb_eq in E. subst k. intros [[= <- <-]|Hin].
      * left. split; [reflexivity|]. right. exists m. split; [reflexivity|now left].
      * right. split; [|now right]. intros ->. apply Hk.
        change (In (fst (w, n)) (map fst t)). now apply in_map.
    + apply str_eqb_neq in E. intros [[= <- <-]|Hin].
      * right. split; [assumption|now left].
      * destruct (IH Hnd Hin) as [[-> [[-> Hw]|(m' & -> & Hm')]]|[Hx Hin']].
        -- left. split; [reflexivity|]. left. split; [reflexivity|]. intros [->|H]; tauto.
        -- left. split; [reflexivity|]. right. exists m'. split; [reflexivity|now right].
        -- right. split; [assumption|now right].
Qed.

(** Each key is stored with its frequency. *)
Lemma Counter_counts l : forall x n, In (x, n) (Counter l) -> n = frequency l x.
Proof.
  induction l as [|w l IH] using rev_ind; [intros x n []|].
  intros x n Hin. rewrite Counter_snoc in Hin.
  apply counter_incr_count in Hin; [|apply Counter_keys_NoDup].
  unfold frequency in *. rewrite count_occ_app. cbn [count_occ].
  destruct Hin as [[-> [[-> Hw]|(m & -> & Hm)]]|[Hx Hin]].
  - destruct (str_eq_dec w w); [|congruence].
    assert (Hnl : ~ In w l) by (intros H; apply Hw; now apply Counter_keys_in).
    apply (count_occ_not_In str_eq_dec) in Hnl. lia.
  - destruct (str_eq_dec w w); [|congruence]. rewrite (IH _ _ Hm). lia.
  - destruct (str_eq_dec w x); [congruence|]. rewrite (IH _ _ Hin). lia.
Qed.

End CounterFacts.

Section SortFacts.

Variable before_key : str -> str -> Prop.

Lemma insert_by_count_perm x l : Permutation (insert_by_count x l) (x :: l).
Proof.
  induction l as [|y t IH]; [reflexivity|]. cbn [insert_by_count].
  destruct (snd y <=? snd x); [reflexivity|].
  rewrite IH. apply perm_swap.
Qed.

Lemma sort_by_count_perm c : Permutation (sort_by_count c) c.
Proof.
  induction c as [|x c IH]; [reflexivity|]. cbn [sort_by_count fold_right].
  rewrite insert_by_count_perm. now constructor.
Qed.

Lemma before_pair_count a b : before_pair before_key a b -> snd b <= snd a.
Proof. unfold before_pair. lia. Qed.

Lemma insert_by_count_sorted x l :
  StronglySorted (before_pair before_key) l ->
  Forall (fun y => before_key (fst x) (fst y)) l ->
  StronglySorted (before_pair before_key) (insert_by_count x l).
Proof.
  induction l as [|y t IH]; intros Hs Hx; cbn [insert_by_count].
  - repeat constructor.
  - apply StronglySorted_inv in Hs. destruct Hs as [Hs Hy].
    destruct (Nat.leb_spec (snd y) (snd x)) as [Hle|Hlt].
    + constructor; [now constructor|].
      rewrite Forall_forall in *. intros z Hz.
      assert (Hzy : snd z <= snd y).
      { destruct Hz as [<-|Hz]; [lia|]. now apply before_pair_count, Hy. }
      unfold before_pair.
      destruct (Nat.eq_dec (snd x) (snd z)) as [E|E]; [right|left; lia].
      split; [assumption|now apply Hx].
    + constructor; [apply IH; [assumption|now apply Forall_inv_tail in Hx]|].
      rewrite Forall_forall in *. intros z Hz.
      apply (Permutation_in _ (insert_by_count_perm x t)) in Hz.
      destruct Hz as [<-|Hz]; [left; lia|now apply Hy].
Qed.

Lemma sort_by_count_sorted c :
  StronglySorted (fun a b => before_key (fst a) (fst b)) c ->
  StronglySorted (before_pair before_key) (sort_by_count c).
Proof.
  induction c as [|x c IH]; intros Hs; [constructor|].
  apply StronglySorted_inv in Hs. destruct Hs as [Hs Hx].
  cbn [sort_by_count fold_right]. apply insert_by_count_sorted; [now apply IH|].
  rewrite Forall_forall in *. intros y Hy. apply Hx.
  now apply (Permutation_in _ (sort_by_count_perm c)).
Qed.

End SortFacts.

Section ListFacts.

Lemma StronglySorted_map {A B} (R : A -> A -> Prop) (R' : B -> B -> Prop) (f : A -> B) l :
  (forall a b, In a l -> In b l -> R a b -> R' (f a) (f b)) ->
  StronglySorted R l -> StronglySorted R' (map f l).
Proof.
  induction l as [|x l IH]; intros H Hs; [constructor|].
  apply StronglySorted_inv in Hs. destruct Hs as [Hs Hx]. cbn [map].
  constructor.
  - apply IH; [|assumption]. intros a b Ha Hb. apply H; now right.
  - rewrite Forall_forall in *. intros y Hy. apply in_map_iff in Hy.
    destruct Hy as (z & <- & Hz). apply H; [now left|now right|now apply Hx].
Qed.

Lemma StronglySorted_app_inv {A} (R : A -> A -> Prop) l1 l2 :
  StronglySorted R (l1 ++ l2) ->
  StronglySorted R l1 /\ forall a b, In a l1 -> In b l2 -> R a b.
Proof.
  induction l1 as [|x l1 IH]; cbn [app]; intros Hs.
  - split; [constructor|intros a b []].
  - apply StronglySorted_inv in Hs. destruct Hs as [Hs Hx].
    destruct (IH Hs) as [H1 H2]. split.
    + constructor; [assumption|]. apply Forall_app in Hx. tauto.
    + intros a b [<-|Ha] Hb; [|now apply H2].
      rewrite Forall_forall in Hx. apply Hx, in_or_app. now right.
Qed.

Lemma NoDup_app_l {A} (l1 l2 : list A) : NoDup (l1 ++ l2) -> NoDup l1.
Proof.
  induction l1 as [|x l1 IH]; cbn [app]; intros H; [constructor|].
  apply NoDup_cons_iff in H. destruct H as [Hx H].
  constructor; [|now apply IH]. intros Hin. apply Hx, in_or_app. now left.
Qed.

End ListFacts.

Section FallbackClaim.
Context {ucd : UnicodeData}.

Lemma Counter_sorted_pairs pool :
  StronglySorted (fun a b => earlier pool (fst a) (fst b)) (Counter pool).
Proof.
  pose proof (Counter_keys_sorted pool) as H. unfold keys in H.
  remember (Counter pool) as c eqn:E. clear E.
  induction c as [|x c IH]; [constructor|]. cbn [map] in H.
  apply StronglySorted_inv in H. destruct H as [Hs Hx].
  constructor; [now apply IH|].
  rewrite Forall_forall in *. intros y Hy. apply Hx. now apply in_map.
Qed.

(** The ranking of the pooled tokens. *)
Lemma fallback_ranking (text : str) (max_keywords : Z) :
  let pool := pooled_tokens (_clean_text text) in
  let result := _fallback_keyword_extraction text max_keywords in
  NoDup result /\
  (forall w, In w result -> In w pool) /\
  length result = Nat.min (Z.to_nat max_keywords) (length (nodup str_eq_dec pool)) /\
  StronglySorted (ranks_before pool) result /\
  (forall w v, In w result -> In v pool -> ~ In v result -> ranks_before pool w v).
Proof.
  intros pool result.
  assert (Hres : result = map fst (firstn (Z.to_nat max_keywords)
                                      (sort_by_count (Counter pool)))) by reflexivity.
  set (c := Counter pool) in *. set (k := Z.to_nat max_keywords) in *.
  pose proof (sort_by_count_perm c) as Hperm.
  pose proof (sort_by_count_sorted (earlier pool) c (Counter_sorted_pairs pool)) as Hsorted.
  rewrite <- (firstn_skipn k (sort_by_count c)) in Hsorted, Hperm.
  set (top := firstn k (sort_by_count c)) in *.
  set (others := skipn k (sort_by_count c)) in *.
  assert (Hkeys : Permutation (map fst top ++ map fst others) (keys c)).
  { unfold keys. rewrite <- map_app. now apply Permutation_map. }
  assert (Hnd : NoDup (map fst top ++ map fst others)).
  { apply (Permutation_NoDup (Permutation_sym Hkeys)), Counter_keys_NoDup. }
  assert (Hcount : forall x n, In (x, n) (top ++ others) -> n = frequency pool x).
  { intros x n Hin. apply (Counter_counts pool).
    now apply (Permutation_in _ Hperm). }
  assert (Hrank : forall a b, In a (top ++ others) -> In b (top ++ others) ->
                    before_pair (earlier pool) a b -> ranks_before pool (fst a) (fst b)).
  { intros [a na] [b nb] Ha Hb Hab. apply Hcount in Ha, Hb. subst na nb.
    exact Hab. }
  apply StronglySorted_app_inv in Hsorted as Hsplit. destruct Hsplit as [Htop Hcross].
  rewrite Hres. fold top. repeat split.
  - now apply NoDup_app_l in Hnd.
  - intros w Hw. apply (Counter_keys_in pool). fold c.
    apply (Permutation_in _ Hkeys), in_or_app. now left.
  - rewrite length_map. unfold top. rewrite length_firstn. f_equal.
    rewrite <- (length_map fst (sort_by_count c)).
    apply Permutation_length.
    transitivity (keys c).
    + unfold keys. apply Permutation_map, sort_by_count_perm.
    + apply NoDup_Permutation; [apply Counter_keys_NoDup|apply NoDup_nodup|].
      intros x. unfold c. rewrite Counter_keys_in, nodup_In. reflexivity.
  - apply (StronglySorted_map (before_pair (earlier pool))); [|assumption].
    intros a b Ha Hb. apply Hrank; apply in_or_app; now left.
  - intros w v Hw Hv Hnv.
    apply in_map_iff in Hw. destruct Hw as ([w' m] & <- & Hw).
    apply (Counter_keys_in pool) in Hv. fold c in Hv.
    apply (Permutation_in _ (Permutation_sym Hkeys)), in_app_or in Hv.
    destruct Hv as [Hv|Hv]; [contradiction|].
    apply in_map_iff in Hv. destruct Hv as ([v' n] & <- & Hv).
    apply (Hrank (w', m) (v', n)); [apply in_or_app; now left|apply in_or_app; now right|].
    now apply Hcross.
Qed.

End FallbackClaim.

Section ExtractorClaims.
Context {ucd : UnicodeData}.
Variable self_api_key : pyval.
Variable self_model : str.
Variable post : str -> http_outcome.
Variable json_loads : str -> option pyval.
Variable cost_usd : pyval -> pyval -> res pyval.

Local Abbreviation call := (_call_openrouter_api self_api_key post json_loads cost_usd).
Local Abbreviation extract := (extract_keywords self_api_key self_model post json_loads cost_usd).
Local Abbreviation call_outcome := (call_outcome self_api_key post json_loads cost_usd).
Local Abbreviation extract_outcome :=
  (extract_outcome self_api_key self_model post json_loads cost_usd).
Local Abbreviation remote_failure := (remote_failure json_loads cost_usd).

Ltac run_monad := cbv [bind ret lift try_except get put raise].

Lemma drop_while_length p s : length (drop_while p s) <= length s.
Proof.
  induction s as [|c t IH]; [simpl; lia|]. cbn [drop_while].
  destruct (p c); cbn [length]; lia.
Qed.

Lemma strip_length s : length (strip s) <= length s.
Proof.
  unfold strip, rstrip, lstrip. rewrite length_rev.
  etransitivity; [apply drop_while_length|]. rewrite length_rev.
  apply drop_while_length.
Qed.

Lemma slice_to_length {A} (l : list A) n :
  (0 <= n)%Z -> length (slice_to l n) <= Z.to_nat n.
Proof.
  intros Hn. unfold slice_to. destruct (Z.ltb_spec n 0); [lia|].
  rewrite length_firstn. lia.
Qed.

Lemma fallback_length text n :
  length (_fallback_keyword_extraction text n) <= Z.to_nat n.
Proof.
  unfold _fallback_keyword_extraction, most_common.
  rewrite length_map, length_firstn. lia.
Qed.

Lemma call_cases text max_keywords tr :
  call_outcome text max_keywords tr (call text max_keywords tr).
Proof.
  unfold _call_openrouter_api.
  destruct (truthy self_api_key) eqn:Hkey; cbn [negb].
  2:{ now apply call_no_key. }
  unfold bind at 1, lift at 1.
  destruct (api_key_excerpt self_api_key) as [[]|e] eqn:Hex.
  2:{ now apply call_raises. }
  unfold try_except, bind at 1, log_call. cbn [fst snd].
  destruct (post (prompt_for text max_keywords)) as [e|status body] eqn:Hpost.
  { now apply call_nothing. }
  destruct (Z.eqb_spec status 200) as [->|Hst]; cbn [negb].
  2:{ now apply call_nothing. }
  destruct (json_loads body) as [data|] eqn:Hload.
  2:{ now apply call_nothing. }
  unfold bind, on_token_info, lift. cbn [fst snd].
  destruct (update_usage cost_usd data initial_token_info) as [[[]|e] info] eqn:Husage.
  2:{ now apply call_nothing. }
  unfold read_keywords.
  destruct (read_content data) as [[content|]|e] eqn:Hcontent; cbn [res_bind].
  2,3: now apply call_nothing.
  unfold keywords_of_content.
  destruct (truthy content) eqn:Htruthy; cbn [res_bind].
  2:{ now apply call_nothing. }
  destruct content as [| | | |c| |]; cbn [py_strip res_bind]; try now apply call_nothing.
  destruct (strip c) as [|x l] eqn:Hstrip; cbn [nonempty].
  { now apply call_nothing. }
  eapply call_keywords; eauto. rewrite Hstrip. discriminate.
Qed.

Lemma extract_cases text max_keywords tr :
  extract_outcome text max_keywords tr (extract text max_keywords tr).
Proof.
  unfold extract_keywords, try_except.
  destruct (Nat.ltb_spec (length (strip (_clean_text text))) 10) as [Hlen|Hlen].
  { now apply path_empty_text. }
  destruct (truthy self_api_key) eqn:Hkey.
  2:{ unfold fallback. run_monad. now apply path_fallback_no_key. }
  unfold bind at 1.
  destruct (call_cases (_clean_text text) max_keywords tr)
    as [Hk|e Hk Hex|info Hk Hex|body data c info Hk Hex Hpost Hload Husage Hcontent Hstrip].
  - congruence.
  - unfold fallback. run_monad. now eapply path_fallback_error; eauto.
  - cbn [fst snd]. unfold fallback. run_monad. rewrite <- app_assoc.
    now apply path_fallback_after_call.
  - cbn [fst snd].
    destruct (slice_to (_parse_keywords c) max_keywords) as [|k ks] eqn:Hkw.
    + unfold fallback. run_monad. rewrite <- app_assoc.
      now apply path_fallback_after_call.
    + run_monad. rewrite <- Hkw.
      eapply path_remote; eauto. rewrite Hkw. discriminate.
Qed.


Lemma truthy_PStr c : truthy (PStr c) = false -> strip c = [].
Proof. destruct c; [reflexivity|discriminate]. Qed.

(** C3: a text whose normalized form has fewer than 10 characters gives the
    empty keyword list with method ["empty_text"], and neither the remote
    endpoint nor the fallback extractor is called: the trace of calls is
    left as it was. *)
Theorem empty_text_short_circuit (text : str) (max_keywords : Z) (tr : trace) :
  length (_clean_text text) < 10 ->
  extract text max_keywords tr =
  (Ok {| keywords := []; method := u "empty_text"; model := self_model;
         token_info := [] |}, tr).
Proof.
  intros Hlen. unfold extract_keywords, try_except.
  pose proof (strip_length (_clean_text text)) as Hs.
  destruct (Nat.ltb_spec (length (strip (_clean_text text))) 10); [reflexivity|lia].
Qed.

(** C1, amended: for every text and every non-negative [max_keywords] the
    call returns a result, and its keyword list has at most [max_keywords]
    elements, on every path. *)
Theorem extraction_bound (text : str) (max_keywords : Z) (tr : trace) :
  (0 <= max_keywords)%Z ->
  exists r tr', extract text max_keywords tr = (Ok r, tr') /\
                (Z.of_nat (length (keywords r)) <= max_keywords)%Z.
Proof.
  intros Hmax.
  destruct (extract_cases text max_keywords tr); eexists; eexists;
    (split; [reflexivity|]); cbn [keywords length].
  - lia.
  - pose proof (slice_to_length (_parse_keywords c) max_keywords Hmax). lia.
  - pose proof (fallback_length (_clean_text text) max_keywords). lia.
  - pose proof (fallback_length (_clean_text text) max_keywords). lia.
  - pose proof (fallback_length text max_keywords). lia.
Qed.

(** C2: the call never raises: it returns a result whose method is one of
    the four; and when the credential is set and the text long enough for
    the remote attempt, every failure of that attempt (an exception before
    or during the request, a status other than 200, a body that does not
    parse, no or an empty completion, no parsed keyword) gives method
    ["fallback"] or ["fallback_error"]. *)
Theorem extract_keywords_degrades (text : str) (max_keywords : Z) (tr : trace) :
  (exists r tr', extract text max_keywords tr = (Ok r, tr') /\ In (method r) methods) /\
  (forall r tr',
      extract text max_keywords tr = (Ok r, tr') ->
      10 <= length (strip (_clean_text text)) ->
      truthy self_api_key = true ->
      (exists e, api_key_excerpt self_api_key = Raise e) \/
      remote_failure max_keywords (post (prompt_for (_clean_text text) max_keywords)) ->
      method r = u "fallback" \/ method r = u "fallback_error").
Proof.
  split.
  - destruct (extract_cases text max_keywords tr); eexists; eexists;
      (split; [reflexivity|]); cbn [method methods In]; tauto.
  - intros r tr' Hr Hlen Hkey Hfail.
    destruct (extract_cases text max_keywords tr)
      as [Hl|body data c info Hl Hk Hex Hpost Hload Husage Hcontent Hstrip Hkw|Hl Hk|Hl Hk|e Hl Hk Hex];
      injection Hr as <- <-; cbn [method]; try tauto.
    + lia.
    + exfalso. destruct Hfail as [[e He]|Hfail]; [congruence|].
      rewrite Hpost in Hfail.
      inversion Hfail
        as [ | | e0 | st b Hst | b Hb | b d e0 Hb Hrd | b d Hb Hrd
           | b d content Hb Hrd Hc | b d content Hb Hrd Hc | b d c0 Hb Hrd Hc ]; subst.
      * congruence.
      * congruence.
      * assert (d = data) by congruence. subst d.
        destruct Hrd as [Hrd|Hrd]; [rewrite Husage in Hrd; discriminate|congruence].
      * congruence.
      * assert (content = PStr c) by congruence. subst content.
        destruct Hc as [Ht|(c' & [= <-] & Hc')]; [apply truthy_PStr in Ht|]; congruence.
      * assert (content = PStr c) by congruence. subst content. now apply (Hc c).
      * assert (c0 = c) by congruence. subst c0. congruence.
Qed.

End ExtractorClaims.

Section NormalizedEncodable.
Context {ucd : UnicodeData}.

Lemma run_head_cap p cap c t :
  run p cap (c :: t) = 0 -> cap <> Some 0 -> p c = false.
Proof.
  cbn [run]. destruct (p c); [|reflexivity].
  destruct cap as [[|k]|]; congruence.
Qed.

(** A one-class pattern keeps exactly the characters outside the class. *)
Lemma keeps_class p prev c t :
  keeps [[cl p]] prev (c :: t) -> p c = false.
Proof.
  unfold keeps, cl. cbn [match_here]. rewrite match_seq_rep1.
  destruct (Nat.leb_spec 1 (run p (Some 1) (c :: t))) as [H|H].
  - unfold matched. cbn [fst concat]. rewrite app_nil_r. intros E.
    apply firstn_nil_inv in E. destruct E; [lia|discriminate].
  - intros _. apply (run_head_cap p (Some 1) c t); [lia|discriminate].
Qed.

Lemma kept_not_surrogate c : kept c = true -> surrogate c = false.
Proof.
  destruct (surrogate c) eqn:Hs; [|reflexivity]. intros Hk. exfalso.
  pose proof (uni_alnum_surrogate c Hs) as Hw.
  unfold surrogate, rng in Hs. apply andb_prop in Hs. destruct Hs as [H1 H2].
  apply N.leb_le in H1, H2.
  unfold kept, any_of in Hk. cbn [existsb] in Hk.
  assert (Hword : is_word c = false).
  { unfold is_word. destruct (N.ltb_spec c 128%N); [lia|exact Hw]. }
  rewrite Hword in Hk. cbn [orb] in Hk.
  unfold is_space, hangul, chars, any_of, rng, one in Hk. cbn [existsb u] in Hk.
  repeat match type of Hk with
         | context [(?a <=? ?b)%N] => destruct (N.leb_spec a b); try lia
         | context [(?a =? ?b)%N] => destruct (N.eqb_spec a b); try lia
         end; cbn in Hk; try discriminate.
  repeat match type of Hk with
         | context [(?a =? ?b)%N] => destruct (N.eqb_spec a b); try lia
         end; cbn in Hk; discriminate.
Qed.

(** From the seventh step on, every character is one the normalizer keeps
    or a space it put in. *)
Lemma clean_text_Forall (P : char -> Prop) text :
  P SP -> (forall c, kept c = true -> P c) -> Forall P (_clean_text text).
Proof.
  intros Hsp Hkept.
  unfold _clean_text. destruct (nonempty text); [|constructor].
  apply strip_Forall.
  do 3 (apply re_sub_Forall; [repeat (constructor; try assumption)|]).
  apply sub_from_Forall_kept; [repeat (constructor; try assumption)|].
  intros prev c t H. apply keeps_class in H.
  apply Hkept. unfold none_of, any_of in H. cbn [existsb] in H.
  rewrite orb_false_r in H. now apply negb_false_iff in H.
Qed.

Lemma clean_text_no_surrogate text :
  Forall (fun c => surrogate c = false) (_clean_text text).
Proof. apply clean_text_Forall; [reflexivity|apply kept_not_surrogate]. Qed.

Lemma clean_text_encodable text : MailDb.encodable (_clean_text text) = true.
Proof.
  unfold MailDb.encodable. apply forallb_forall. intros c Hc.
  pose proof (clean_text_no_surrogate text) as H. rewrite Forall_forall in H.
  apply negb_true_iff. exact (H c Hc).
Qed.

End NormalizedEncodable.

Section DatabaseClaims.
Context {ucd : UnicodeData}.
Variable sha256_hexdigest : str -> str.
Variable json_loads : str -> res pyval.
Variable json_dumps : list str -> str.

Import MailDb.

Local Abbreviation check_duplicate :=
  (check_duplicate_by_content_hash sha256_hexdigest json_loads).
Local Abbreviation save := (save_mail_with_hash sha256_hexdigest json_dumps).
Local Abbreviation decodes_to := (decodes_to json_loads).
Local Abbreviation escapes := (escapes json_loads).

Lemma find_first {A} (f : A -> bool) l x :
  find f l = Some x ->
  exists before after, l = before ++ x :: after /\ f x = true /\
                       forall y, In y before -> f y = false.
Proof.
  induction l as [|a l IH]; [discriminate|]. cbn [find].
  destruct (f a) eqn:E.
  - intros [= ->]. exists [], l. repeat split; [assumption|intros y []].
  - intros H. destruct (IH H) as (before & after & -> & Hx & Hb).
    exists (a :: before), after. repeat split; [assumption|].
    intros y [<-|Hy]; [assumption|now apply Hb].
Qed.

Lemma where_clause_spec hash mail_id r :
  (match content_hash r with Some h => str_eqb h hash | None => false end
   || str_eqb (message_id r) mail_id) = true <-> row_matches hash mail_id r.
Proof.
  unfold row_matches. rewrite orb_true_iff, (str_eqb_eq (message_id r)).
  destruct (content_hash r) as [h|].
  - rewrite str_eqb_eq. split; intros [H|H]; auto; [left; congruence|left; congruence].
  - split; intros [H|H]; auto; discriminate.
Qed.

Lemma caught_dec e :
  (existsb (fun x => if exc_eq_dec x e then true else false)
     [JSONDecodeError; TypeError] = true /\ caught e) \/
  (existsb (fun x => if exc_eq_dec x e then true else false)
     [JSONDecodeError; TypeError] = false /\ ~ caught e).
Proof.
  unfold caught. destruct e; cbn; first [left; split; [reflexivity|tauto]
                                        |right; split; [reflexivity|intros [H|H]; discriminate]].
Qed.

(** The duplicate check, outcome by outcome: no matching row; a first
    matching row whose payload reads; a first matching row whose payload
    makes the decoder raise past the handler. *)
Lemma check_duplicate_encodable mail_id content db :
  encodable content = true ->
  (exists dup kws,
     check_duplicate mail_id content db = (Ok (dup, kws), db) /\
     ((dup = false /\ kws = PList [] /\
       forall r, In r (mail_history db) ->
                 ~ row_matches (sha256_hexdigest content) mail_id r) \/
      (dup = true /\
       exists before row after,
         mail_history db = before ++ row :: after /\
         (forall r, In r before -> ~ row_matches (sha256_hexdigest content) mail_id r) /\
         row_matches (sha256_hexdigest content) mail_id row /\
         decodes_to (keywords row) kws))) \/
  (exists e before row after,
     check_duplicate mail_id content db = (Raise e, db) /\
     mail_history db = before ++ row :: after /\
     (forall r, In r before -> ~ row_matches (sha256_hexdigest content) mail_id r) /\
     row_matches (sha256_hexdigest content) mail_id row /\
     escapes (keywords row) e).
Proof.
  intros Henc.
  unfold check_duplicate_by_content_hash, _generate_content_hash, fetch_one_keywords.
  rewrite Henc. cbv [bind lift ret try_except_of].
  set (hash := sha256_hexdigest content).
  destruct (find _ (mail_history db)) as [row|] eqn:Hfind.
  - apply find_first in Hfind. destruct Hfind as (before & after & Hl & Hrow & Hb).
    assert (Hbefore : forall r, In r before -> ~ row_matches hash mail_id r).
    { intros r Hr Hm. apply where_clause_spec in Hm. rewrite (Hb r Hr) in Hm. discriminate. }
    apply where_clause_spec in Hrow.
    assert (Hanswer : forall kws, decodes_to (keywords row) kws ->
              exists before0 row0 after0,
                mail_history db = before0 ++ row0 :: after0 /\
                (forall r, In r before0 -> ~ row_matches hash mail_id r) /\
                row_matches hash mail_id row0 /\ decodes_to (keywords row0) kws).
    { intros kws Hk. now exists before, row, after. }
    destruct (keywords row) as [[|c text]|] eqn:Hkw; cbn [nonempty].
    + left. eexists; eexists. split; [reflexivity|]. right. split; [reflexivity|].
      apply Hanswer, stored_empty.
    + destruct (json_loads (c :: text)) as [v|e] eqn:Hv.
      * left. eexists; eexists. split; [reflexivity|]. right. split; [reflexivity|].
        apply Hanswer. now apply stored_decoded.
      * destruct (caught_dec e) as [[-> Hc]|[-> Hc]].
        -- left. eexists; eexists. split; [reflexivity|]. right. split; [reflexivity|].
           apply Hanswer. now apply (stored_malformed _ _ e).
        -- right. exists e, before, row, after. split; [reflexivity|].
           repeat split; try assumption. rewrite Hkw.
           exists (c :: text). repeat split; [discriminate|assumption|assumption].
    + left. eexists; eexists. split; [reflexivity|]. right. split; [reflexivity|].
      apply Hanswer, stored_null.
  - left. eexists; eexists. split; [reflexivity|]. left. repeat split.
    intros r Hr Hm. apply where_clause_spec in Hm.
    rewrite (find_none _ _ Hfind r Hr) in Hm. discriminate.
Qed.

(** C4: the duplicate check does fail on malformed data. The handler around
    the decoding names [json.JSONDecodeError] and [TypeError] only; when the
    payload of the first matching row makes the decoder raise anything else
    (a [RecursionError] on a payload nested too deep, a [ValueError] on an
    integer literal beyond the digit limit), the check raises it instead of
    answering [(true, [])]. *)
Theorem check_duplicate_decode_error_escapes (mail_id raw : str) (db : database)
  (before : list mail_history_row) (row : mail_history_row)
  (after : list mail_history_row) (e : exc) :
  let content := _clean_text raw in
  let hash := sha256_hexdigest content in
  mail_history db = before ++ row :: after ->
  (forall r, In r before -> ~ row_matches hash mail_id r) ->
  row_matches hash mail_id row ->
  escapes (keywords row) e ->
  check_duplicate mail_id content db = (Raise e, db) /\
  forall kws, check_duplicate mail_id content db <> (Ok (true, kws), db).
Proof.
  intros content hash Hl Hbefore Hrow (text & Hkw & Hne & Hload & Hnc).
  assert (E : check_duplicate mail_id content db = (Raise e, db)).
  { unfold check_duplicate_by_content_hash, _generate_content_hash, fetch_one_keywords.
    unfold content at 1. rewrite clean_text_encodable. fold content.
    cbv [bind lift ret try_except_of]. fold hash.
    assert (Hfind : find (fun r => match content_hash r with
                                   | Some h => str_eqb h hash
                                   | None => false
                                   end || str_eqb (message_id r) mail_id)
                         (mail_history db) = Some row).
    { rewrite Hl. clear Hl. induction before as [|b before IH]; cbn [app find].
      - apply where_clause_spec in Hrow. now rewrite Hrow.
      - destruct (_ || _) eqn:Eb.
        + apply where_clause_spec in Eb. destruct (Hbefore b (or_introl eq_refl) Eb).
        + apply IH. intros r Hr. apply Hbefore. now right. }
    rewrite Hfind, Hkw. destruct text as [|c t]; [now destruct Hne|]. cbn [nonempty].
    rewrite Hload. destruct (caught_dec e) as [[_ Hc]|[-> _]]; [contradiction|reflexivity]. }
  split; [exact E|]. intros kws. rewrite E. discriminate.
Qed.

Lemma next_account_id_fresh l : forall a, In a l -> (id a < next_account_id l)%Z.
Proof.
  unfold next_account_id. induction l as [|b l IH]; [intros a []|].
  cbn [fold_right]. intros a [<-|Ha]; [lia|]. specialize (IH a Ha). lia.
Qed.

Lemma find_app_none {A} (f : A -> bool) l x :
  find f l = None -> f x = true -> find f (l ++ [x]) = Some x.
Proof.
  induction l as [|a l IH]; cbn [find app]; intros Hn Hx.
  - now rewrite Hx.
  - destruct (f a); [discriminate|]. now apply IH.
Qed.

Lemma str_eqb_refl s : str_eqb s s = true.
Proof. now apply str_eqb_eq. Qed.

Lemma get_actual_account_id_spec ref db :
  exists n db',
    _get_actual_account_id ref db = (Ok n, db') /\
    resolves db ref n (accounts db') /\
    mail_history db' = mail_history db /\
    has_content_hash_column db' = has_content_hash_column db.
Proof.
  destruct ref as [n|uid]; cbn [_get_actual_account_id].
  - exists n, db. repeat split. constructor.
  - unfold fetch_one_account, execute_insert_account. cbv [bind ret raise].
    destruct (find (fun a => str_eqb (user_id a) uid) (accounts db)) as [a|] eqn:Hfind.
    + exists (id a), db. repeat split.
      apply find_first in Hfind. destruct Hfind as (before & after & Hl & Ha & Hb).
      apply str_eqb_eq in Ha.
      eapply resolves_known; eauto.
      intros b Hin. apply str_eqb_neq. now apply Hb.
    + cbn [accounts].
      rewrite (find_app_none _ _ _ Hfind) by (cbn [user_id]; apply str_eqb_refl).
      eexists; eexists. split; [reflexivity|]. cbn [accounts mail_history has_content_hash_column id].
      repeat split.
      apply resolves_placeholder.
      * intros a Ha. apply str_eqb_neq. exact (find_none _ _ Hfind a Ha).
      * intros a Ha. pose proof (next_account_id_fresh _ a Ha). lia.
Qed.


End DatabaseClaims.

Section MatchSound.
Context {ucd : UnicodeData}.

Lemma run_le_cap p h s : run p (Some h) s <= h.
Proof.
  revert h. induction s as [|c t IH]; intros h; cbn [run]; [lia|].
  destruct (p c); [|lia]. destruct h as [|k]; [lia|]. specialize (IH k). lia.
Qed.

Lemma firstn_Forall_le {A} (P : A -> Prop) k n (s : list A) :
  k <= n -> Forall P (firstn n s) -> Forall P (firstn k s).
Proof.
  revert n s. induction k as [|k IH]; intros n s Hle H; [constructor|].
  destruct s as [|c t]; [constructor|]. destruct n as [|n]; [lia|].
  cbn [firstn] in *. apply Forall_cons_iff in H. destruct H as [Hc Ht].
  constructor; [assumption|]. apply (IH n); [lia|assumption].
Qed.

Lemma option_map_some {A B} (f : A -> B) o y :
  option_map f o = Some y -> exists x, o = Some x /\ y = f x.
Proof. destruct o as [x|]; [|discriminate]. intros [= <-]. now exists x. Qed.

(** A successful match splits the input into the pieces of the items and the
    rest, every piece of the shape its item asks for. *)
Lemma match_seq_sound items : forall prev s pieces rest,
  match_seq items prev s = Some (pieces, rest) ->
  Forall2 piece_ok items pieces /\ s = concat pieces ++ rest.
Proof.
  induction items as [|it items IH]; intros prev s pieces rest H.
  - cbn [match_seq] in H. injection H as <- <-. split; [constructor|reflexivity].
  - destruct it as [p lo hi| | |]; cbn [match_seq] in H.
    + apply first_down_some in H. destruct H as (k & Hk & H).
      apply option_map_some in H. destruct H as ([ps r] & H & E).
      unfold add_piece in E. cbn [fst snd] in E. injection E as -> ->.
      apply IH in H. destruct H as [HF Hs].
      pose proof (run_le_length p hi s) as Hlen.
      split.
      * constructor; [|assumption]. cbn [piece_ok]. split; [|split].
        -- apply (firstn_Forall_le _ k (run p hi s)); [lia|apply run_firstn_all].
        -- rewrite length_firstn. lia.
        -- intros h ->. rewrite length_firstn. pose proof (run_le_cap p h s). lia.
      * cbn [concat]. rewrite <- app_assoc, <- Hs. symmetry. apply firstn_skipn.
    + destruct prev; [discriminate|].
      apply option_map_some in H. destruct H as ([ps r] & H & E).
      unfold add_piece in E. cbn [fst snd] in E. injection E as -> ->.
      apply IH in H. destruct H as [HF Hs]. split; [constructor; [reflexivity|assumption]|exact Hs].
    + destruct (at_eol s); [|discriminate].
      apply option_map_some in H. destruct H as ([ps r] & H & E).
      unfold add_piece in E. cbn [fst snd] in E. injection E as -> ->.
      apply IH in H. destruct H as [HF Hs]. split; [constructor; [reflexivity|assumption]|exact Hs].
    + destruct (xorb _ _); [|discriminate].
      apply option_map_some in H. destruct H as ([ps r] & H & E).
      unfold add_piece in E. cbn [fst snd] in E. injection E as -> ->.
      apply IH in H. destruct H as [HF Hs]. split; [constructor; [reflexivity|assumption]|exact Hs].
Qed.

Lemma match_here_sound r : forall prev s m,
  match_here r prev s = Some m ->
  exists alt, In alt r /\ Forall2 piece_ok alt (fst m) /\ s = matched m ++ snd m.
Proof.
  induction r as [|a r IH]; intros prev s m H; [discriminate|].
  cbn [match_here] in H. destruct (match_seq a prev s) as [m'|] eqn:E.
  - injection H as ->. destruct m as [pieces rest].
    apply match_seq_sound in E. destruct E as [HF Hs].
    exists a. split; [now left|]. split; assumption.
  - destruct (IH _ _ _ H) as (alt & Hin & HF & Hs). exists alt. split; [now right|].
    split; assumption.
Qed.

Lemma needs_char p alt pieces :
  needs p alt -> Forall2 piece_ok alt pieces ->
  exists c, In c (concat pieces) /\ p c = true.
Proof.
  intros (lo & hi & Hin & Hlo) HF. induction HF as [|it w alt pieces Hw HF IH].
  - destruct Hin.
  - destruct Hin as [->|Hin].
    + cbn [piece_ok] in Hw. destruct Hw as (Hall & Hlen & _).
      destruct w as [|c w']; [cbn in Hlen; lia|].
      exists c. split; [cbn [concat]; now left|]. now apply Forall_inv in Hall.
    + destruct (IH Hin) as (c & Hc & Hp). exists c. split; [|assumption].
      cbn [concat]. apply in_or_app. now right.
Qed.

(** A pattern whose every alternative needs a character of a class that the
    text does not have matches nowhere in it. *)
Lemma match_here_needs r prev s :
  (forall alt, In alt r -> exists p, needs p alt /\ Forall (fun c => p c = false) s) ->
  match_here r prev s = None.
Proof.
  intros H. destruct (match_here r prev s) as [m|] eqn:E; [|reflexivity]. exfalso.
  apply match_here_sound in E. destruct E as (alt & Hin & HF & Hs).
  destruct (H alt Hin) as (p & Hneeds & Hall).
  destruct (needs_char p alt (fst m) Hneeds HF) as (c & Hc & Hp).
  rewrite Forall_forall in Hall. rewrite (Hall c) in Hp; [discriminate|].
  rewrite Hs. apply in_or_app. now left.
Qed.

(** Where the pattern matches at no position, substitution changes nothing. *)
Lemma sub_from_no_match r repl s :
  (forall l1 l2 prev, s = l1 ++ l2 -> match_here r prev l2 = None) ->
  forall prev, sub_from r repl prev s 0 = s.
Proof.
  induction s as [|c t IH]; intros H prev.
  - cbn [sub_from]. now rewrite (H [] [] prev eq_refl).
  - cbn [sub_from]. rewrite (H [] (c :: t) prev eq_refl). f_equal.
    apply IH. intros l1 l2 prev' E. apply (H (c :: l1) l2 prev'). now rewrite E.
Qed.

Lemma re_sub_needs r repl s :
  (forall alt, In alt r -> exists p, needs p alt /\ Forall (fun c => p c = false) s) ->
  re_sub r repl s = s.
Proof.
  intros H. apply sub_from_no_match. intros l1 l2 prev E.
  apply match_here_needs. intros alt Hin. destruct (H alt Hin) as (p & Hn & Hall).
  exists p. split; [assumption|]. rewrite E in Hall. apply Forall_app in Hall. tauto.
Qed.

Lemma replace_from_absent old new s :
  match old with c :: _ => ~ In c s | [] => False end ->
  replace old new s = s.
Proof.
  unfold replace. destruct old as [|a old]; [intros []|].
  induction s as [|c t IH]; intros H; [reflexivity|].
  cbn [replace_from prefixb].
  destruct (N.eqb_spec a c) as [->|Hne].
  - exfalso. apply H. now left.
  - cbn [andb]. f_equal. apply IH. intros Hin. apply H. now right.
Qed.

End MatchSound.

Section SingleLetter.
Context {ucd : UnicodeData}.

Lemma run_cap0 p s : run p (Some 0) s = 0.
Proof. destruct s as [|c t]; cbn [run]; [reflexivity|]. now destruct (p c). Qed.

Lemma ascii_letter_word c : ascii_letter c = true -> is_word c = true.
Proof.
  unfold ascii_letter, any_of, ascii_lower, ascii_upper, rng. cbn [existsb].
  rewrite orb_false_r. intros H.
  unfold is_word, ascii_alnum, any_of, ascii_digit, ascii_upper, ascii_lower, rng, one.
  cbn [existsb].
  apply orb_prop in H.
  destruct H as [H|H]; apply andb_prop in H; destruct H as [H1 H2];
    apply N.leb_le in H1, H2;
    (destruct (N.ltb_spec c 128); [|lia]);
    repeat match goal with
           | |- context [(?a <=? ?b)%N] => destruct (N.leb_spec a b); try lia
           end; reflexivity.
Qed.

(** [\b[a-zA-Z]\b] at one position. *)
Lemma match_single_letter prev s :
  match_here re_single_letter prev s =
  match s with
  | [] => None
  | c :: t => if isolated prev c (hd_error t) then Some ([[]; [c]; []], t) else None
  end.
Proof.
  unfold re_single_letter, cl. cbn [match_here].
  destruct s as [|c t].
  - cbn [match_seq hd_error word_at run]. destruct (xorb _ _); reflexivity.
  - cbn [match_seq hd_error word_at run]. rewrite run_cap0. unfold isolated.
    destruct (ascii_letter c) eqn:Hl.
    + rewrite (ascii_letter_word c Hl).
      cbn [first_down Nat.ltb Nat.leb firstn skipn prev_after last word_at].
      rewrite (ascii_letter_word c Hl).
      destruct (word_at prev); cbn [xorb negb andb]; [reflexivity|].
      destruct (word_at (hd_error t)); reflexivity.
    + cbn [first_down Nat.ltb Nat.leb]. rewrite andb_false_r. cbn [andb].
      destruct (xorb _ _); reflexivity.
Qed.

Lemma sub_single_letter s : forall prev,
  sub_from re_single_letter [] prev s 0 = drop_isolated prev s.
Proof.
  induction s as [|c t IH]; intros prev.
  - cbn [sub_from]. now rewrite match_single_letter.
  - cbn [sub_from drop_isolated]. rewrite match_single_letter.
    destruct (isolated prev c (hd_error t)); cbn [matched fst concat app length];
      now rewrite IH.
Qed.

Lemma drop_isolated_free s : forall prev,
  iso_free prev s = true -> drop_isolated prev s = s.
Proof.
  induction s as [|c t IH]; intros prev H; [reflexivity|].
  cbn [iso_free drop_isolated] in *. apply andb_prop in H. destruct H as [H1 H2].
  apply negb_true_iff in H1. rewrite H1. f_equal. now apply IH.
Qed.

Lemma isolated_prev_ext p1 p2 c n :
  word_at p1 = word_at p2 -> isolated p1 c n = isolated p2 c n.
Proof. unfold isolated. now intros ->. Qed.

Lemma isolated_next_ext p c n1 n2 :
  word_at n1 = word_at n2 -> isolated p c n1 = isolated p c n2.
Proof. unfold isolated. now intros ->. Qed.

Lemma iso_free_prev_ext s p1 p2 :
  word_at p1 = word_at p2 -> iso_free p1 s = iso_free p2 s.
Proof.
  destruct s as [|c t]; [reflexivity|]. intros H. cbn [iso_free].
  now rewrite (isolated_prev_ext p1 p2 c _ H).
Qed.

Lemma isolated_word c p n : isolated p c n = true -> is_word c = true.
Proof.
  unfold isolated. intros H. apply andb_prop in H. destruct H as [H _].
  apply andb_prop in H. destruct H as [_ H]. now apply ascii_letter_word.
Qed.

(** Removing the isolated letters leaves none: a letter that stays had a
    word character next to it, and that neighbour stays too. *)
Lemma drop_isolated_iso_free s : forall prev prev',
  prev' = prev \/ (word_at prev' = false /\ word_at (hd_error s) = false) ->
  iso_free prev' (drop_isolated prev s) = true.
Proof.
  induction s as [|c t IH]; intros prev prev' Hinv; [reflexivity|].
  cbn [drop_isolated].
  destruct (isolated prev c (hd_error t)) eqn:Hiso.
  - (* [c] goes *)
    apply IH. right. unfold isolated in Hiso.
    apply andb_prop in Hiso. destruct Hiso as [Hiso Hn].
    apply andb_prop in Hiso. destruct Hiso as [Hp _].
    apply negb_true_iff in Hp, Hn. split; [|assumption].
    destruct Hinv as [->|[H _]]; assumption.
  - (* [c] stays *)
    cbn [iso_free]. rewrite (IH (Some c) (Some c)) by now left.
    rewrite andb_true_r. apply negb_true_iff.
    destruct (ascii_letter c) eqn:Hl.
    2:{ unfold isolated. rewrite Hl. now rewrite andb_false_r. }
    pose proof (ascii_letter_word c Hl) as Hw.
    destruct Hinv as [->|[_ Hc]]; [|cbn [hd_error word_at] in Hc; congruence].
    unfold isolated in *. rewrite Hl in *. rewrite andb_true_r in *.
    destruct (word_at prev) eqn:Hp; [reflexivity|]. cbn [negb andb] in *.
    apply negb_false_iff in Hiso.
    (* the next character is a word character, so it is not removed *)
    destruct t as [|d t']; [discriminate|]. cbn [hd_error word_at] in Hiso.
    cbn [drop_isolated]. unfold isolated at 1. cbn [word_at]. rewrite Hw.
    cbn [negb andb hd_error word_at]. now rewrite Hiso.
Qed.

End SingleLetter.

Section StripFacts.
Context {ucd : UnicodeData}.

Lemma word_at_SP : word_at (Some SP) = false.
Proof. reflexivity. Qed.

Lemma iso_free_lstrip s : forall prev,
  word_at prev = false -> Forall only_plain_space s ->
  iso_free prev s = true -> iso_free None (drop_while is_space s) = true.
Proof.
  induction s as [|c t IH]; intros prev Hp Hs H; [reflexivity|].
  cbn [drop_while]. destruct (is_space c) eqn:Hc.
  - apply Forall_cons_iff in Hs. destruct Hs as [Hsp Hs].
    rewrite (Hsp Hc) in *. cbn [iso_free] in H. apply andb_prop in H.
    apply (IH (Some SP)); [reflexivity|assumption|tauto].
  - rewrite <- H. apply iso_free_prev_ext. now rewrite Hp.
Qed.

Lemma rstrip_head s :
  Forall only_plain_space s ->
  word_at (hd_error (rev (drop_while is_space (rev s)))) = word_at (hd_error s).
Proof.
  destruct s as [|d t]; [reflexivity|]. intros Hs. rewrite rstrip_cons.
  destruct (forallb is_space (d :: t)) eqn:Hall; [|reflexivity].
  cbn [forallb] in Hall. apply andb_prop in Hall. destruct Hall as [Hd _].
  apply Forall_inv in Hs. now rewrite (Hs Hd).
Qed.

Lemma iso_free_rstrip s : forall prev,
  Forall only_plain_space s -> iso_free prev s = true ->
  iso_free prev (rev (drop_while is_space (rev s))) = true.
Proof.
  induction s as [|c t IH]; intros prev Hs H; [reflexivity|].
  rewrite rstrip_cons. destruct (forallb is_space (c :: t)); [reflexivity|].
  apply Forall_cons_iff in Hs. destruct Hs as [_ Hs].
  cbn [iso_free] in *. apply andb_prop in H. destruct H as [H1 H2].
  rewrite (IH (Some c) Hs H2), andb_true_r.
  now rewrite (isolated_next_ext prev c _ _ (rstrip_head t Hs)).
Qed.

Lemma iso_free_strip s :
  Forall only_plain_space s -> iso_free None s = true -> iso_free None (strip s) = true.
Proof.
  intros Hs H. unfold strip, rstrip, lstrip. apply iso_free_rstrip.
  - now apply drop_while_Forall.
  - now apply (iso_free_lstrip s None).
Qed.

(** [\s+] replaces a lone space by itself. *)
Lemma sub_spaces_id s :
  Forall only_plain_space s -> substring [SP; SP] s = false ->
  forall prev, sub_from re_spaces [SP] prev s 0 = s.
Proof.
  induction s as [|c t IH]; intros Hs Hsub prev.
  - reflexivity.
  - apply Forall_cons_iff in Hs. destruct Hs as [Hc Hs].
    cbn [substring] in Hsub. apply orb_false_iff in Hsub. destruct Hsub as [Hpre Hsub].
    cbn [sub_from re_spaces match_here]. unfold plus. rewrite match_seq_rep1.
    destruct (is_space c) eqn:Hsp.
    + rewrite (Hc Hsp) in *.
      assert (Hrun : run is_space None (SP :: t) = 1).
      { cbn [run]. change (is_space SP) with true. cbn iota. f_equal.
        destruct t as [|d t']; [reflexivity|]. cbn [run].
        destruct (is_space d) eqn:Hd; [|reflexivity].
        apply Forall_inv in Hs. rewrite (Hs Hd) in Hpre. discriminate. }
      rewrite Hrun. cbn [Nat.leb firstn skipn matched fst concat app length].
      now rewrite IH.
    + assert (Hrun : run is_space None (c :: t) = 0) by (cbn [run]; now rewrite Hsp).
      rewrite Hrun. cbn [Nat.leb]. now rewrite IH.
Qed.

End StripFacts.

Section Window.
Variable W : str -> bool.
Hypothesis W_app : forall s l, W s = true -> W (s ++ l) = true.

Lemma none_at_app_r l s : none_at W (l ++ s) = true -> none_at W s = true.
Proof.
  induction l as [|c l IH]; [trivial|]. cbn [app none_at]. intros H.
  apply andb_prop in H. tauto.
Qed.

Lemma none_at_app_l s l : none_at W (s ++ l) = true -> none_at W s = true.
Proof.
  induction s as [|c s IH]; [reflexivity|]. intros H.
  change ((c :: s) ++ l) with (c :: (s ++ l)) in H.
  cbn [none_at] in *. apply andb_prop in H. destruct H as [H1 H2].
  rewrite (IH H2), andb_true_r. apply negb_true_iff in H1. apply negb_true_iff.
  destruct (W (c :: s)) eqn:E; [|reflexivity].
  apply (W_app _ l) in E. cbn [app] in E. congruence.
Qed.

Lemma none_at_suffix p s : none_at W s = true -> none_at W (drop_while p s) = true.
Proof.
  rewrite drop_while_skipn_run. intros H.
  rewrite <- (firstn_skipn (run p None s) s) in H. now apply none_at_app_r in H.
Qed.

Lemma none_at_strip s : none_at W s = true -> none_at W (strip s) = true.
Proof.
  intros H. unfold strip, rstrip, lstrip.
  apply (none_at_suffix is_space) in H.
  set (a := drop_while is_space s) in *.
  rewrite drop_while_skipn_run.
  rewrite <- (rev_involutive a) in H.
  rewrite <- (firstn_skipn (run is_space None (rev a)) (rev a)) in H at 1.
  rewrite rev_app_distr in H. now apply none_at_app_l in H.
Qed.

Lemma none_at_here l1 c t : none_at W (l1 ++ c :: t) = true -> W (c :: t) = false.
Proof.
  intros H. apply none_at_app_r in H.
  cbn [none_at] in H. apply andb_prop in H. destruct H as [H _].
  now apply negb_true_iff in H.
Qed.

End Window.

Section Spaced.
Context {ucd : UnicodeData}.

Lemma spaced_all l : spaced l [SP].
Proof. rewrite <- (app_nil_r l). apply spaced_repl, spaced_nil. Qed.

(** [re.sub(r, " ", s)] replaces stretches of [s] by one space each. *)
Lemma sub_from_spaced r : forall n s prev,
  length s <= n -> spaced s (sub_from r [SP] prev s 0).
Proof.
  induction n as [|n IH]; intros s prev Hn.
  - destruct s; [|cbn in Hn; lia]. cbn [sub_from].
    destruct (match_here r prev []); [apply (spaced_repl [] [] []), spaced_nil|apply spaced_nil].
  - destruct s as [|c t].
    + cbn [sub_from].
      destruct (match_here r prev []); [apply (spaced_repl [] [] []), spaced_nil|apply spaced_nil].
    + cbn [length] in Hn. cbn [sub_from].
      destruct (match_here r prev (c :: t)) as [m|].
      * cbn [app]. destruct (length (matched m)) as [|k].
        -- apply (spaced_repl [] (c :: t)). apply spaced_copy. apply IH. lia.
        -- destruct (Nat.le_gt_cases k (length t)) as [Hk|Hk].
           ++ rewrite sub_from_skip by assumption.
              rewrite <- (firstn_skipn k t) at 1.
              apply (spaced_repl (c :: firstn k t)). apply IH.
              rewrite length_skipn. lia.
           ++ rewrite sub_from_past_end by assumption. apply spaced_all.
      * apply spaced_copy. apply IH. lia.
Qed.

Lemma re_sub_spaced r s : spaced s (re_sub r [SP] s).
Proof. apply (sub_from_spaced r (length s)). lia. Qed.

Lemma replace_tab_spaced s : spaced s (replace [TAB] [SP] s).
Proof.
  unfold replace. induction s as [|c t IH]; [apply spaced_nil|].
  cbn [replace_from prefixb length pred]. destruct (TAB =? c)%N; cbn [andb app].
  - apply (spaced_repl [c]). exact IH.
  - apply spaced_copy. exact IH.
Qed.

(** A stretch of the result without a space stood in the original. *)
Lemma spaced_prefix s s' :
  spaced s s' -> forall p q, s' = p ++ q -> Forall (fun c => c <> SP) p ->
  exists q', s = p ++ q'.
Proof.
  induction 1 as [|c s s' H IH|l s s' H IH]; intros p q E Hp.
  - destruct p; [|discriminate]. now exists [].
  - destruct p as [|d p]; [now exists (c :: s)|].
    injection E as <- E. apply Forall_inv_tail in Hp.
    destruct (IH p q E Hp) as [q' ->]. now exists q'.
  - destruct p as [|d p]; [now exists (l ++ s)|].
    injection E as <- E. apply Forall_inv in Hp. congruence.
Qed.

(** Windows that are decided by a non-empty stretch without a space. *)
Section SpaceFreeWindow.
Variable W : str -> bool.
Hypothesis W_prefix : forall s, W s = true ->
  exists p q, s = p ++ q /\ p <> [] /\ Forall (fun c => c <> SP) p /\
              forall q', W (p ++ q') = true.

Lemma window_app s l : W s = true -> W (s ++ l) = true.
Proof.
  intros H. destruct (W_prefix s H) as (p & q & -> & _ & _ & Hw).
  rewrite <- app_assoc. apply Hw.
Qed.

Lemma window_not_space s : W (SP :: s) = false.
Proof.
  destruct (W (SP :: s)) eqn:E; [|reflexivity].
  destruct (W_prefix _ E) as (p & q & Hs & Hne & Hp & _).
  destruct p as [|c p]; [congruence|]. injection Hs as <- _.
  apply Forall_inv in Hp. congruence.
Qed.

Lemma window_spaced s s' : spaced s s' -> W s' = true -> W s = true.
Proof.
  intros Hsp H. destruct (W_prefix s' H) as (p & q & E & _ & Hp & Hw).
  destruct (spaced_prefix s s' Hsp p q E Hp) as [q' ->]. apply Hw.
Qed.

Lemma none_at_spaced s s' : spaced s s' -> none_at W s = true -> none_at W s' = true.
Proof.
  induction 1 as [|c s s' H IH|l s s' H IH]; intros Hn.
  - reflexivity.
  - cbn [none_at] in *. apply andb_prop in Hn. destruct Hn as [H1 H2].
    rewrite (IH H2), andb_true_r. apply negb_true_iff in H1. apply negb_true_iff.
    destruct (W (c :: s')) eqn:E; [|reflexivity].
    apply (window_spaced (c :: s)) in E; [congruence|now apply spaced_copy].
  - apply none_at_app_r in Hn. cbn [none_at].
    now rewrite (IH Hn), andb_true_r, window_not_space.
Qed.

(** After [re.sub(r, " ", s)], for a pattern [r] that matches wherever the
    window opens, the window opens nowhere. *)
Lemma sub_none_at r :
  (forall prev c t, match_here r prev (c :: t) = None -> W (c :: t) = false) ->
  (forall prev s m, match_here r prev s = Some m -> matched m <> []) ->
  forall n s prev,
    length s <= n -> none_at W (sub_from r [SP] prev s 0) = true.
Proof.
  intros Hnone Hsome. induction n as [|n IH]; intros s prev Hn.
  - destruct s; [|cbn in Hn; lia]. cbn [sub_from].
    destruct (match_here r prev []); [|reflexivity].
    cbn [app none_at]. now rewrite window_not_space.
  - destruct s as [|c t].
    + cbn [sub_from]. destruct (match_here r prev []); [|reflexivity].
      cbn [app none_at]. now rewrite window_not_space.
    + cbn [length] in Hn. cbn [sub_from].
      destruct (match_here r prev (c :: t)) as [m|] eqn:E.
      * pose proof (Hsome _ _ _ E) as Hne.
        destruct (length (matched m)) as [|k] eqn:L.
        { apply length_zero_iff_nil in L. contradiction. }
        cbn [app none_at]. rewrite window_not_space. cbn [negb andb].
        destruct (Nat.le_gt_cases k (length t)) as [Hk|Hk].
        -- rewrite sub_from_skip by assumption. apply IH. rewrite length_skipn. lia.
        -- now rewrite sub_from_past_end.
      * cbn [none_at]. rewrite (IH t (Some c)) by lia. rewrite andb_true_r.
        apply negb_true_iff.
        destruct (W (c :: sub_from r [SP] (Some c) t 0)) eqn:E'; [|reflexivity].
        apply (window_spaced (c :: t)) in E'.
        -- rewrite (Hnone _ _ _ E) in E'. discriminate.
        -- apply spaced_copy. apply (sub_from_spaced r (length t)). lia.
Qed.

End SpaceFreeWindow.

End Spaced.

Section WwwFacts.
Context {ucd : UnicodeData}.

(** A literal character at the head of a pattern. *)
Lemma match_seq_lit a rest prev s :
  match_seq (lit a :: rest) prev s =
  match s with
  | c :: t => if (c =? a)%N then option_map (add_piece [c]) (match_seq rest (Some c) t)
              else None
  | [] => None
  end.
Proof.
  unfold lit. cbn [match_seq]. destruct s as [|c t]; [reflexivity|].
  cbn [run]. unfold one at 1. destruct (c =? a)%N; [|reflexivity].
  rewrite run_cap0. cbn [first_down Nat.ltb Nat.leb firstn skipn prev_after last].
  destruct (match_seq rest (Some c) t); reflexivity.
Qed.

Lemma match_seq_lit_some a rest prev s :
  match_seq (lit a :: rest) prev s <> None ->
  exists t, s = a :: t /\ match_seq rest (Some a) t <> None.
Proof.
  rewrite match_seq_lit. destruct s as [|c t]; [congruence|].
  destruct (N.eqb_spec c a) as [->|]; [|congruence].
  intros H. exists t. split; [reflexivity|].
  destruct (match_seq rest (Some a) t); [discriminate|exact H].
Qed.

Lemma match_seq_lit_hit a rest prev t :
  match_seq rest (Some a) t <> None ->
  match_seq (lit a :: rest) prev (a :: t) <> None.
Proof.
  rewrite match_seq_lit, N.eqb_refl.
  destruct (match_seq rest (Some a) t); [discriminate|congruence].
Qed.

Lemma match_www prev s :
  www_at s = true <-> match_here re_www prev s <> None.
Proof.
  unfold re_www. cbn [match_here].
  set (tail := [plus (none_of [is_space])]).
  assert (Htail : forall p e t,
             match_seq tail p (e :: t) <> None <-> is_space e = false).
  { intros p e t. unfold tail, plus. rewrite match_seq_rep1.
    unfold none_of, any_of. cbn [run existsb]. rewrite orb_false_r.
    destruct (is_space e); cbn [negb Nat.leb]; split; congruence. }
  assert (Hnil : forall p, match_seq tail p [] = None) by reflexivity.
  split.
  - intros H. destruct s as [|a [|b [|c [|d [|e t]]]]]; cbn [www_at] in H;
      try discriminate.
    apply andb_prop in H. destruct H as [H He].
    apply andb_prop in H. destruct H as [H Hd].
    apply andb_prop in H. destruct H as [H Hc].
    apply andb_prop in H. destruct H as [Ha Hb].
    apply N.eqb_eq in Ha, Hb, Hc, Hd. subst. apply negb_true_iff in He.
    destruct (match_seq _ prev _) eqn:E; [discriminate|]. exfalso. revert E.
    do 4 apply match_seq_lit_hit. now apply Htail.
  - intros H.
    assert (H' : match_seq (lit (ch "w") :: lit (ch "w") :: lit (ch "w")
                              :: lit (ch ".") :: tail) prev s <> None).
    { destruct (match_seq _ prev s); [discriminate|congruence]. }
    apply match_seq_lit_some in H'. destruct H' as (t1 & -> & H').
    apply match_seq_lit_some in H'. destruct H' as (t2 & -> & H').
    apply match_seq_lit_some in H'. destruct H' as (t3 & -> & H').
    apply match_seq_lit_some in H'. destruct H' as (t4 & -> & H').
    destruct t4 as [|e t]; [now rewrite Hnil in H'|].
    apply Htail in H'. cbn [www_at]. now rewrite H'.
Qed.

(** A match of an alternative that starts with a quantified class asking for
    at least one character is not empty. *)
Lemma match_nonempty (r : regex) prev s m :
  (forall alt, In alt r -> exists p lo hi rest, alt = Rep p lo hi :: rest /\ 1 <= lo) ->
  match_here r prev s = Some m -> matched m <> [].
Proof.
  intros Hr H. apply match_here_sound in H. destruct H as (alt & Hin & HF & _).
  destruct (Hr alt Hin) as (p & lo & hi & rest & -> & Hlo).
  destruct m as [pieces rest']. cbn [fst] in HF.
  inversion HF as [|it w l l' Hw HF']; subst.
  cbn [piece_ok] in Hw. destruct Hw as (_ & Hlen & _).
  unfold matched. cbn [fst concat]. destruct w; [cbn in Hlen; lia|discriminate].
Qed.

Lemma match_www_nonempty prev s m :
  match_here re_www prev s = Some m -> matched m <> [].
Proof.
  apply match_nonempty. intros alt [<-|[]]. unfold lit. repeat eexists. lia.
Qed.

Lemma www_at_prefix s :
  www_at s = true ->
  exists p q, s = p ++ q /\ p <> [] /\ Forall (fun c => c <> SP) p /\
              forall q', www_at (p ++ q') = true.
Proof.
  destruct s as [|a [|b [|c [|d [|e t]]]]]; cbn [www_at]; try discriminate.
  intros H. exists [a; b; c; d; e], t. split; [reflexivity|].
  split; [discriminate|].
  apply andb_prop in H. destruct H as [H He].
  apply andb_prop in H. destruct H as [H Hd].
  apply andb_prop in H. destruct H as [H Hc].
  apply andb_prop in H. destruct H as [Ha Hb].
  apply N.eqb_eq in Ha, Hb, Hc, Hd. subst.
  split.
  - repeat constructor; try discriminate.
    intros ->. discriminate.
  - intros q'. cbn [app www_at]. now rewrite He.
Qed.

Lemma sub_www_none s : none_at www_at (re_sub re_www [SP] s) = true.
Proof.
  apply (sub_none_at www_at www_at_prefix re_www) with (n := length s).
  - intros prev c t H. destruct (www_at (c :: t)) eqn:E; [|reflexivity].
    apply (match_www prev) in E. congruence.
  - apply match_www_nonempty.
  - apply Nat.le_refl.
Qed.

End WwwFacts.

Section NormalForm.
Context {ucd : UnicodeData}.

Lemma ascii_letter_not_space c : ascii_letter c = true -> is_space c = false.
Proof.
  unfold ascii_letter, any_of, ascii_lower, ascii_upper, rng. cbn [existsb].
  rewrite orb_false_r. intros H.
  unfold is_space, any_of, rng, one. cbn [existsb].
  apply orb_prop in H.
  destruct H as [H|H]; apply andb_prop in H; destruct H as [H1 H2];
    apply N.leb_le in H1, H2;
    repeat match goal with
           | |- context [(?a <=? ?b)%N] => destruct (N.leb_spec a b); try lia
           | |- context [(?a =? ?b)%N] => destruct (N.eqb_spec a b); try lia
           end; reflexivity.
Qed.

Lemma www_at_inv s :
  www_at s = true ->
  exists e t, s = ch "w" :: ch "w" :: ch "w" :: ch "." :: e :: t /\ is_space e = false.
Proof.
  destruct s as [|a [|b [|c [|d [|e t]]]]]; cbn [www_at]; try discriminate.
  intros H.
  apply andb_prop in H. destruct H as [H He].
  apply andb_prop in H. destruct H as [H Hd].
  apply andb_prop in H. destruct H as [H Hc].
  apply andb_prop in H. destruct H as [Ha Hb].
  apply N.eqb_eq in Ha, Hb, Hc, Hd. subst. apply negb_true_iff in He.
  now exists e, t.
Qed.

Lemma drop_isolated_after_word p d t :
  is_word p = true ->
  drop_isolated (Some p) (d :: t) = d :: drop_isolated (Some d) t.
Proof.
  intros H. cbn [drop_isolated]. unfold isolated. cbn [word_at]. now rewrite H.
Qed.

(** Removing isolated letters completes no [www.] match. *)
Lemma www_at_drop_isolated c t :
  www_at (c :: drop_isolated (Some c) t) = true -> www_at (c :: t) = true.
Proof.
  intros W. apply www_at_inv in W. destruct W as (e & t' & E & He).
  injection E as -> E.
  destruct t as [|d1 t1]; [discriminate|].
  rewrite drop_isolated_after_word in E by reflexivity. injection E as -> E.
  destruct t1 as [|d2 t2]; [discriminate|].
  rewrite drop_isolated_after_word in E by reflexivity. injection E as -> E.
  destruct t2 as [|d3 t3]; [discriminate|].
  rewrite drop_isolated_after_word in E by reflexivity. injection E as -> E.
  destruct t3 as [|d4 t4]; [discriminate|].
  cbn [drop_isolated] in E. cbn [www_at]. rewrite !N.eqb_refl. cbn [andb].
  apply negb_true_iff.
  revert E.
  match goal with |- context [isolated ?p d4 ?n] => destruct (isolated p d4 n) eqn:I end;
    intros E.
  - unfold isolated in I. apply andb_prop in I. destruct I as [I _].
    apply andb_prop in I. destruct I as [_ I]. now apply ascii_letter_not_space.
  - injection E as -> _. exact He.
Qed.

Lemma no_www_drop_isolated s : forall prev,
  none_at www_at s = true -> none_at www_at (drop_isolated prev s) = true.
Proof.
  induction s as [|c t IH]; intros prev H; [reflexivity|].
  cbn [none_at] in H. apply andb_prop in H. destruct H as [H1 H2].
  cbn [drop_isolated]. destruct (isolated prev c (hd_error t)); [now apply IH|].
  cbn [none_at]. rewrite (IH (Some c) H2), andb_true_r.
  apply negb_true_iff. apply negb_true_iff in H1.
  destruct (www_at (c :: drop_isolated (Some c) t)) eqn:W; [|reflexivity].
  apply www_at_drop_isolated in W. congruence.
Qed.

(** *** What every output of the normalizer satisfies *)

Lemma clean_text_kept text : Forall (fun c => kept c = true) (_clean_text text).
Proof. apply clean_text_Forall; [reflexivity|trivial]. Qed.

Lemma clean_text_iso_free text : iso_free None (_clean_text text) = true.
Proof.
  unfold _clean_text. destruct (nonempty text); [|reflexivity].
  set (s9 := re_sub re_spaces [SP] _).
  assert (H9 : Forall only_plain_space s9).
  { apply sub_from_Forall_kept.
    - constructor; [|constructor]. intros _. reflexivity.
    - intros prev c t H Hs. rewrite (keeps_spaces_not_space _ _ _ H) in Hs. discriminate. }
  apply iso_free_strip.
  - apply re_sub_Forall; [constructor|exact H9].
  - unfold re_sub. rewrite sub_single_letter. apply drop_isolated_iso_free. now left.
Qed.

Lemma clean_text_no_www text : none_at www_at (_clean_text text) = true.
Proof.
  unfold _clean_text. destruct (nonempty text); [|reflexivity].
  apply (none_at_strip www_at (window_app www_at www_at_prefix)).
  unfold re_sub at 1. rewrite sub_single_letter.
  apply no_www_drop_isolated.
  apply (none_at_spaced www_at www_at_prefix _ _ (re_sub_spaced re_spaces _)).
  apply (none_at_spaced www_at www_at_prefix _ _ (re_sub_spaced re_divider _)).
  apply (none_at_spaced www_at www_at_prefix _ _ (re_sub_spaced re_special _)).
  apply (none_at_spaced www_at www_at_prefix _ _ (replace_tab_spaced _)).
  apply (none_at_spaced www_at www_at_prefix _ _ (re_sub_spaced re_newlines _)).
  apply sub_www_none.
Qed.

End NormalForm.

Section FixedPoints.
Context {ucd : UnicodeData}.

Lemma kept_absent y a :
  Forall (fun c => kept c = true) y -> kept a = false -> ~ In a y.
Proof.
  intros H Ha Hin. rewrite Forall_forall in H. rewrite (H a Hin) in Ha. discriminate.
Qed.

Lemma space_absent y a :
  Forall only_plain_space y -> is_space a = true -> a <> SP -> ~ In a y.
Proof.
  intros H Ha Hne Hin. rewrite Forall_forall in H. exact (Hne (H a Hin Ha)).
Qed.

Lemma absent_one y a : ~ In a y -> Forall (fun c => one a c = false) y.
Proof.
  intros H. apply Forall_forall. intros c Hc. unfold one.
  apply N.eqb_neq. intros ->. contradiction.
Qed.

Lemma prefixb_app p l : prefixb p (p ++ l) = true.
Proof. induction p as [|a p IH]; [reflexivity|]. cbn [prefixb app]. now rewrite N.eqb_refl. Qed.

Lemma substring_app p l1 l3 : substring p (l1 ++ p ++ l3) = true.
Proof.
  induction l1 as [|c l1 IH].
  - cbn [app]. destruct (p ++ l3) eqn:E; cbn [substring]; rewrite <- E, prefixb_app; reflexivity.
  - cbn [app substring]. rewrite IH. apply orb_true_r.
Qed.

(** [[-=]{3,}] finds nothing in a text without ["="] and without ["---"]. *)
Lemma divider_no_match y l1 l2 prev :
  ~ In (ch "=") y -> substring (u "---") y = false -> y = l1 ++ l2 ->
  match_here re_divider prev l2 = None.
Proof.
  intros Heq Hsub E.
  destruct (match_here re_divider prev l2) as [m|] eqn:M; [|reflexivity]. exfalso.
  apply match_here_sound in M. destruct M as (alt & Hin & HF & Hs).
  destruct Hin as [<-|[]]. destruct m as [pieces rest]. cbn [fst snd] in *.
  inversion HF as [|it w l l' Hw HF' E1 E2]; subst. inversion HF'; subst.
  cbn [piece_ok atleast] in Hw. destruct Hw as (Hall & Hlen & _).
  unfold matched in Hsub. cbn [fst concat] in Hsub. rewrite app_nil_r in Hsub.
  assert (Hd : Forall (fun c => c = ch "-") w).
  { rewrite Forall_forall in *. intros c Hc. specialize (Hall c Hc).
    unfold chars in Hall. cbn [existsb u] in Hall. cbn in Hall.
    rewrite orb_false_r in Hall. apply orb_prop in Hall.
    destruct Hall as [H|H]; apply N.eqb_eq in H; [exact H|].
    exfalso. apply Heq. subst c. apply in_or_app. right. apply in_or_app. left.
    unfold matched. cbn [fst concat]. rewrite app_nil_r. exact Hc. }
  destruct w as [|a [|b [|c w']]]; cbn [length] in Hlen; try lia.
  apply Forall_cons_iff in Hd. destruct Hd as [-> Hd].
  apply Forall_cons_iff in Hd. destruct Hd as [-> Hd].
  apply Forall_cons_iff in Hd. destruct Hd as [-> Hd].
  change (ch "-" :: ch "-" :: ch "-" :: w') with (u "---" ++ w') in Hsub.
  rewrite <- app_assoc, substring_app in Hsub. discriminate.
Qed.

Lemma nonempty_false s : nonempty s = false -> s = [].
Proof. destruct s; [reflexivity|discriminate]. Qed.

Lemma re_sub_no_match r repl s :
  (forall l1 l2 prev, s = l1 ++ l2 -> match_here r prev l2 = None) ->
  re_sub r repl s = s.
Proof. intros H. now apply sub_from_no_match. Qed.

(** On a text of kept characters, plain spaces and no [www.] match, the
    first seven steps change nothing. *)
Lemma clean_text_late_steps y :
  Forall (fun c => kept c = true) y ->
  Forall only_plain_space y ->
  none_at www_at y = true ->
  _clean_text y =
  if nonempty y
  then strip (re_sub re_single_letter []
                (re_sub re_spaces [SP] (re_sub re_divider [SP] y)))
  else [].
Proof.
  intros Hk Hs Hwww.
  unfold _clean_text. destruct (nonempty y) eqn:Hne; [|reflexivity].
  assert (HCR : ~ In CR y) by (apply space_absent; [assumption|reflexivity|discriminate]).
  assert (HLF : ~ In LF y) by (apply space_absent; [assumption|reflexivity|discriminate]).
  assert (HTAB : ~ In TAB y) by (apply space_absent; [assumption|reflexivity|discriminate]).
  assert (Hlt : ~ In (ch "<") y) by (apply kept_absent; [assumption|reflexivity]).
  assert (Hat : ~ In (ch "@") y) by (apply kept_absent; [assumption|reflexivity]).
  assert (Hsl : ~ In (ch "/") y) by (apply kept_absent; [assumption|reflexivity]).
  rewrite (replace_from_absent [CR; LF] [LF] y) by exact HCR.
  rewrite (replace_from_absent [CR] [LF] y) by exact HCR.
  rewrite (re_sub_needs re_tag [] y).
  2:{ intros alt [<-|[]]. exists (one (ch "<")). split; [|now apply absent_one].
      exists 1, (Some 1). split; [now left|lia]. }
  rewrite (re_sub_needs re_angle_address [SP] y).
  2:{ intros alt [<-|[]]. exists (one (ch "<")). split; [|now apply absent_one].
      exists 1, (Some 1). split; [now left|lia]. }
  rewrite (re_sub_needs re_address [SP] y).
  2:{ intros alt [<-|[]]. exists (one (ch "@")). split; [|now apply absent_one].
      exists 1, (Some 1). split; [right; now left|lia]. }
  rewrite (re_sub_needs re_url [SP] y).
  2:{ intros alt [<-|[]]. exists (one (ch "/")). split; [|now apply absent_one].
      exists 1, (Some 1). split; [do 6 right; now left|lia]. }
  rewrite (re_sub_no_match re_www [SP] y).
  2:{ intros l1 l2 prev E.
      destruct (match_here re_www prev l2) eqn:M; [|reflexivity].
      assert (W : www_at l2 = true) by (apply (match_www prev); congruence).
      destruct l2 as [|c t]; [discriminate|].
      rewrite E in Hwww. apply none_at_here in Hwww. congruence. }
  rewrite (re_sub_needs re_newlines [SP] y).
  2:{ intros alt [<-|[]]. exists (one LF). split; [|now apply absent_one].
      exists 1, None. split; [now left|lia]. }
  rewrite (replace_from_absent [TAB] [SP] y) by exact HTAB.
  rewrite (re_sub_needs re_special [SP] y).
  2:{ intros alt [<-|[]]. exists (none_of [kept]). split.
      - exists 1, (Some 1). split; [now left|lia].
      - revert Hk. apply Forall_impl. intros c Hc. unfold none_of, any_of.
        cbn [existsb]. now rewrite Hc. }
  reflexivity.
Qed.

(** A sufficient condition for a text to be left unchanged. *)
Lemma clean_text_fixed y :
  Forall (fun c => kept c = true) y ->
  Forall only_plain_space y ->
  iso_free None y = true ->
  none_at www_at y = true ->
  strip y = y ->
  substring [SP; SP] y = false ->
  substring (u "---") y = false ->
  _clean_text y = y.
Proof.
  intros Hk Hs Hiso Hwww Hstrip Hsp Hdash.
  rewrite (clean_text_late_steps y Hk Hs Hwww).
  destruct (nonempty y) eqn:Hne; [|now apply nonempty_false in Hne].
  assert (Heq : ~ In (ch "=") y) by (apply kept_absent; [assumption|reflexivity]).
  rewrite (re_sub_no_match re_divider [SP] y).
  2:{ intros l1 l2 prev E. now apply (divider_no_match y l1 l2 prev). }
  rewrite (sub_spaces_id y Hs Hsp None : re_sub re_spaces [SP] y = y).
  unfold re_sub. rewrite sub_single_letter, (drop_isolated_free y None Hiso).
  exact Hstrip.
Qed.

Lemma clean_text_strip text : strip (_clean_text text) = _clean_text text.
Proof.
  unfold _clean_text. destruct (nonempty text); [apply strip_strip|reflexivity].
Qed.

(** Where the late removal of single letters left neither two spaces nor
    three hyphens in a row, a second pass changes nothing. *)
Lemma clean_text_settled (x : str) :
  substring [SP; SP] (_clean_text x) = false ->
  substring (u "---") (_clean_text x) = false ->
  _clean_text (_clean_text x) = _clean_text x.
Proof.
  intros H1 H2. apply clean_text_fixed; try assumption.
  - apply clean_text_kept.
  - apply clean_text_only_plain_space.
  - apply clean_text_iso_free.
  - apply clean_text_no_www.
  - apply clean_text_strip.
Qed.

End FixedPoints.

Section SecondPass.
Context {ucd : UnicodeData}.

(** *** Isolated letters and replaced stretches *)

Lemma prev_after_cons prev c (l : str) : prev_after prev (c :: l) = prev_after (Some c) l.
Proof.
  unfold prev_after. destruct l as [|d l']; [reflexivity|].
  now rewrite last_cons_default.
Qed.

Lemma iso_free_suffix l : forall prev s,
  iso_free prev (l ++ s) = true -> iso_free (prev_after prev l) s = true.
Proof.
  induction l as [|c l IH]; intros prev s H; [exact H|].
  cbn [app iso_free] in H. apply andb_prop in H. destruct H as [_ H].
  rewrite prev_after_cons. now apply IH.
Qed.

Lemma last_in (l : str) c : In (last l c) (c :: l).
Proof.
  revert c. induction l as [|d l IH]; intros c; [now left|].
  rewrite last_cons_default. right. apply IH.
Qed.

Lemma spaced_nw_head s s' :
  spaced_nw s s' -> word_at (hd_error s') = word_at (hd_error s).
Proof.
  destruct 1 as [|c s s' H|c l s s' Hl H]; [reflexivity|reflexivity|].
  cbn [app hd_error word_at]. apply Forall_inv in Hl. now rewrite Hl.
Qed.

Lemma SP_not_letter : ascii_letter SP = false.
Proof. reflexivity. Qed.

(** Replacing stretches without word characters by a space isolates no
    letter. *)
Lemma iso_free_spaced_nw s s' :
  spaced_nw s s' -> forall prev, iso_free prev s = true -> iso_free prev s' = true.
Proof.
  induction 1 as [|c s s' H IH|c l s s' Hl H IH]; intros prev Hf.
  - reflexivity.
  - cbn [iso_free] in *. apply andb_prop in Hf. destruct Hf as [H1 H2].
    rewrite (IH _ H2), andb_true_r.
    now rewrite (isolated_next_ext prev c _ _ (spaced_nw_head s s' H)).
  - cbn [iso_free]. unfold isolated at 1. rewrite SP_not_letter, andb_false_r.
    cbn [negb andb]. apply IH.
    apply iso_free_suffix in Hf.
    rewrite <- Hf. apply iso_free_prev_ext.
    cbn [prev_after word_at]. rewrite Forall_forall in Hl.
    rewrite (Hl _ (last_in l c)). reflexivity.
Qed.

Lemma split_match (c : char) t (w r : str) k :
  c :: t = w ++ r -> length w = S k ->
  w = c :: firstn k t /\ r = skipn k t /\ k <= length t.
Proof.
  intros E L. destruct w as [|a w]; [discriminate|]. cbn [app] in E.
  injection E as <- ->. cbn [length] in L. injection L as <-.
  rewrite firstn_app, Nat.sub_diag, firstn_all, firstn_O, app_nil_r.
  rewrite skipn_app, Nat.sub_diag, skipn_all, skipn_O.
  rewrite length_app. repeat split. lia.
Qed.

(** [re.sub(r, " ", s)] for a pattern whose matches in [s] are non-empty and
    free of word characters. *)
Lemma sub_from_spaced_nw r : forall n s prev,
  length s <= n ->
  (forall l1 l2 prev m, s = l1 ++ l2 -> match_here r prev l2 = Some m ->
     matched m <> [] /\ Forall (fun x => is_word x = false) (matched m)) ->
  spaced_nw s (sub_from r [SP] prev s 0).
Proof.
  induction n as [|n IH]; intros s prev Hn Hr.
  - destruct s; [|cbn in Hn; lia]. cbn [sub_from].
    destruct (match_here r prev []) as [m|] eqn:E; [|apply nw_nil].
    exfalso. destruct (Hr [] [] prev m eq_refl E) as [Hne _].
    apply match_here_sound in E. destruct E as (_ & _ & _ & E).
    symmetry in E. apply app_eq_nil in E. tauto.
  - destruct s as [|c t].
    + cbn [sub_from].
      destruct (match_here r prev []) as [m|] eqn:E; [|apply nw_nil].
      exfalso. destruct (Hr [] [] prev m eq_refl E) as [Hne _].
      apply match_here_sound in E. destruct E as (_ & _ & _ & E).
      symmetry in E. apply app_eq_nil in E. tauto.
    + cbn [length] in Hn. cbn [sub_from].
      destruct (match_here r prev (c :: t)) as [m|] eqn:E.
      * destruct (Hr [] (c :: t) prev m eq_refl E) as [Hne Hnw].
        apply match_here_sound in E. destruct E as (_ & _ & _ & E).
        destruct (length (matched m)) as [|k] eqn:L.
        { apply length_zero_iff_nil in L. contradiction. }
        destruct (split_match c t _ _ k E L) as (Hw & Hrest & Hk).
        cbn [app]. rewrite sub_from_skip by assumption.
        rewrite <- (firstn_skipn k t) at 1.
        change (c :: firstn k t ++ skipn k t) with ((c :: firstn k t) ++ skipn k t).
        apply nw_repl; [now rewrite <- Hw|].
        apply IH; [rewrite length_skipn; lia|].
        intros l1 l2 prev' m' E' M'.
        apply (Hr ((c :: firstn k t) ++ l1) l2 prev' m'); [|assumption].
        rewrite <- app_assoc, <- E'. cbn [app]. now rewrite firstn_skipn.
      * apply nw_copy. apply IH; [lia|].
        intros l1 l2 prev' m' E' M'.
        apply (Hr (c :: l1) l2 prev' m'); [|assumption]. now rewrite E'.
Qed.

Lemma matched_single_piece (r : regex) p lo hi prev s m :
  r = [[Rep p lo hi]] -> match_here r prev s = Some m ->
  Forall (fun c => p c = true) (matched m) /\ lo <= length (matched m).
Proof.
  intros -> H. apply match_here_sound in H. destruct H as (alt & Hin & HF & _).
  destruct Hin as [<-|[]]. destruct m as [pieces rest]. cbn [fst] in HF.
  inversion HF as [|it w l l' Hw HF']; subst. inversion HF'; subst.
  cbn [piece_ok] in Hw. destruct Hw as (Hall & Hlen & _).
  unfold matched. cbn [fst concat]. rewrite app_nil_r. tauto.
Qed.

Lemma divider_spaced_nw s : spaced_nw s (re_sub re_divider [SP] s).
Proof.
  apply (sub_from_spaced_nw re_divider (length s)); [lia|].
  intros l1 l2 prev m _ M.
  destruct (matched_single_piece re_divider _ _ _ prev l2 m eq_refl M) as [Hall Hlen].
  split; [destruct (matched m); [cbn in Hlen; lia|discriminate]|].
  revert Hall. apply Forall_impl. intros c Hc.
  unfold chars in Hc. cbn in Hc. rewrite orb_false_r in Hc.
  apply orb_prop in Hc. destruct Hc as [Hc|Hc]; apply N.eqb_eq in Hc; subst; reflexivity.
Qed.

Lemma spaces_spaced_nw s :
  Forall only_plain_space s -> spaced_nw s (re_sub re_spaces [SP] s).
Proof.
  intros Hs. apply (sub_from_spaced_nw re_spaces (length s)); [lia|].
  intros l1 l2 prev m E M.
  destruct (matched_single_piece re_spaces _ _ _ prev l2 m eq_refl M) as [Hall Hlen].
  split; [destruct (matched m); [cbn in Hlen; lia|discriminate]|].
  apply match_here_sound in M. destruct M as (_ & _ & _ & E2).
  rewrite Forall_forall in *. intros c Hc.
  assert (Hin : In c s).
  { rewrite E, E2. apply in_or_app. right. apply in_or_app. now left. }
  rewrite (Hs c Hin (Hall c Hc)). reflexivity.
Qed.

(** *** What the second pass leaves *)

Lemma prefixb_app_r p s l : prefixb p s = true -> prefixb p (s ++ l) = true.
Proof.
  revert s. induction p as [|a p IH]; intros s H; [reflexivity|].
  destruct s as [|c s]; [discriminate|]. cbn [prefixb app] in *.
  apply andb_prop in H. destruct H as [H1 H2]. now rewrite H1, (IH s H2).
Qed.

Lemma none_at_prefixb p s :
  p <> [] -> none_at (prefixb p) s = true -> substring p s = false.
Proof.
  intros Hp. induction s as [|c t IH]; intros H.
  - destruct p; [congruence|reflexivity].
  - cbn [none_at substring] in *. apply andb_prop in H. destruct H as [H1 H2].
    apply negb_true_iff in H1. now rewrite H1, (IH H2).
Qed.

Lemma prefixb_inv p s : prefixb p s = true -> exists t, s = p ++ t.
Proof.
  revert s. induction p as [|a p IH]; intros s H; [now exists s|].
  destruct s as [|c s]; [discriminate|]. cbn [prefixb] in H.
  apply andb_prop in H. destruct H as [H1 H2]. apply N.eqb_eq in H1. subst c.
  destruct (IH s H2) as [t ->]. now exists t.
Qed.

Lemma dashes_at_prefix s :
  dashes_at s = true ->
  exists p q, s = p ++ q /\ p <> [] /\ Forall (fun c => c <> SP) p /\
              forall q', dashes_at (p ++ q') = true.
Proof.
  unfold dashes_at. intros H. apply prefixb_inv in H. destruct H as [t ->].
  exists (u "---"), t. split; [reflexivity|]. split; [discriminate|].
  split; [repeat constructor; discriminate|]. intros q'. apply prefixb_app.
Qed.

Lemma divider_hits prev c t :
  match_here re_divider prev (c :: t) = None -> dashes_at (c :: t) = false.
Proof.
  intros M. destruct (dashes_at (c :: t)) eqn:D; [|reflexivity]. exfalso.
  unfold dashes_at in D. apply prefixb_inv in D. destruct D as [q E].
  rewrite E in M.
  unfold re_divider, atleast in M. cbn [match_here] in M.
  rewrite match_seq_rep1 in M.
  change (u "---" ++ q) with (45%N :: 45%N :: 45%N :: q) in M. cbn [run] in M.
  change (chars (u "-=") 45%N) with true in M. cbn iota in M.
  cbn [Nat.leb] in M. discriminate.
Qed.

Lemma divider_nonempty prev s m :
  match_here re_divider prev s = Some m -> matched m <> [].
Proof.
  apply match_nonempty. intros alt [<-|[]]. unfold atleast. repeat eexists. lia.
Qed.

Lemma sub_divider_none s : none_at dashes_at (re_sub re_divider [SP] s) = true.
Proof.
  apply (sub_none_at dashes_at dashes_at_prefix re_divider) with (n := length s).
  - apply divider_hits.
  - apply divider_nonempty.
  - apply Nat.le_refl.
Qed.

Lemma run_stops p s :
  match skipn (run p None s) s with d :: _ => p d = false | [] => True end.
Proof.
  induction s as [|c t IH]; [exact I|]. cbn [run].
  destruct (p c) eqn:E; [exact IH|]. cbn [skipn]. exact E.
Qed.

Lemma sub_spaces_head prev d t :
  is_space d = false ->
  sub_from re_spaces [SP] prev (d :: t) 0 = d :: sub_from re_spaces [SP] (Some d) t 0.
Proof.
  intros H. cbn [sub_from re_spaces match_here]. unfold plus. rewrite match_seq_rep1.
  cbn [run]. rewrite H. reflexivity.
Qed.

(** After [re.sub(r"\s+", " ", s)] no two spaces are adjacent. *)
Lemma sub_spaces_single : forall n s prev,
  length s <= n -> none_at spaces_at (sub_from re_spaces [SP] prev s 0) = true.
Proof.
  induction n as [|n IH]; intros s prev Hn.
  - destruct s; [reflexivity|cbn in Hn; lia].
  - destruct s as [|c t]; [reflexivity|]. cbn [length] in Hn.
    destruct (is_space c) eqn:Hc.
    + cbn [sub_from re_spaces match_here]. unfold plus. rewrite match_seq_rep1.
      pose proof (run_stops is_space (c :: t)) as Hstop.
      pose proof (run_le_length is_space None (c :: t)) as Hlen.
      assert (Hrun : exists k, run is_space None (c :: t) = S k).
      { cbn [run]. rewrite Hc. eauto. }
      destruct Hrun as [k Hk]. rewrite Hk in *.
      cbn [Nat.leb matched fst concat]. rewrite app_nil_r, length_firstn.
      rewrite Nat.min_l by assumption. cbn [length] in Hlen.
      cbn [app]. rewrite sub_from_skip by lia.
      cbn [skipn] in Hstop.
      cbn [none_at]. rewrite IH by (rewrite length_skipn; lia).
      rewrite andb_true_r. apply negb_true_iff. unfold spaces_at.
      destruct (skipn k t) as [|d t'] eqn:E; [reflexivity|].
      rewrite sub_spaces_head by assumption.
      cbn [prefixb]. rewrite N.eqb_refl. cbn [andb].
      destruct (N.eqb_spec SP d) as [<-|]; [discriminate|reflexivity].
    + rewrite sub_spaces_head by assumption. cbn [none_at].
      rewrite IH by lia. rewrite andb_true_r. apply negb_true_iff.
      unfold spaces_at. cbn [prefixb].
      destruct (N.eqb_spec SP c) as [<-|]; [discriminate|reflexivity].
Qed.

(** The second pass over an output of the normalizer collapses what the
    removed letters left, and nothing else. *)
Lemma clean_text_second_pass x :
  substring [SP; SP] (_clean_text (_clean_text x)) = false /\
  substring (u "---") (_clean_text (_clean_text x)) = false.
Proof.
  set (y := _clean_text x).
  rewrite (clean_text_late_steps y (clean_text_kept x)
             (clean_text_only_plain_space x) (clean_text_no_www x)).
  destruct (nonempty y); [|split; reflexivity].
  set (s8 := re_sub re_divider [SP] y).
  set (s9 := re_sub re_spaces [SP] s8).
  assert (H8 : Forall only_plain_space s8).
  { apply re_sub_Forall; [|apply clean_text_only_plain_space].
    constructor; [intros _; reflexivity|constructor]. }
  assert (Hiso : iso_free None s9 = true).
  { apply (iso_free_spaced_nw s8); [now apply spaces_spaced_nw|].
    apply (iso_free_spaced_nw y); [apply divider_spaced_nw|].
    apply clean_text_iso_free. }
  unfold re_sub. rewrite sub_single_letter, (drop_isolated_free s9 None Hiso).
  split.
  - apply (none_at_prefixb [SP; SP]); [discriminate|].
    apply (none_at_strip spaces_at); [apply prefixb_app_r|].
    apply (sub_spaces_single (length s8)). lia.
  - apply (none_at_prefixb (u "---")); [discriminate|].
    apply (none_at_strip dashes_at); [apply prefixb_app_r|].
    apply (none_at_spaced dashes_at dashes_at_prefix s8 s9); [apply re_sub_spaced|].
    apply sub_divider_none.
Qed.

End SecondPass.

Section FinalClaims.
Context {ucd : UnicodeData}.

(** C5, amended: the normalizer is idempotent on every text whose normalized
    form has neither two adjacent spaces nor three adjacent hyphens, the two
    things the late removal of single letters can leave behind; and for
    every text the second application reaches a fixed point. *)
Theorem clean_text_stabilises (x : str) :
  (substring [SP; SP] (_clean_text x) = false ->
   substring (u "---") (_clean_text x) = false ->
   _clean_text (_clean_text x) = _clean_text x) /\
  _clean_text (_clean_text (_clean_text x)) = _clean_text (_clean_text x).
Proof.
  split; [apply clean_text_settled|].
  apply clean_text_settled; apply clean_text_second_pass.
Qed.

(** Every element of [re.findall] is the text of a match. *)
Lemma findall_from_In r w : forall s prev k,
  In w (findall_from r prev s k) ->
  exists prev' l m, match_here r prev' l = Some m /\ w = matched m.
Proof.
  induction s as [|c t IH]; intros prev k H.
  - destruct k; cbn [findall_from] in H; [|destruct H].
    destruct (match_here r prev []) as [m|] eqn:E; [|destruct H].
    destruct H as [<-|[]]. now exists prev, [], m.
  - destruct k; cbn [findall_from] in H; [|now apply IH in H].
    destruct (match_here r prev (c :: t)) as [m|] eqn:E; [|now apply IH in H].
    destruct H as [<-|H]; [now exists prev, (c :: t), m|now apply IH in H].
Qed.

Lemma findall_korean s w : In w (re_findall re_korean s) -> hangul_run w.
Proof.
  intros H. apply findall_from_In in H. destruct H as (prev & l & m & M & ->).
  exact (matched_single_piece re_korean _ _ _ prev l m eq_refl M).
Qed.

Lemma findall_english s w : In w (re_findall re_english s) -> latin_run w.
Proof.
  intros H. apply findall_from_In in H. destruct H as (prev & l & m & M & ->).
  exact (matched_single_piece re_english _ _ _ prev l m eq_refl M).
Qed.

Lemma findall_identifier s w : In w (re_findall re_identifier s) -> identifier w.
Proof.
  intros H. apply findall_from_In in H. destruct H as (prev & l & m & M & ->).
  apply match_here_sound in M. destruct M as (alt & Hin & HF & _).
  destruct m as [pieces rest]. unfold matched. cbn [fst] in *.
  destruct Hin as [<-|[<-|[<-|[]]]].
  - inversion HF as [|i1 a l1 l1' Ha HF1]; subst.
    inversion HF1 as [|i2 b l2 l2' Hb HF2]; subst. inversion HF2; subst.
    cbn [piece_ok atleast plus] in Ha, Hb. cbn [concat]. rewrite app_nil_r.
    left. exists a, b. unfold all_in. tauto.
  - inversion HF as [|i1 a l1 l1' Ha HF1]; subst.
    inversion HF1 as [|i2 d l2 l2' Hd HF2]; subst.
    inversion HF2 as [|i3 b l3 l3' Hb HF3]; subst. inversion HF3; subst.
    cbn [piece_ok plus lit] in Ha, Hd, Hb. cbn [concat]. rewrite app_nil_r.
    right. left. exists a, b. unfold all_in.
    destruct Hd as (Hall & Hlo & Hhi). specialize (Hhi 1 eq_refl).
    destruct d as [|x [|y d']]; cbn [length] in Hlo, Hhi; try lia.
    apply Forall_inv in Hall. unfold one in Hall. apply N.eqb_eq in Hall. subst x.
    cbn [app]. tauto.
  - inversion HF as [|i1 a l1 l1' Ha HF1]; subst. inversion HF1; subst.
    cbn [piece_ok atleast] in Ha. cbn [concat]. rewrite app_nil_r.
    right. right. unfold all_in. tauto.
Qed.

End FinalClaims.

(** ** The store service, call after call *)

Section DatabaseComposition.
Context {ucd : UnicodeData}.
Variable sha256_hexdigest : str -> str.
Variable json_loads : str -> res pyval.
Variable json_dumps : list str -> str.

Import MailDb.

Local Abbreviation check_duplicate :=
  (check_duplicate_by_content_hash sha256_hexdigest json_loads).
Local Abbreviation save := (save_mail_with_hash sha256_hexdigest json_dumps).
Local Abbreviation decodes_to := (decodes_to json_loads).
Local Abbreviation saved_row processed_mail n content :=
  {| account_id := n;
     message_id := pm_mail_id processed_mail;
     received_time := pm_sent_time processed_mail;
     subject := pm_subject processed_mail;
     sender := pm_sender_address processed_mail;
     keywords := Some (json_dumps (pm_keywords processed_mail));
     processed_at := pm_processed_at processed_mail;
     content_hash := Some (sha256_hexdigest content) |}.

Lemma find_snoc {A} (f : A -> bool) l x :
  find f (l ++ [x]) =
  match find f l with
  | Some y => Some y
  | None => if f x then Some x else None
  end.
Proof.
  induction l as [|a l IH]; cbn [find app]; [reflexivity|].
  destruct (f a); [reflexivity|exact IH].
Qed.

Lemma ensure_content_hash_column_spec db :
  _ensure_content_hash_column db =
  (Ok tt, {| accounts := accounts db; mail_history := mail_history db;
             has_content_hash_column := true |}).
Proof.
  unfold _ensure_content_hash_column, execute_add_content_hash_column, try_except, ret.
  destruct db as [a m []]; reflexivity.
Qed.

Lemma save_encodable processed_mail content db :
  encodable content = true ->
  exists n db1,
    _get_actual_account_id (pm_account_id processed_mail) db = (Ok n, db1) /\
    mail_history db1 = mail_history db /\
    save processed_mail content db =
    (Ok tt, {| accounts := accounts db1;
               mail_history := mail_history db ++ [saved_row processed_mail n content];
               has_content_hash_column := true |}).
Proof.
  intros Henc.
  destruct (get_actual_account_id_spec (pm_account_id processed_mail) db)
    as (n & db1 & Hget & _ & Hmh & _).
  exists n, db1. split; [exact Hget|]. split; [exact Hmh|].
  unfold save_mail_with_hash, _generate_content_hash. rewrite Henc.
  cbv [bind lift]. rewrite Hget, ensure_content_hash_column_spec.
  unfold execute_insert_mail_history. cbn [accounts mail_history has_content_hash_column].
  now rewrite Hmh.
Qed.

(** Resolving a reference a second time finds what the first time found or
    made. *)
Lemma get_actual_account_id_again ref db n db1 db2 :
  _get_actual_account_id ref db = (Ok n, db1) ->
  accounts db2 = accounts db1 ->
  _get_actual_account_id ref db2 = (Ok n, db2).
Proof.
  destruct ref as [k|uid]; cbn [_get_actual_account_id].
  - unfold ret. now intros [= -> ->].
  - unfold fetch_one_account, execute_insert_account. cbv [bind ret raise].
    destruct (find (fun a => str_eqb (user_id a) uid) (accounts db)) as [a|] eqn:Hfind.
    + intros [= <- <-] ->. now rewrite Hfind.
    + cbn [accounts].
      rewrite (find_app_none _ _ _ Hfind) by (cbn [user_id]; apply str_eqb_refl).
      intros [= <- <-] ->. cbn [accounts].
      rewrite (find_app_none _ _ _ Hfind) by (cbn [user_id]; apply str_eqb_refl).
      reflexivity.
Qed.



(** X2: what is saved is what the duplicate check returns. When no record
    matched the message before, and the keyword list survives the JSON round
    trip, the check after the save returns [true] with the keywords that
    were saved. *)
Theorem saved_keywords_read_back (processed_mail : ProcessedMailData)
  (raw : str) (db : database) (v : pyval) :
  let content := _clean_text raw in
  (forall r, In r (mail_history db) ->
             ~ row_matches (sha256_hexdigest content) (pm_mail_id processed_mail) r) ->
  json_dumps (pm_keywords processed_mail) <> [] ->
  json_loads (json_dumps (pm_keywords processed_mail)) = Ok v ->
  exists db',
    save processed_mail content db = (Ok tt, db') /\
    check_duplicate (pm_mail_id processed_mail) content db' = (Ok (true, v), db').
Proof.
  intros content Hnone Hne Hrt.
  destruct (save_encodable processed_mail content db (clean_text_encodable raw))
    as (n & db1 & _ & _ & Hsave).
  fold content in Hsave. rewrite Hsave. clear Hsave.
  eexists. split; [reflexivity|].
  unfold check_duplicate_by_content_hash, _generate_content_hash, fetch_one_keywords.
  unfold content at 1. rewrite clean_text_encodable. fold content.
  cbv [bind lift ret try_except_of]. cbn [mail_history]. rewrite find_snoc.
  destruct (find _ (mail_history db)) as [row|] eqn:Hfind.
  - apply find_some in Hfind. destruct Hfind as [Hin Hm].
    apply where_clause_spec in Hm. destruct (Hnone row Hin Hm).
  - cbn [content_hash message_id keywords]. rewrite str_eqb_refl. cbn [orb keywords].
    destruct (json_dumps (pm_keywords processed_mail)) as [|c t] eqn:E; [now destruct Hne|].
    cbn [nonempty]. now rewrite Hrt.
Qed.

(** X4: resolving an account reference always gives a key, and resolving the
    same reference again gives the same key and changes nothing: a
    placeholder account is made at most once per user id. *)
Theorem get_actual_account_id_settles (ref : account_ref) (db : database) :
  exists n db1,
    _get_actual_account_id ref db = (Ok n, db1) /\
    _get_actual_account_id ref db1 = (Ok n, db1) /\
    (length (accounts db1) <= S (length (accounts db)))%nat.
Proof.
  destruct (get_actual_account_id_spec ref db) as (n & db1 & Hget & Hres & _).
  exists n, db1. split; [exact Hget|]. split; [exact (get_actual_account_id_again _ _ _ _ _ Hget eq_refl)|].
  inversion Hres; [lia|lia|rewrite length_app; cbn [length]; lia].
Qed.

(** X5: saving keeps the account keys pairwise distinct, and the user ids
    too. *)
Theorem save_keeps_accounts_distinct (processed_mail : ProcessedMailData)
  (content : str) (db : database) (r : res unit) (db' : database) :
  NoDup (map id (accounts db)) /\ NoDup (map user_id (accounts db)) ->
  save processed_mail content db = (r, db') ->
  NoDup (map id (accounts db')) /\ NoDup (map user_id (accounts db')).
Proof.
  intros [Hid Huid].
  unfold save_mail_with_hash, _generate_content_hash.
  destruct (encodable content); cbv [bind lift]; [|now intros [= _ <-]].
  destruct (get_actual_account_id_spec (pm_account_id processed_mail) db)
    as (n & db1 & -> & Hres & _ & _).
  rewrite ensure_content_hash_column_spec. unfold execute_insert_mail_history.
  intros [= _ <-]. cbn [accounts].
  inversion Hres as [|uid a before after Hacc Hu Hb|uid k Hfu Hfk]; [now split|now split|].
  rewrite !map_app. cbn [map id user_id]. split.
  - apply NoDup_app; repeat split; auto.
    + constructor; [intros []|constructor].
    + intros x Hx [<-|[]]. apply in_map_iff in Hx. destruct Hx as (a & Hk & Hin).
      now apply (Hfk a Hin).
  - apply NoDup_app; repeat split; auto.
    + constructor; [intros []|constructor].
    + intros x Hx [<-|[]]. apply in_map_iff in Hx. destruct Hx as (a & Hk & Hin).
      now apply (Hfu a Hin).
Qed.


(** X7: content with a lone surrogate cannot be fingerprinted. The
    fingerprint, the duplicate check and the save all raise
    [UnicodeEncodeError], and neither the check nor the save touches the
    store: no placeholder account is made and no column is added. *)
Theorem surrogate_content_refused (processed_mail : ProcessedMailData)
  (mail_id content : str) (db : database) :
  existsb surrogate content = true ->
  _generate_content_hash sha256_hexdigest content = Raise UnicodeEncodeError /\
  check_duplicate mail_id content db = (Raise UnicodeEncodeError, db) /\
  save processed_mail content db = (Raise UnicodeEncodeError, db).
Proof.
  intros Hs.
  assert (Henc : encodable content = false).
  { unfold encodable. apply not_true_is_false. intros H.
    rewrite forallb_forall in H. apply existsb_exists in Hs.
    destruct Hs as (c & Hin & Hc). specialize (H c Hin).
    unfold surrogate in Hc. rewrite Hc in H. discriminate. }
  unfold save_mail_with_hash, check_duplicate_by_content_hash, _generate_content_hash.
  rewrite Henc. repeat split.
Qed.

End DatabaseComposition.

(** ** The extractor, path by path *)

Section ExtractorPaths.
Context {ucd : UnicodeData}.
Variable self_api_key : pyval.
Variable self_model : str.
Variable post : str -> http_outcome.
Variable json_loads : str -> option pyval.
Variable cost_usd : pyval -> pyval -> res pyval.

Local Abbreviation call := (_call_openrouter_api self_api_key post json_loads cost_usd).
Local Abbreviation extract := (extract_keywords self_api_key self_model post json_loads cost_usd).
Local Abbreviation call_outcome := (call_outcome self_api_key post json_loads cost_usd).
Local Abbreviation extract_outcome :=
  (extract_outcome self_api_key self_model post json_loads cost_usd).

Ltac run_monad := cbv [bind ret lift try_except get put raise].

Lemma dict_set_keys k v d :
  In k (map fst d) -> map fst (dict_set k v d) = map fst d.
Proof.
  induction d as [|[k' v'] t IH]; [intros []|].
  cbn [dict_set map fst In]. destruct (str_eqb k' k) eqn:E.
  - reflexivity.
  - intros [H|H]; [apply str_eqb_neq in E; congruence|].
    cbn [map fst]. now rewrite IH.
Qed.

(** The usage block rewrites the four counters and adds none, whether it
    ends or raises. *)
Lemma update_usage_keys data info r info' :
  map fst info = map fst initial_token_info ->
  update_usage cost_usd data info = (r, info') ->
  map fst info' = map fst initial_token_info.
Proof.
  clear self_api_key self_model post json_loads.
  intros Hk. unfold update_usage. run_monad.
  destruct (py_in (u "usage") data) as [[]|e]; [| |]; try (now intros [= _ <-]).
  destruct (py_getitem data (u "usage")) as [usage|e]; [|now intros [= _ <-]].
  destruct (py_get usage (u "prompt_tokens") (PInt 0)) as [p|e]; [|now intros [= _ <-]].
  destruct (py_get usage (u "completion_tokens") (PInt 0)) as [c|e]; [|now intros [= _ <-]].
  destruct (py_get usage (u "total_tokens") (PInt 0)) as [t|e]; [|now intros [= _ <-]].
  assert (H3 : map fst (dict_set (u "total_tokens") t
                          (dict_set (u "completion_tokens") c
                             (dict_set (u "prompt_tokens") p info))) =
               map fst initial_token_info).
  { rewrite !dict_set_keys; [exact Hk| | |].
    - rewrite Hk. vm_compute. tauto.
    - rewrite dict_set_keys; rewrite Hk; vm_compute; tauto.
    - rewrite !dict_set_keys; rewrite ?Hk; try (vm_compute; tauto).
      rewrite dict_set_keys; rewrite Hk; vm_compute; tauto. }
  destruct (cost_usd p c) as [cost|e]; intros [= _ <-]; [|exact H3].
  rewrite dict_set_keys; [exact H3|]. rewrite H3. vm_compute. tauto.
Qed.

Lemma firstn_slice_In {A} (l : list A) n x : In x (slice_to l n) -> In x l.
Proof.
  unfold slice_to. destruct (n <? 0)%Z; intros H;
    match type of H with In _ (firstn ?k _) =>
      rewrite <- (firstn_skipn k l); apply in_or_app; left; exact H
    end.
Qed.

Lemma parse_keywords_shape content kw :
  In kw (_parse_keywords content) ->
  2 <= length kw /\
  (forall c t, kw = c :: t -> edge c = false) /\
  (forall l c, kw = l ++ [c] -> edge c = false).
Proof.
  unfold _parse_keywords. rewrite clean_keywords_spec.
  intros Hin. apply filter_In in Hin. destruct Hin as [Hin Hlen].
  apply in_map_iff in Hin. destruct Hin as (raw & <- & Hraw).
  split; [now apply Nat.leb_le|]. split.
  - intros c t E. pose proof (strip_by_head edge raw) as H.
    unfold strip_edges in E. now rewrite E in H.
  - intros l c E. pose proof (strip_by_last edge raw) as H.
    unfold strip_edges in E. now rewrite E, rev_app_distr in H.
Qed.

Lemma prompt_for_firstn text max_keywords :
  prompt_for (firstn 1000 text) max_keywords = prompt_for text max_keywords.
Proof.
  unfold prompt_for.
  destruct (Nat.ltb_spec 1000 (length text)) as [H|H].
  - rewrite length_firstn, Nat.min_l by lia. cbn [Nat.ltb Nat.leb]. reflexivity.
  - rewrite (firstn_all2 text) by lia.
    destruct (Nat.ltb_spec 1000 (length text)); [lia|reflexivity].
Qed.

(** X8: the calls that leave the service, on every path. The endpoint is
    contacted at most once, with the prompt made from the normalized text;
    the rule-based extractor runs at most once, after the endpoint if both
    run, on the normalized text on the path ["fallback"] and on the text as
    given on the path ["fallback_error"]; nothing earlier in the trace is
    touched. *)
Theorem extract_keywords_call_discipline (text : str) (max_keywords : Z) (tr : trace) :
  let clean_text := _clean_text text in
  let prompt := prompt_for clean_text max_keywords in
  exists r events,
    extract text max_keywords tr = (Ok r, tr ++ events) /\
    ((method r = u "empty_text" /\ events = []) \/
     (method r = u "openrouter" /\ events = [RemoteCall prompt]) \/
     (method r = u "fallback" /\
      (events = [FallbackCall clean_text] \/
       events = [RemoteCall prompt; FallbackCall clean_text])) \/
     (method r = u "fallback_error" /\ events = [FallbackCall text])).
Proof.
  intros clean_text prompt.
  destruct (extract_cases self_api_key self_model post json_loads cost_usd
              text max_keywords tr); cbn [method].
  - exists {| keywords := []; method := u "empty_text"; model := self_model;
              token_info := [] |}, [].
    rewrite app_nil_r. split; [reflexivity|]. left. now split.
  - eexists; eexists. split; [reflexivity|]. right; left. now split.
  - eexists; eexists. split; [reflexivity|]. right; right; left. split; [reflexivity|now left].
  - eexists; eexists. split; [reflexivity|]. right; right; left. split; [reflexivity|now right].
  - eexists; eexists. split; [reflexivity|]. right; right; right. now split.
Qed.

(** X9: without a credential (absent or empty) the endpoint is never
    contacted: the result is ["empty_text"] or ["fallback"], with no token
    usage. *)
Theorem no_credential_no_remote_call (text : str) (max_keywords : Z) (tr : trace) :
  truthy self_api_key = false ->
  exists r events,
    extract text max_keywords tr = (Ok r, tr ++ events) /\
    (forall prompt, ~ In (RemoteCall prompt) events) /\
    (method r = u "empty_text" \/ method r = u "fallback") /\
    token_info r = [].
Proof.
  intros Hkey.
  destruct (extract_cases self_api_key self_model post json_loads cost_usd
              text max_keywords tr)
    as [Hl|body data c info Hl Hk Hex Hpost Hload Husage Hcontent Hstrip Hkw|Hl Hk|Hl Hk|e Hl Hk Hex];
    try congruence.
  - exists {| keywords := []; method := u "empty_text"; model := self_model;
              token_info := [] |}, [].
    rewrite app_nil_r. split; [reflexivity|]. repeat split; auto.
  - eexists; eexists. split; [reflexivity|]. cbn [method token_info]. repeat split; auto.
    intros prompt [Hin|[]]. discriminate.
Qed.

(** X10: what a result carries, method by method. ["openrouter"] comes with
    the configured model, at least one keyword, every keyword of two
    characters or more beginning and ending with a word character or a
    Hangul syllable, and a usage record with exactly the four counters.
    Every other method comes with an empty usage record; ["empty_text"]
    with no keyword and the configured model, the two fallback methods with
    the model ["rule_based"]. *)
Theorem result_shape_by_method (text : str) (max_keywords : Z) (tr : trace) :
  exists r tr',
    extract text max_keywords tr = (Ok r, tr') /\
    (method r = u "openrouter" ->
       model r = self_model /\ keywords r <> [] /\
       map fst (token_info r) =
         [u "prompt_tokens"; u "completion_tokens"; u "total_tokens"; u "cost_usd"] /\
       forall kw, In kw (keywords r) ->
         2 <= length kw /\
         (forall c t, kw = c :: t -> edge c = false) /\
         (forall l c, kw = l ++ [c] -> edge c = false)) /\
    (method r <> u "openrouter" -> token_info r = []) /\
    (method r = u "empty_text" -> keywords r = [] /\ model r = self_model) /\
    (method r = u "fallback" \/ method r = u "fallback_error" ->
       model r = u "rule_based").
Proof.
  destruct (extract_cases self_api_key self_model post json_loads cost_usd
              text max_keywords tr)
    as [Hl|body data c info Hl Hk Hex Hpost Hload Husage Hcontent Hstrip Hkw|Hl Hk|Hl Hk|e Hl Hk Hex];
    eexists; eexists; (split; [reflexivity|]); cbn [method model keywords token_info].
  - repeat split; try reflexivity; try discriminate.
    intros [H|H]; discriminate.
  - split; [|split; [|split]].
    + intros _. split; [reflexivity|]. split; [exact Hkw|]. split.
      * exact (update_usage_keys data _ _ _ eq_refl Husage).
      * intros kw Hin. apply firstn_slice_In in Hin.
        exact (parse_keywords_shape c kw Hin).
    + intros H. now destruct H.
    + discriminate.
    + intros [H|H]; discriminate.
  - repeat split; try reflexivity; try discriminate.
  - repeat split; try reflexivity; try discriminate.
  - repeat split; try reflexivity; try discriminate.
Qed.

(** X11: the remote call raises in one case only: the credential is truthy
    but cannot be sliced for the log line that precedes the request. It
    raises then before anything is sent. Every failure after that point is
    swallowed. *)
Theorem call_openrouter_api_raises_iff (text : str) (max_keywords : Z)
  (tr : trace) (e : exc) (tr' : trace) :
  call text max_keywords tr = (Raise e, tr') <->
  truthy self_api_key = true /\ api_key_excerpt self_api_key = Raise e /\ tr' = tr.
Proof.
  split.
  - intros H.
    destruct (call_cases self_api_key post json_loads cost_usd text max_keywords tr)
      as [Hk|e0 Hk Hex|info Hk Hex|body data c info Hk Hex Hpost Hload Husage Hcontent Hstrip];
      try discriminate.
    injection H as <- <-. auto.
  - intros (Hk & Hex & ->). unfold _call_openrouter_api.
    rewrite Hk. cbn [negb]. unfold bind at 1, lift at 1. now rewrite Hex.
Qed.

(** X12: with a credential, the usage record the remote call hands back has
    exactly the four counters, in the order they were written first,
    whatever the response was: missing, malformed or partly read usage
    blocks change values only. Without a credential the record is empty. *)
Theorem call_openrouter_api_usage_keys (text : str) (max_keywords : Z) (tr : trace) :
  forall kws info tr',
    call text max_keywords tr = (Ok (kws, info), tr') ->
    if truthy self_api_key
    then map fst info =
           [u "prompt_tokens"; u "completion_tokens"; u "total_tokens"; u "cost_usd"]
    else info = [].
Proof.
  clear self_model.
  intros kws info tr'. unfold _call_openrouter_api.
  destruct (truthy self_api_key) eqn:Hkey; cbn [negb]; [|now intros [= _ <- _]].
  unfold bind at 1, lift at 1.
  destruct (api_key_excerpt self_api_key) as [[]|e]; [|discriminate].
  unfold try_except, bind at 1, log_call. cbn [fst snd].
  destruct (post (prompt_for text max_keywords)) as [e|status body].
  { now intros [= _ <- _]. }
  destruct (Z.eqb_spec status 200) as [->|Hst]; cbn [negb].
  2:{ now intros [= _ <- _]. }
  destruct (json_loads body) as [data|].
  2:{ now intros [= _ <- _]. }
  unfold bind, on_token_info, lift. cbn [fst snd].
  destruct (update_usage cost_usd data initial_token_info) as [[[]|e] info0] eqn:Husage.
  - destruct (read_keywords data max_keywords); cbn [fst snd]; intros [= _ <- _];
      exact (update_usage_keys data _ _ _ eq_refl Husage).
  - cbn [fst snd]. intros [= _ <- _].
    exact (update_usage_keys data _ _ _ eq_refl Husage).
Qed.

(** X13: the remote call reads the first 1000 characters of its text and no
    more: on two texts that agree there it sends the same prompt and comes
    to the same result. *)
Theorem call_openrouter_api_reads_1000 (text text' : str) (max_keywords : Z) (tr : trace) :
  firstn 1000 text = firstn 1000 text' ->
  call text max_keywords tr = call text' max_keywords tr.
Proof.
  intros H. unfold _call_openrouter_api.
  rewrite <- (prompt_for_firstn text), <- (prompt_for_firstn text'), H. reflexivity.
Qed.

End ExtractorPaths.

(** ** What the normalizer leaves *)

Section NormalizerOutput.
Context {ucd : UnicodeData}.

Lemma match_here_length r prev s m :
  match_here r prev s = Some m -> length (matched m) <= length s.
Proof.
  intros H. apply match_here_sound in H. destruct H as (_ & _ & _ & ->).
  rewrite length_app. lia.
Qed.

(** A substitution whose replacement is no longer than any match does not
    lengthen the text. *)
Lemma sub_from_length r repl :
  (forall prev s m, match_here r prev s = Some m -> length repl <= length (matched m)) ->
  forall s prev k, length (sub_from r repl prev s k) <= length s - k.
Proof.
  intros Hr. induction s as [|c t IH]; intros prev k.
  - destruct k; cbn [sub_from length]; [|lia].
    destruct (match_here r prev []) as [m|] eqn:E; [|cbn [length]; lia].
    pose proof (Hr _ _ _ E). pose proof (match_here_length _ _ _ _ E).
    rewrite app_nil_r. cbn [length] in *. lia.
  - destruct k; cbn [sub_from].
    + destruct (match_here r prev (c :: t)) as [m|] eqn:E.
      * pose proof (Hr _ _ _ E) as H1. pose proof (match_here_length _ _ _ _ E) as H2.
        rewrite length_app. destruct (length (matched m)) as [|j].
        -- cbn [length] in *. specialize (IH (Some c) 0). lia.
        -- specialize (IH (Some c) j). cbn [length] in *. lia.
      * cbn [length]. specialize (IH (Some c) 0). lia.
    + specialize (IH (Some c) k). cbn [length]. lia.
Qed.

Lemma re_sub_delete_length r s : length (re_sub r [] s) <= length s.
Proof.
  unfold re_sub. pose proof (sub_from_length r [] (fun _ _ _ _ => Nat.le_0_l _) s None 0).
  lia.
Qed.

Lemma re_sub_space_length r s :
  (forall alt, In alt r -> exists p lo hi rest, alt = Rep p lo hi :: rest /\ 1 <= lo) ->
  length (re_sub r [SP] s) <= length s.
Proof.
  intros Hr. unfold re_sub.
  assert (H : forall prev s m, match_here r prev s = Some m ->
                               length [SP] <= length (matched m)).
  { intros prev s0 m E. pose proof (match_nonempty r prev s0 m Hr E) as Hne.
    destruct (matched m); [now destruct Hne|cbn [length]; lia]. }
  pose proof (sub_from_length r [SP] H s None 0). lia.
Qed.

Lemma prefixb_length p s : prefixb p s = true -> length p <= length s.
Proof.
  intros H. apply prefixb_inv in H. destruct H as (t & ->). rewrite length_app. lia.
Qed.

Lemma replace_from_length old new :
  length new <= length old -> old <> [] ->
  forall s k, length (replace_from old new s k) <= length s - k.
Proof.
  intros Hlen Hne. induction s as [|c t IH]; intros k.
  - destruct k; cbn [replace_from length]; lia.
  - destruct k; cbn [replace_from].
    + destruct (prefixb old (c :: t)) eqn:E.
      * apply prefixb_length in E. rewrite length_app.
        specialize (IH (pred (length old))).
        destruct old as [|o old']; [now destruct Hne|]. cbn [length pred] in *. lia.
      * cbn [length]. specialize (IH 0). lia.
    + specialize (IH k). cbn [length]. lia.
Qed.

Lemma replace_length old new s :
  length new <= length old -> old <> [] -> length (replace old new s) <= length s.
Proof.
  intros H1 H2. unfold replace. pose proof (replace_from_length old new H1 H2 s 0). lia.
Qed.

Ltac first_item := intros alt [<-|[]]; do 4 eexists; split; [reflexivity|cbn; lia].

Lemma drop_while_all p s : Forall (fun c => p c = true) s -> drop_while p s = [].
Proof.
  induction 1 as [|c t Hc Ht IH]; [reflexivity|]. cbn [drop_while]. now rewrite Hc.
Qed.

Lemma iso_free_at : forall l prev c r,
  iso_free prev (l ++ c :: r) = true ->
  isolated (prev_after prev l) c (hd_error r) = false.
Proof.
  induction l as [|a l IH]; intros prev c r H.
  - cbn [app iso_free] in H. apply andb_prop in H. destruct H as [H _].
    now apply negb_true_iff in H.
  - cbn [app iso_free] in H. apply andb_prop in H. destruct H as [_ H].
    apply IH in H. rewrite prev_after_cons. exact H.
Qed.

Lemma none_at_app W : forall l s, none_at W (l ++ s) = true -> none_at W s = true.
Proof.
  induction l as [|a l IH]; intros s H; [exact H|].
  cbn [app none_at] in H. apply andb_prop in H. destruct H as [_ H]. now apply IH.
Qed.

(** X14: the characters of the normalized text. Each one is a word
    character, a Hangul syllable, the plain space or one of
    [. , ! ? ( ) : ; -]; so the characters of markup, addresses and URLs
    ([<], [>], [@], [/], [=]) do not occur in it. *)
Theorem clean_text_alphabet (text : str) :
  let out := _clean_text text in
  Forall (fun c => c = SP \/ is_word c = true \/ hangul c = true \/
                   chars (u ".,!?():;-") c = true) out /\
  ~ In (ch "<") out /\ ~ In (ch ">") out /\ ~ In (ch "@") out /\
  ~ In (ch "/") out /\ ~ In (ch "=") out.
Proof.
  intros out. pose proof (clean_text_kept text) as Hk.
  pose proof (clean_text_only_plain_space text) as Hs. fold out in Hk, Hs.
  split.
  - rewrite Forall_forall in *. intros c Hc.
    specialize (Hk c Hc). specialize (Hs c Hc). unfold only_plain_space in Hs.
    unfold kept, any_of in Hk. cbn [existsb] in Hk.
    destruct (is_word c); [tauto|]. destruct (is_space c); [left; now apply Hs|].
    destruct (hangul c); [tauto|]. cbn [orb] in Hk. rewrite orb_false_r in Hk. tauto.
  - repeat split; apply (kept_absent _ _ Hk); reflexivity.
Qed.

(** X15: the normalizer never lengthens a text. *)
Theorem clean_text_length (text : str) :
  length (_clean_text text) <= length text.
Proof.
  unfold _clean_text. destruct (nonempty text); [|cbn [length]; lia].
  etransitivity; [apply strip_length|].
  etransitivity; [apply re_sub_delete_length|].
  etransitivity; [apply re_sub_space_length; first_item|].
  etransitivity; [apply re_sub_space_length; first_item|].
  etransitivity; [apply re_sub_space_length; first_item|].
  etransitivity; [apply replace_length; [cbn; lia|discriminate]|].
  etransitivity; [apply re_sub_space_length; first_item|].
  etransitivity; [apply re_sub_space_length; first_item|].
  etransitivity; [apply re_sub_space_length; first_item|].
  etransitivity; [apply re_sub_space_length; first_item|].
  etransitivity; [apply re_sub_space_length; first_item|].
  etransitivity; [apply re_sub_delete_length|].
  etransitivity; [apply replace_length; [cbn; lia|discriminate]|].
  apply replace_length; [cbn; lia|discriminate].
Qed.

(** X16: no ASCII letter stands alone in the normalized text: every one has
    a word character right before it or right after it. *)
Theorem clean_text_no_single_letter (text : str) (l : str) (c : char) (r : str) :
  _clean_text text = l ++ c :: r ->
  ascii_letter c = true ->
  word_at (prev_after None l) = true \/ word_at (hd_error r) = true.
Proof.
  intros E Hc. pose proof (clean_text_iso_free text) as H. rewrite E in H.
  apply iso_free_at in H. unfold isolated in H. rewrite Hc in H.
  destruct (word_at (prev_after None l)); [now left|].
  destruct (word_at (hd_error r)); [now right|]. discriminate.
Qed.

(** X17: in the normalized text, ["www."] is followed by a space or by
    nothing. *)
Theorem clean_text_www_cut (text : str) (l r : str) :
  _clean_text text = l ++ u "www." ++ r ->
  r = [] \/ exists r', r = SP :: r'.
Proof.
  intros E. pose proof (clean_text_no_www text) as H. rewrite E in H.
  apply none_at_app in H.
  destruct r as [|e r']; [now left|right].
  change (u "www." ++ e :: r') with (ch "w" :: ch "w" :: ch "w" :: ch "." :: e :: r') in H.
  cbn [none_at www_at] in H. apply andb_prop in H. destruct H as [H _].
  rewrite !N.eqb_refl in H. cbn [andb negb] in H.
  apply negb_true_iff, negb_false_iff in H.
  pose proof (clean_text_only_plain_space text) as Hs. rewrite E in Hs.
  rewrite Forall_forall in Hs. exists r'. f_equal. apply Hs; [|exact H].
  apply in_or_app. right. apply in_or_app. right. now left.
Qed.

(** X18: a text of whitespace only normalizes to the empty text. *)
Theorem clean_text_blank (text : str) :
  forallb is_space text = true -> _clean_text text = [].
Proof.
  intros H. unfold _clean_text. destruct (nonempty text); [|reflexivity].
  assert (Ht : Forall (fun c => is_space c = true) text).
  { apply Forall_forall. now apply forallb_forall. }
  unfold strip, rstrip, lstrip.
  match goal with |- rev (drop_while _ (rev (drop_while _ ?X))) = _ =>
    rewrite (drop_while_all is_space X); [reflexivity|]
  end.
  repeat first
    [ apply re_sub_Forall; [repeat constructor|]
    | apply replace_from_Forall; [repeat constructor|] ].
  exact Ht.
Qed.

End NormalizerOutput.

(** ** Keywords are taken from the text *)

Section Occurrence.
Context {ucd : UnicodeData}.

Lemma occurs_refl s : occurs_in s s.
Proof. exists [], []. now rewrite app_nil_r. Qed.

Lemma occurs_trans a b c : occurs_in a b -> occurs_in b c -> occurs_in a c.
Proof.
  intros (l1 & l2 & ->) (m1 & m2 & ->). exists (m1 ++ l1), (l2 ++ m2).
  now rewrite !app_assoc.
Qed.

Lemma occurs_cons w c s : occurs_in w s -> occurs_in w (c :: s).
Proof. intros (l1 & l2 & ->). now exists (c :: l1), l2. Qed.

Lemma occurs_prefix w rest : occurs_in w (w ++ rest).
Proof. now exists [], rest. Qed.

Lemma occurs_suffix l w : occurs_in w (l ++ w).
Proof. exists l, []. now rewrite app_nil_r. Qed.

Lemma drop_while_suffix p s : exists l, s = l ++ drop_while p s.
Proof.
  induction s as [|c t [l IH]]; [now exists []|]. cbn [drop_while].
  destruct (p c); [|now exists []]. exists (c :: l). cbn [app]. now f_equal.
Qed.

Lemma occurs_drop_while p s : occurs_in (drop_while p s) s.
Proof.
  destruct (drop_while_suffix p s) as [l H]. rewrite H at 2. apply occurs_suffix.
Qed.

Lemma occurs_rev w s : occurs_in w s -> occurs_in (rev w) (rev s).
Proof.
  intros (l1 & l2 & ->). exists (rev l2), (rev l1).
  now rewrite !rev_app_distr, app_assoc.
Qed.

Lemma occurs_trim p s : occurs_in (rev (drop_while p (rev (drop_while p s)))) s.
Proof.
  apply (occurs_trans _ (drop_while p s)); [|apply occurs_drop_while].
  rewrite <- (rev_involutive (drop_while p s)) at 2.
  apply occurs_rev, occurs_drop_while.
Qed.

Lemma occurs_strip s : occurs_in (strip s) s.
Proof. apply occurs_trim. Qed.

Lemma occurs_strip_edges s : occurs_in (strip_edges s) s.
Proof. apply occurs_trim. Qed.

Lemma split_sep_head sep s :
  match split_sep sep s with
  | w :: _ => exists rest, s = w ++ rest
  | [] => True
  end.
Proof.
  induction s as [|c t IH]; cbn [split_sep]; [now exists []|].
  destruct (c =? sep)%N; [now exists (c :: t)|].
  destruct (split_sep sep t) as [|w ws]; [now exists t|].
  destruct IH as [rest ->]. now exists rest.
Qed.

Lemma split_sep_occurs sep s w : In w (split_sep sep s) -> occurs_in w s.
Proof.
  induction s as [|c t IH]; cbn [split_sep].
  - intros [<-|[]]. apply occurs_refl.
  - destruct (c =? sep)%N.
    + intros [<-|H]; [now exists [], (c :: t)|]. now apply occurs_cons, IH.
    + pose proof (split_sep_head sep t) as Hh.
      destruct (split_sep sep t) as [|w0 ws].
      * intros [<-|[]]. now exists [], t.
      * intros [<-|H].
        -- destruct Hh as [rest ->]. now exists [], rest.
        -- apply occurs_cons, IH. now right.
Qed.

Lemma split_ws_aux_occurs w : forall s acc,
  In w (split_ws_aux acc s) -> occurs_in w (rev acc ++ s).
Proof.
  induction s as [|c t IH]; intros acc; cbn [split_ws_aux].
  - destruct acc as [|a acc']; [intros []|]. intros [<-|[]].
    rewrite app_nil_r. apply occurs_refl.
  - destruct (is_space c).
    + destruct acc as [|a acc'].
      * intros H. apply (IH []) in H. cbn [rev app] in *. now apply occurs_cons.
      * intros [<-|H]; [apply occurs_prefix|].
        apply (IH []) in H. cbn [rev app] in H.
        apply (occurs_trans _ t); [exact H|].
        change (c :: t) with ([c] ++ t). rewrite app_assoc. apply occurs_suffix.
    + intros H. apply IH in H. cbn [rev] in H. now rewrite <- app_assoc in H.
Qed.

Lemma split_ws_occurs s w : In w (split_ws s) -> occurs_in w s.
Proof. intros H. now apply split_ws_aux_occurs in H. Qed.

(** The fourth piece of a match of four items lies in the text. *)
Lemma group1_occurs line m :
  re_match re_numbered_line line = Some m ->
  occurs_in (group1_numbered_line m) line.
Proof.
  intros H. apply match_here_sound in H. destruct H as (alt & Hin & HF & ->).
  destruct Hin as [<-|[]]. destruct m as [pieces rest].
  unfold group1_numbered_line, matched. cbn [fst snd] in *.
  inversion HF as [|i1 a l1 l1' _ HF1]; subst.
  inversion HF1 as [|i2 b l2 l2' _ HF2]; subst.
  inversion HF2 as [|i3 c l3 l3' _ HF3]; subst.
  inversion HF3 as [|i4 d l4 l4' _ HF4]; subst. inversion HF4; subst.
  cbn [nth concat]. exists (a ++ b ++ c), rest.
  now rewrite app_nil_r, <- !app_assoc.
Qed.

Lemma keyword_candidates_occur content raw :
  In raw (keyword_candidates content) -> occurs_in raw content.
Proof.
  unfold keyword_candidates.
  destruct (re_search re_numbered content).
  { unfold numbered_keywords. intros H. apply in_flat_map in H.
    destruct H as (line & Hline & H). apply split_sep_occurs in Hline.
    apply (occurs_trans _ line); [|exact Hline].
    apply (occurs_trans _ (strip line)); [|apply occurs_strip].
    destruct (nonempty (strip line)); [|destruct H].
    destruct (re_match re_numbered_line (strip line)) as [m|] eqn:E; [|destruct H].
    destruct (nonempty (strip (group1_numbered_line m))); [|destruct H].
    destruct H as [<-|[]].
    apply (occurs_trans _ (group1_numbered_line m)); [apply occurs_strip|].
    now apply group1_occurs. }
  destruct (contains (ch ",") content).
  { intros H. apply in_map_iff in H. destruct H as (piece & <- & H).
    apply filter_In in H. destruct H as [H _]. apply split_sep_occurs in H.
    apply (occurs_trans _ piece); [apply occurs_strip|exact H]. }
  destruct (contains LF content).
  { intros H. apply in_map_iff in H. destruct H as (piece & <- & H).
    apply filter_In in H. destruct H as [H _]. apply split_sep_occurs in H.
    apply (occurs_trans _ piece); [apply occurs_strip|exact H]. }
  apply split_ws_occurs.
Qed.

Lemma findall_from_occurs r w : forall s prev k,
  In w (findall_from r prev s k) -> occurs_in w s.
Proof.
  induction s as [|c t IH]; intros prev k H.
  - destruct k; cbn [findall_from] in H; [|destruct H].
    destruct (match_here r prev []) as [m|] eqn:E; [|destruct H].
    destruct H as [<-|[]]. apply match_here_sound in E.
    destruct E as (_ & _ & _ & ->). apply occurs_prefix.
  - destruct k; cbn [findall_from] in H; [|apply IH in H; now apply occurs_cons].
    destruct (match_here r prev (c :: t)) as [m|] eqn:E.
    + destruct H as [<-|H]; [|apply IH in H; now apply occurs_cons].
      apply match_here_sound in E. destruct E as (_ & _ & _ & ->). apply occurs_prefix.
    + apply IH in H; now apply occurs_cons.
Qed.

(** X19: the response parser invents nothing: every keyword it returns
    stands in the response text, character for character. *)
Theorem parse_keywords_occur (content : str) :
  Forall (fun kw => occurs_in kw content) (_parse_keywords content).
Proof.
  apply Forall_forall. intros kw H.
  unfold _parse_keywords in H. rewrite clean_keywords_spec in H.
  apply filter_In in H. destruct H as [H _].
  apply in_map_iff in H. destruct H as (raw & <- & H).
  apply (occurs_trans _ raw); [apply occurs_strip_edges|].
  now apply keyword_candidates_occur.
Qed.

(** X20: every keyword of the rule-based extractor stands in the normalized
    text, character for character. *)
Theorem fallback_keywords_occur (text : str) (max_keywords : Z) :
  Forall (fun kw => occurs_in kw (_clean_text text))
         (_fallback_keyword_extraction text max_keywords).
Proof.
  apply Forall_forall. intros kw H.
  apply (proj1 (proj2 (fallback_ranking text max_keywords))) in H.
  unfold pooled_tokens in H.
  repeat (apply in_app_or in H; destruct H as [H|H]);
    exact (findall_from_occurs _ _ _ _ _ H).
Qed.

End Occurrence.

(** ** The session of the extractor *)

Section SessionFacts.
Import Session.

Lemma nth_set_closed n : forall l i,
  nth i (set_closed n l) true = if i =? n then true else nth i l true.
Proof.
  induction n as [|n IH]; intros [|b l] [|i]; cbn [set_closed nth Nat.eqb];
    try reflexivity.
  - now destruct (i =? n).
  - apply IH.
Qed.

Lemma is_closed_new_session i st :
  is_closed i (new_session st) =
  if i =? length (closed st) then false else is_closed i st.
Proof.
  unfold is_closed, new_session. cbn [closed].
  destruct (Nat.eqb_spec i (length (closed st))) as [->|Hne].
  - now rewrite nth_middle.
  - destruct (Nat.lt_ge_cases i (length (closed st))) as [Hlt|Hge].
    + now rewrite app_nth1.
    + rewrite !nth_overflow; [reflexivity|lia|rewrite length_app; cbn [length]; lia].
Qed.

Lemma is_closed_bound n st : is_closed n st = false -> n < length (closed st).
Proof.
  unfold is_closed. intros H.
  destruct (Nat.lt_ge_cases n (length (closed st))) as [Hlt|Hge]; [exact Hlt|].
  rewrite nth_overflow in H by exact Hge. discriminate.
Qed.

Lemma is_closed_close i st :
  is_closed i (close st) =
  match _session st with
  | Some n => if i =? n then true else is_closed i st
  | None => is_closed i st
  end.
Proof.
  unfold close, is_closed. destruct (_session st) as [n|]; [|reflexivity].
  cbn [closed]. apply nth_set_closed.
Qed.

Lemma aexit_close st : __aexit__ st = close st.
Proof. reflexivity. Qed.

(** One call keeps the sessions accounted for, unless it enters the context
    over an open session. *)
Lemma step_leak_free c st :
  leak_free st ->
  (c = Enter -> forall n, _session st = Some n -> is_closed n st = true) ->
  leak_free (step c st).
Proof.
  intros Hst Hc n. destruct c; cbn [step].
  - unfold __aenter__. rewrite is_closed_new_session.
    destruct (Nat.eqb_spec n (length (closed st))) as [->|Hne]; [reflexivity|].
    intros H. pose proof (Hst n H) as Hheld.
    rewrite (Hc eq_refl n Hheld) in H. discriminate.
  - rewrite aexit_close, is_closed_close.
    destruct (_session st) as [m|] eqn:E.
    + destruct (Nat.eqb_spec n m); [discriminate|].
      intros H. apply Hst in H. congruence.
    + intros H. apply Hst in H. unfold close. rewrite E. congruence.
  - rewrite is_closed_close.
    destruct (_session st) as [m|] eqn:E.
    + destruct (Nat.eqb_spec n m); [discriminate|].
      intros H. apply Hst in H. congruence.
    + intros H. apply Hst in H. unfold close. rewrite E. congruence.
  - unfold _get_session.
    destruct (_session st) as [m|] eqn:E.
    + destruct (is_closed m st) eqn:Em; cbn [snd].
      * rewrite is_closed_new_session.
        destruct (Nat.eqb_spec n (length (closed st))) as [->|Hne]; [reflexivity|].
        intros H. pose proof (Hst n H) as Hheld. congruence.
      * intros H. apply Hst in H. congruence.
    + cbn [snd]. rewrite is_closed_new_session.
      destruct (Nat.eqb_spec n (length (closed st))) as [->|Hne]; [reflexivity|].
      intros H. apply Hst in H. congruence.
Qed.

(** X21: the session a request is sent on. [_get_session] returns a session
    that is open and that the service holds from then on; it returns the
    session held before whenever that one is open, changing nothing, and
    makes a new one otherwise; it closes no session. *)
Theorem get_session_gives_open (st : state) :
  let n := fst (_get_session st) in
  let st' := snd (_get_session st) in
  _session st' = Some n /\ is_closed n st' = false /\
  (forall m, _session st = Some m -> is_closed m st = false -> n = m /\ st' = st) /\
  ((forall m, _session st = Some m -> is_closed m st = true) ->
   n = length (closed st) /\ closed st' = closed st ++ [false]) /\
  (forall i, i < length (closed st) -> is_closed i st' = is_closed i st).
Proof.
  unfold _get_session.
  destruct (_session st) as [m|] eqn:E; [destruct (is_closed m st) eqn:Em|];
    cbn [fst snd new_session _session].
  - split; [reflexivity|]. split; [|split; [|split]].
    + rewrite is_closed_new_session. now rewrite Nat.eqb_refl.
    + intros k [= <-]. congruence.
    + intros _. now split.
    + intros i Hi. rewrite is_closed_new_session.
      destruct (Nat.eqb_spec i (length (closed st))); [lia|reflexivity].
  - split; [exact E|]. split; [exact Em|]. split; [|split].
    + intros k [= <-] _. now split.
    + intros H. rewrite (H m eq_refl) in Em. discriminate.
    + reflexivity.
  - split; [reflexivity|]. split; [|split; [|split]].
    + rewrite is_closed_new_session. now rewrite Nat.eqb_refl.
    + discriminate.
    + intros _. now split.
    + intros i Hi. rewrite is_closed_new_session.
      destruct (Nat.eqb_spec i (length (closed st))); [lia|reflexivity].
Qed.

(** X22: closing. After [close] the service holds no session, the one it
    held is closed and no other session has changed; closing again changes
    nothing, and leaving the context does what [close] does. *)
Theorem close_releases_session (st : state) :
  _session (close st) = None /\
  (forall n, _session st = Some n -> is_closed n (close st) = true) /\
  (forall i, _session st <> Some i -> is_closed i (close st) = is_closed i st) /\
  close (close st) = close st /\
  __aexit__ st = close st.
Proof.
  split; [|split; [|split; [|split]]].
  - unfold close. now destruct (_session st) eqn:E.
  - intros n E. rewrite is_closed_close, E. now rewrite Nat.eqb_refl.
  - intros i Hi. rewrite is_closed_close. destruct (_session st) as [m|]; [|reflexivity].
    destruct (Nat.eqb_spec i m); [congruence|reflexivity].
  - unfold close at 1. destruct (_session (close st)) eqn:E; [|reflexivity].
    unfold close in E. destruct (_session st) eqn:E'; cbn [_session] in E; congruence.
  - reflexivity.
Qed.

(** X23: no session is lost as long as the context is not entered over an
    open session: if every open session is the one the service holds, this
    stays so through any sequence of requests, closings and context exits,
    and one [close] at the end leaves every session closed. *)
Theorem sessions_accounted_for (calls : list call) (st : state) :
  leak_free st ->
  Forall (fun c => c <> Enter) calls ->
  leak_free (run calls st) /\
  forall n, is_closed n (close (run calls st)) = true.
Proof.
  intros Hst Hcalls.
  assert (H : leak_free (run calls st)).
  { revert st Hst. induction Hcalls as [|c calls Hc _ IH]; intros st Hst; [exact Hst|].
    cbn [run fold_left]. apply IH. apply step_leak_free; [exact Hst|].
    intros ->. now destruct Hc. }
  split; [exact H|]. intros n. rewrite is_closed_close.
  destruct (_session (run calls st)) as [m|] eqn:E.
  - destruct (Nat.eqb_spec n m); [reflexivity|].
    destruct (is_closed n (run calls st)) eqn:En; [reflexivity|].
    apply H in En. congruence.
  - destruct (is_closed n (run calls st)) eqn:En; [reflexivity|].
    apply H in En. congruence.
Qed.

(** X24: entering the context does not look at the session held. When that
    one is open it is replaced without being closed, and nothing the
    service does afterwards closes it. *)
Theorem aenter_drops_open_session (st : state) (n : nat) (calls : list call) :
  _session st = Some n ->
  is_closed n st = false ->
  _session (__aenter__ st) <> Some n /\
  is_closed n (run calls (__aenter__ st)) = false.
Proof.
  intros Hheld Hopen. pose proof (is_closed_bound n st Hopen) as Hlt.
  assert (J : forall calls st0,
             is_closed n st0 = false -> _session st0 <> Some n ->
             is_closed n (run calls st0) = false).
  { clear. induction calls as [|c calls IH]; intros st0 Ho Hh; [exact Ho|].
    cbn [run fold_left]. pose proof (is_closed_bound n st0 Ho) as Hlt.
    assert (Hnew : is_closed n (new_session st0) = false /\
                   _session (new_session st0) <> Some n).
    { rewrite is_closed_new_session. destruct (Nat.eqb_spec n (length (closed st0))); [lia|].
      split; [exact Ho|]. cbn [new_session _session]. intros [= E]. lia. }
    assert (Hcl : is_closed n (close st0) = false /\ _session (close st0) <> Some n).
    { rewrite is_closed_close. unfold close.
      destruct (_session st0) as [m|] eqn:E.
      - destruct (Nat.eqb_spec n m); [congruence|]. split; [exact Ho|discriminate].
      - rewrite E. split; [exact Ho|discriminate]. }
    apply IH; destruct c; cbn [step]; try apply Hnew; try apply Hcl.
    - unfold _get_session. destruct (_session st0) as [m|] eqn:E;
        [destruct (is_closed m st0)|]; cbn [snd]; try apply Hnew. exact Ho.
    - unfold _get_session. destruct (_session st0) as [m|] eqn:E;
        [destruct (is_closed m st0)|]; cbn [snd]; try apply Hnew. congruence. }
  assert (Hne : _session (__aenter__ st) <> Some n).
  { unfold __aenter__, new_session. cbn [_session]. intros [= E]. lia. }
  split; [exact Hne|]. apply J; [|exact Hne].
  unfold __aenter__. rewrite is_closed_new_session.
  destruct (Nat.eqb_spec n (length (closed st))); [lia|exact Hopen].
Qed.

End SessionFacts.

(** ** The tokens of a text normalized twice *)

Section SecondPassTokens.
Context {ucd : UnicodeData}.

Lemma separator_cases c :
  separator c = true -> c = ch "-" \/ c = ch "=" \/ c = SP.
Proof.
  unfold separator, chars. cbn [existsb]. rewrite orb_false_r.
  intros H. apply orb_prop in H. destruct H as [H|H]; [apply N.eqb_eq in H; tauto|].
  apply orb_prop in H. destruct H as [H|H]; apply N.eqb_eq in H; tauto.
Qed.

Lemma sep_free_sep p c : sep_free p = true -> separator c = true -> p c = false.
Proof.
  unfold sep_free. intros H Hc.
  apply andb_prop in H. destruct H as [H H3]. apply andb_prop in H. destruct H as [H1 H2].
  apply negb_true_iff in H1, H2, H3.
  destruct (separator_cases c Hc) as [->|[->| ->]]; assumption.
Qed.

Lemma collapsed_refl s : collapsed s s.
Proof. induction s; constructor; assumption. Qed.

Lemma run_sep p hi s :
  sep_free p = true ->
  match s with c :: _ => separator c = true | [] => True end ->
  run p hi s = 0.
Proof.
  intros Hp Hs. destruct s as [|c t]; [reflexivity|]. cbn [run].
  now rewrite (sep_free_sep p c Hp Hs).
Qed.

(** A class without separators runs alike on a text and on the text
    collapsed. *)
Lemma run_collapsed p :
  sep_free p = true ->
  forall s s', collapsed s s' ->
  forall hi, run p hi s = run p hi s' /\
             forall k, k <= run p hi s ->
                       firstn k s = firstn k s' /\ collapsed (skipn k s) (skipn k s').
Proof.
  intros Hp.
  assert (Hzero : forall s s' hi, collapsed s s' -> run p hi s = 0 -> run p hi s' = 0 ->
            run p hi s = run p hi s' /\
            forall k, k <= run p hi s ->
                      firstn k s = firstn k s' /\ collapsed (skipn k s) (skipn k s')).
  { intros s s' hi H E E'. rewrite E, E'. split; [reflexivity|].
    intros k Hk. assert (k = 0) by lia. subst k. now split. }
  induction 1 as [|c s s' H IH|l s s' Hl H IH|l Hl]; intros hi.
  - apply Hzero; [constructor|reflexivity|reflexivity].
  - assert (Hcopy : collapsed (c :: s) (c :: s')) by now constructor.
    destruct (p c) eqn:Hc.
    2:{ apply (Hzero (c :: s) (c :: s') hi); [exact Hcopy| |]; cbn [run]; now rewrite Hc. }
    destruct hi as [[|h]|].
    + apply Hzero; [exact Hcopy| |]; cbn [run]; now rewrite Hc.
    + destruct (IH (Some h)) as [E Hk]. cbn [run]. rewrite Hc. split; [now rewrite E|].
      intros [|k] Hle; [now split|]. cbn [firstn skipn].
      destruct (Hk k ltac:(lia)) as [E1 E2]. rewrite E1. now split.
    + destruct (IH None) as [E Hk]. cbn [run]. rewrite Hc. split; [now rewrite E|].
      intros [|k] Hle; [now split|]. cbn [firstn skipn].
      destruct (Hk k ltac:(lia)) as [E1 E2]. rewrite E1. now split.
  - destruct Hl as (Hne & Hsep & Hh).
    apply Hzero; [constructor; [repeat split; assumption|assumption]| |].
    + apply run_sep; [exact Hp|]. destruct l as [|c l]; [now destruct Hne|].
      cbn [app]. now apply Forall_inv in Hsep.
    + apply run_sep; [exact Hp|reflexivity].
  - apply Hzero; [now constructor| |reflexivity].
    apply run_sep; [exact Hp|]. destruct l as [|c l]; [trivial|]. now apply Forall_inv in Hl.
Qed.

Lemma first_down_agree (f f' : nat -> option (list str * str)) lo n :
  (forall k, k <= n -> agree (f k) (f' k)) ->
  agree (first_down f lo n) (first_down f' lo n).
Proof.
  induction n as [|n IH]; intros H; cbn [first_down].
  - destruct (0 <? lo); [exact I|].
    pose proof (H 0 (Nat.le_refl _)) as H0.
    destruct (f 0) as [m|], (f' 0) as [m'|]; cbn [agree] in *; tauto.
  - destruct (S n <? lo); [exact I|].
    pose proof (H (S n) (Nat.le_refl _)) as H0.
    destruct (f (S n)) as [m|], (f' (S n)) as [m'|]; cbn [agree] in *; try tauto.
    apply IH. intros k Hk. apply H. lia.
Qed.

Lemma agree_add_piece w o o' :
  agree o o' -> agree (option_map (add_piece w) o) (option_map (add_piece w) o').
Proof.
  destruct o as [m|], o' as [m'|]; cbn [agree option_map add_piece fst snd]; try tauto.
  intros [E H]. split; [now rewrite E|exact H].
Qed.

Lemma first_down_1_1 {A} (f : nat -> option A) :
  first_down f 1 1 = f 1.
Proof. cbn. now destruct (f 1). Qed.

Lemma match_seq_rep p lo hi rest prev s :
  match_seq (Rep p lo hi :: rest) prev s =
  first_down
    (fun k => option_map (add_piece (firstn k s))
                (match_seq rest (prev_after prev (firstn k s)) (skipn k s)))
    lo (run p hi s).
Proof. reflexivity. Qed.

(** A class that must match does not, at a separator or at the end. *)
Lemma match_seq_stuck q lo hi rest prev s :
  sep_free q = true -> 1 <= lo ->
  match s with c :: _ => separator c = true | [] => True end ->
  match_seq (Rep q lo hi :: rest) prev s = None.
Proof.
  intros Hq Hlo Hs. cbn [match_seq]. rewrite (run_sep q hi s Hq Hs).
  apply first_down_below. lia.
Qed.

Lemma match_seq_collapsed items :
  token_items items = true ->
  forall s s' prev prev', collapsed s s' ->
  agree (match_seq items prev s) (match_seq items prev' s').
Proof.
  induction items as [|it rest IH]; intros Ht s s' prev prev' H.
  - cbn [match_seq agree fst snd]. now split.
  - destruct it as [p lo hi| | |]; try discriminate.
    cbn [token_items] in Ht. apply andb_prop in Ht. destruct Ht as [Hp Hrest].
    specialize (IH Hrest).
    destruct (sep_free p) eqn:Hsf.
    + cbn [match_seq]. destruct (run_collapsed p Hsf s s' H hi) as [E Hk].
      rewrite <- E. apply first_down_agree. intros k Hle.
      destruct (Hk k Hle) as [E1 E2]. rewrite <- E1. apply agree_add_piece.
      now apply IH.
    + cbn [orb] in Hp.
      apply andb_prop in Hp. destruct Hp as [Hp Hnext].
      apply andb_prop in Hp. destruct Hp as [Hp Hhi].
      apply andb_prop in Hp. destruct Hp as [Hp Hlo].
      apply andb_prop in Hp. destruct Hp as [Hp Hsp].
      apply andb_prop in Hp. destruct Hp as [Hhyph Heq].
      destruct hi as [[|[|h]]|]; try discriminate.
      destruct rest as [|[q lo' hi'| | |] rest']; try discriminate.
      apply andb_prop in Hnext. destruct Hnext as [Hq Hlo'].
      apply Nat.leb_le in Hlo'. apply Nat.eqb_eq in Hlo. subst lo.
      apply negb_true_iff in Heq, Hsp.
      assert (Hhy : forall c, separator c = true -> p c = true -> c = ch "-").
      { intros c Hc Hpc. destruct (separator_cases c Hc) as [->|[->| ->]];
          [reflexivity|congruence|congruence]. }
      assert (Hstuck : forall s0 prev0,
                match s0 with
                | c0 :: rest0 =>
                    separator c0 = true /\
                    (c0 = ch "-" ->
                     match rest0 with d :: _ => separator d = true | [] => True end)
                | [] => True
                end ->
                match_seq (Rep p 1 (Some 1) :: Rep q lo' hi' :: rest') prev0 s0 = None).
      { intros s0 prev0 Hs0. rewrite (match_seq_rep p).
        destruct s0 as [|c0 rest0]; [apply first_down_below; cbn [run]; lia|].
        destruct Hs0 as [Hsep Hnext]. cbn [run]. destruct (p c0) eqn:Hc0.
        2:{ apply first_down_below. lia. }
        rewrite run_cap0, first_down_1_1. cbn [firstn skipn].
        rewrite match_seq_stuck; [reflexivity|exact Hq|exact Hlo'|].
        apply Hnext, Hhy; assumption. }
      inversion H as [|c t t' Hc|l t t' Hl Hc|l Hl]; subst.
      * rewrite !(match_seq_rep p). cbn [run]. rewrite !first_down_below by lia. exact I.
      * rewrite !(match_seq_rep p). cbn [run]. destruct (p c) eqn:Hpc.
        -- rewrite !run_cap0, !first_down_1_1. cbn [firstn skipn].
           apply agree_add_piece. now apply IH.
        -- rewrite !first_down_below by lia. exact I.
      * destruct Hl as (Hne & Hsep & Hh).
        rewrite Hstuck.
        -- rewrite (match_seq_rep p). cbn [run].
           rewrite Hsp.
           rewrite first_down_below by lia. exact I.
        -- destruct l as [|c0 l1]; [now destruct Hne|]. cbn [app].
           split; [now apply Forall_inv in Hsep|]. intros ->.
           destruct l1 as [|d l2]; [now destruct Hh|]. cbn [app].
           now apply Forall_inv_tail, Forall_inv in Hsep.
      * rewrite Hstuck.
        -- rewrite (match_seq_rep p). cbn [run]. rewrite first_down_below by lia. exact I.
        -- destruct s as [|c0 l1]; [trivial|].
           split; [now apply Forall_inv in Hl|]. intros _.
           destruct l1 as [|d l2]; [trivial|].
           now apply Forall_inv_tail, Forall_inv in Hl.
Qed.

Lemma token_regex_alt r alt :
  token_regex r = true -> In alt r ->
  token_items alt = true /\
  exists p lo hi rest, alt = Rep p lo hi :: rest /\ sep_free p = true /\ 1 <= lo.
Proof.
  unfold token_regex. intros H Hin. rewrite forallb_forall in H.
  specialize (H alt Hin). apply andb_prop in H. destruct H as [H1 H2].
  split; [exact H2|]. destruct alt as [|[p lo hi| | |] rest]; try discriminate.
  apply andb_prop in H1. destruct H1 as [Hp Hlo]. apply Nat.leb_le in Hlo.
  now exists p, lo, hi, rest.
Qed.

Lemma match_here_collapsed r :
  (forall alt, In alt r -> token_items alt = true) ->
  forall s s' prev prev', collapsed s s' ->
  agree (match_here r prev s) (match_here r prev' s').
Proof.
  induction r as [|a r IH]; intros Hr s s' prev prev' H; [exact I|].
  cbn [match_here].
  pose proof (match_seq_collapsed a (Hr a (or_introl eq_refl)) s s' prev prev' H) as Ha.
  destruct (match_seq a prev s) as [m|], (match_seq a prev' s') as [m'|];
    cbn [agree] in Ha; try contradiction; [exact Ha|].
  apply IH; [|exact H]. intros alt Hin. apply Hr. now right.
Qed.

(** No token starts at a separator, or at the end. *)
Lemma match_here_stuck r prev s :
  token_regex r = true ->
  match s with c :: _ => separator c = true | [] => True end ->
  match_here r prev s = None.
Proof.
  intros Hr Hs.
  assert (H : forall alt, In alt r -> match_seq alt prev s = None).
  { intros alt Hin. destruct (token_regex_alt r alt Hr Hin) as (_ & p & lo & hi & rest & -> & Hp & Hlo).
    now apply match_seq_stuck. }
  clear Hr. induction r as [|a r IH]; [reflexivity|]. cbn [match_here].
  rewrite (H a (or_introl eq_refl)). apply IH. intros alt Hin. apply H. now right.
Qed.

Lemma findall_from_skip r s : forall k prev,
  k <= length s ->
  exists prev', findall_from r prev s k = findall_from r prev' (skipn k s) 0.
Proof.
  induction s as [|c t IH]; intros k prev Hk.
  - cbn [length] in Hk. assert (k = 0) by lia. subst. now exists prev.
  - destruct k as [|k]; [now exists prev|].
    cbn [length] in Hk. cbn [findall_from skipn]. apply IH. lia.
Qed.

Lemma findall_seps r :
  token_regex r = true ->
  forall l s prev, Forall (fun c => separator c = true) l ->
  exists prev', findall_from r prev (l ++ s) 0 = findall_from r prev' s 0.
Proof.
  intros Hr. induction l as [|c l IH]; intros s prev Hl; [now exists prev|].
  cbn [app findall_from].
  rewrite (match_here_stuck r prev (c :: l ++ s) Hr) by now apply Forall_inv in Hl.
  apply IH. now apply Forall_inv_tail in Hl.
Qed.

(** The tokens of a text and of the text collapsed are the same. *)
Lemma findall_collapsed r :
  token_regex r = true ->
  forall n s s' prev prev', length s <= n -> collapsed s s' ->
  findall_from r prev s 0 = findall_from r prev' s' 0.
Proof.
  intros Hr.
  assert (Halts : forall alt, In alt r -> token_items alt = true).
  { intros alt Hin. now destruct (token_regex_alt r alt Hr Hin). }
  assert (Hnil : forall prev, findall_from r prev [] 0 = []).
  { intros prev. cbn [findall_from]. now rewrite (match_here_stuck r prev [] Hr I). }
  induction n as [|n IH]; intros s s' prev prev' Hn H.
  - destruct s; [|cbn [length] in Hn; lia].
    inversion H as [| |l t t' Hl Hc E|l Hl]; subst.
    + now rewrite !Hnil.
    + destruct Hl as [Hne _]. destruct l; [now destruct Hne|discriminate].
    + now rewrite !Hnil.
  - inversion H as [|c t t' Hc|l t t' Hl Hc|l Hl]; subst.
    + now rewrite !Hnil.
    + cbn [length] in Hn.
      pose proof (match_here_collapsed r Halts (c :: t) (c :: t') prev prev' H) as Ha.
      cbn [findall_from].
      destruct (match_here r prev (c :: t)) as [m|] eqn:E,
               (match_here r prev' (c :: t')) as [m'|] eqn:E'; cbn [agree] in Ha; try tauto.
      * destruct Ha as [Hfst Hsnd]. unfold matched. rewrite <- Hfst. f_equal.
        apply match_here_sound in E, E'.
        destruct E as (_ & _ & _ & E), E' as (_ & _ & _ & E').
        unfold matched in E, E'. rewrite <- Hfst in E'.
        destruct (length (concat (fst m))) as [|k] eqn:L.
        -- cbn [pred]. apply IH; [lia|exact Hc].
        -- cbn [pred].
           destruct (split_match c t _ _ k E L) as (_ & Hrest & Hk).
           destruct (split_match c t' _ _ k E' L) as (_ & Hrest' & Hk').
           destruct (findall_from_skip r t k (Some c) Hk) as [q ->].
           destruct (findall_from_skip r t' k (Some c) Hk') as [q' ->].
           rewrite <- Hrest, <- Hrest'. apply IH; [|exact Hsnd].
           rewrite Hrest, length_skipn. lia.
      * apply IH; [lia|exact Hc].
    + destruct Hl as (Hne & Hsep & Hh).
      destruct (findall_seps r Hr l t prev Hsep) as [q ->].
      cbn [findall_from]. rewrite (match_here_stuck r prev' (SP :: t') Hr eq_refl).
      apply IH; [|exact Hc].
      rewrite length_app in Hn. destruct l; [now destruct Hne|]. cbn [length] in Hn. lia.
    + rewrite <- (app_nil_r s).
      destruct (findall_seps r Hr s [] prev Hl) as [q ->]. now rewrite !Hnil.
Qed.

Lemma re_findall_collapsed r s s' :
  token_regex r = true -> collapsed s s' -> re_findall r s = re_findall r s'.
Proof. intros Hr H. now apply (findall_collapsed r Hr (length s)). Qed.

(** [re.sub(r, " ", s)] for a pattern whose matches are stretches. *)
Lemma sub_from_collapsed r : forall n s prev,
  length s <= n ->
  (forall l1 l2 prev m, s = l1 ++ l2 -> match_here r prev l2 = Some m ->
                        stretch (matched m)) ->
  collapsed s (sub_from r [SP] prev s 0).
Proof.
  induction n as [|n IH]; intros s prev Hn Hr.
  - destruct s; [|cbn in Hn; lia]. cbn [sub_from].
    destruct (match_here r prev []) as [m|] eqn:E; [|apply collapsed_nil].
    exfalso. destruct (Hr [] [] prev m eq_refl E) as [Hne _].
    apply match_here_sound in E. destruct E as (_ & _ & _ & E).
    symmetry in E. apply app_eq_nil in E. tauto.
  - destruct s as [|c t].
    + cbn [sub_from].
      destruct (match_here r prev []) as [m|] eqn:E; [|apply collapsed_nil].
      exfalso. destruct (Hr [] [] prev m eq_refl E) as [Hne _].
      apply match_here_sound in E. destruct E as (_ & _ & _ & E).
      symmetry in E. apply app_eq_nil in E. tauto.
    + cbn [length] in Hn. cbn [sub_from].
      destruct (match_here r prev (c :: t)) as [m|] eqn:E.
      * pose proof (Hr [] (c :: t) prev m eq_refl E) as Hst.
        apply match_here_sound in E. destruct E as (_ & _ & _ & E).
        destruct (length (matched m)) as [|k] eqn:L.
        { apply length_zero_iff_nil in L. destruct Hst as [Hne _]. contradiction. }
        destruct (split_match c t _ _ k E L) as (Hw & Hrest & Hk).
        cbn [app]. rewrite sub_from_skip by assumption.
        rewrite <- (firstn_skipn k t) at 1.
        change (c :: firstn k t ++ skipn k t) with ((c :: firstn k t) ++ skipn k t).
        apply collapsed_repl; [now rewrite <- Hw|].
        apply IH; [rewrite length_skipn; lia|].
        intros l1 l2 prev' m' E' M'.
        apply (Hr ((c :: firstn k t) ++ l1) l2 prev' m'); [|assumption].
        rewrite <- app_assoc, <- E'. cbn [app]. now rewrite firstn_skipn.
      * apply collapsed_copy. apply IH; [lia|].
        intros l1 l2 prev' m' E' M'.
        apply (Hr (c :: l1) l2 prev' m'); [|assumption]. now rewrite E'.
Qed.

Lemma divider_collapsed s : collapsed s (re_sub re_divider [SP] s).
Proof.
  apply (sub_from_collapsed re_divider (length s)); [lia|].
  intros l1 l2 prev m _ M.
  destruct (matched_single_piece re_divider _ _ _ prev l2 m eq_refl M) as [Hall Hlen].
  repeat split.
  - destruct (matched m); [cbn in Hlen; lia|discriminate].
  - revert Hall. apply Forall_impl. intros c Hc.
    unfold chars in Hc. cbn in Hc. rewrite orb_false_r in Hc.
    apply orb_prop in Hc. destruct Hc as [Hc|Hc]; apply N.eqb_eq in Hc; subst; reflexivity.
  - intros E. rewrite E in Hlen. cbn in Hlen. lia.
Qed.

Lemma spaces_collapsed s :
  Forall only_plain_space s -> collapsed s (re_sub re_spaces [SP] s).
Proof.
  intros Hs. apply (sub_from_collapsed re_spaces (length s)); [lia|].
  intros l1 l2 prev m E M.
  destruct (matched_single_piece re_spaces _ _ _ prev l2 m eq_refl M) as [Hall Hlen].
  apply match_here_sound in M. destruct M as (_ & _ & _ & E2).
  assert (HSP : Forall (fun c => c = SP) (matched m)).
  { rewrite Forall_forall in *. intros c Hc. apply Hs; [|now apply Hall].
    rewrite E, E2. apply in_or_app. right. apply in_or_app. now left. }
  repeat split.
  - destruct (matched m); [cbn in Hlen; lia|discriminate].
  - revert HSP. apply Forall_impl. now intros c ->.
  - intros E3. rewrite E3 in HSP. apply Forall_inv in HSP. discriminate.
Qed.

Lemma collapsed_app_end a l :
  Forall (fun c => separator c = true) l -> collapsed (a ++ l) a.
Proof.
  intros Hl. induction a as [|c a IH]; [now apply collapsed_end|].
  cbn [app]. now apply collapsed_copy.
Qed.

Lemma plain_space_separator l :
  Forall only_plain_space l -> Forall (fun c => is_space c = true) l ->
  Forall (fun c => separator c = true) l.
Proof.
  intros H1 H2. rewrite Forall_forall in *. intros c Hc.
  now rewrite (H1 c Hc (H2 c Hc)).
Qed.

Lemma drop_while_split p s :
  exists l, s = l ++ drop_while p s /\ Forall (fun c => p c = true) l.
Proof.
  induction s as [|c t (l & IH & Hl)]; [exists []; now split|]. cbn [drop_while].
  destruct (p c) eqn:Hc; [|exists []; now split].
  exists (c :: l). split; [cbn [app]; now f_equal|now constructor].
Qed.

(** Stripping changes no token. *)
Lemma re_findall_strip r s :
  token_regex r = true -> Forall only_plain_space s ->
  re_findall r (strip s) = re_findall r s.
Proof.
  intros Hr Hs. unfold strip, rstrip, lstrip.
  destruct (drop_while_split is_space s) as (l & E & Hl).
  set (a := drop_while is_space s) in *.
  assert (Hl' : Forall (fun c => separator c = true) l).
  { apply plain_space_separator; [|exact Hl].
    rewrite E in Hs. now apply Forall_app in Hs. }
  assert (Ha : Forall only_plain_space a).
  { rewrite E in Hs. now apply Forall_app in Hs. }
  destruct (drop_while_split is_space (rev a)) as (l2 & E2 & Hl2).
  set (b := drop_while is_space (rev a)) in *.
  assert (Ea : a = rev b ++ rev l2).
  { rewrite <- rev_app_distr, <- E2. now rewrite rev_involutive. }
  assert (Hl2' : Forall (fun c => separator c = true) (rev l2)).
  { apply plain_space_separator.
    - rewrite Ea in Ha. now apply Forall_app in Ha.
    - now apply Forall_rev. }
  transitivity (re_findall r a).
  - symmetry. rewrite Ea at 1. apply re_findall_collapsed; [exact Hr|].
    now apply collapsed_app_end.
  - unfold re_findall.
    rewrite (f_equal (fun z => findall_from r None z 0) E).
    destruct (findall_seps r Hr l a None Hl') as [q ->].
    apply (findall_collapsed r Hr (length a)); [lia|apply collapsed_refl].
Qed.

Lemma token_patterns :
  token_regex re_korean = true /\ token_regex re_english = true /\
  token_regex re_identifier = true.
Proof. repeat split; reflexivity. Qed.

(** The second normalization replaces dividers and runs of spaces, strips,
    and does nothing else. *)
Lemma clean_text_twice x :
  let y := _clean_text x in
  _clean_text y =
  if nonempty y then strip (re_sub re_spaces [SP] (re_sub re_divider [SP] y)) else [].
Proof.
  intros y. unfold y.
  rewrite (clean_text_late_steps _ (clean_text_kept x)
             (clean_text_only_plain_space x) (clean_text_no_www x)).
  fold y. destruct (nonempty y); [|reflexivity].
  set (s8 := re_sub re_divider [SP] y).
  set (s9 := re_sub re_spaces [SP] s8).
  assert (H8 : Forall only_plain_space s8).
  { apply re_sub_Forall; [|apply clean_text_only_plain_space].
    constructor; [intros _; reflexivity|constructor]. }
  assert (Hiso : iso_free None s9 = true).
  { apply (iso_free_spaced_nw s8); [now apply spaces_spaced_nw|].
    apply (iso_free_spaced_nw y); [apply divider_spaced_nw|].
    apply clean_text_iso_free. }
  unfold re_sub at 1. now rewrite sub_single_letter, (drop_isolated_free s9 None Hiso).
Qed.

Lemma findall_clean_twice r x :
  token_regex r = true ->
  re_findall r (_clean_text (_clean_text x)) = re_findall r (_clean_text x).
Proof.
  intros Hr. rewrite clean_text_twice.
  set (y := _clean_text x).
  destruct (nonempty y) eqn:Hne; [|now rewrite (nonempty_false y Hne)].
  assert (Hy : Forall only_plain_space y) by apply clean_text_only_plain_space.
  assert (H8 : Forall only_plain_space (re_sub re_divider [SP] y)).
  { apply re_sub_Forall; [|exact Hy]. constructor; [intros _; reflexivity|constructor]. }
  assert (H9 : Forall only_plain_space
                 (re_sub re_spaces [SP] (re_sub re_divider [SP] y))).
  { apply re_sub_Forall; [|exact H8]. constructor; [intros _; reflexivity|constructor]. }
  rewrite (re_findall_strip r _ Hr H9).
  rewrite <- (re_findall_collapsed r _ _ Hr (spaces_collapsed _ H8)).
  symmetry. apply (re_findall_collapsed r _ _ Hr (divider_collapsed y)).
Qed.

Lemma fallback_clean_twice text max_keywords :
  _fallback_keyword_extraction (_clean_text text) max_keywords =
  _fallback_keyword_extraction text max_keywords.
Proof.
  destruct token_patterns as (Hk & He & Hi).
  unfold _fallback_keyword_extraction.
  now rewrite !findall_clean_twice.
Qed.

(** X25: normalizing twice changes no keyword: a second normalization
    leaves the pooled tokens as they are, so the rule-based extractor returns
    the same list on a text and on its normalized form, although the
    normalizer is not idempotent. *)
Theorem fallback_of_normalized (text : str) (max_keywords : Z) :
  pooled_tokens (_clean_text (_clean_text text)) = pooled_tokens (_clean_text text) /\
  _fallback_keyword_extraction (_clean_text text) max_keywords =
  _fallback_keyword_extraction text max_keywords.
Proof.
  split; [|apply fallback_clean_twice].
  destruct token_patterns as (Hk & He & Hi).
  unfold pooled_tokens. now rewrite !findall_clean_twice.
Qed.

End SecondPassTokens.

Section FallbackPaths.
Context {ucd : UnicodeData}.
Variable self_api_key : pyval.
Variable self_model : str.
Variable post : str -> http_outcome.
Variable json_loads : str -> option pyval.
Variable cost_usd : pyval -> pyval -> res pyval.

(** X26: the two rule-based paths of the service give the same keywords:
    whenever the method is ["fallback"] or ["fallback_error"], the keywords
    are those of the rule-based extractor on the text as given. *)
Theorem fallback_paths_agree (text : str) (max_keywords : Z) (tr : trace) :
  exists r tr',
    extract_keywords self_api_key self_model post json_loads cost_usd
      text max_keywords tr = (Ok r, tr') /\
    (method r = u "fallback" \/ method r = u "fallback_error" ->
     keywords r = _fallback_keyword_extraction text max_keywords).
Proof.
  destruct (extract_cases self_api_key self_model post json_loads cost_usd
              text max_keywords tr)
    as [Hl|body data c info Hl Hk Hex Hpost Hload Husage Hcontent Hstrip Hkw|Hl Hk|Hl Hk|e Hl Hk Hex];
    eexists; eexists; (split; [reflexivity|]); cbn [method keywords].
  - intros [H|H]; discriminate.
  - intros [H|H]; discriminate.
  - intros _. apply fallback_clean_twice.
  - intros _. apply fallback_clean_twice.
  - reflexivity.
Qed.

(** X27: the result is a function of the normalized text: two texts with
    the same normalized form get the same keywords, method, model and usage
    record, on every path. *)
Theorem extract_keywords_by_normal_form (text text' : str) (max_keywords : Z)
  (tr : trace) :
  _clean_text text = _clean_text text' ->
  fst (extract_keywords self_api_key self_model post json_loads cost_usd
         text max_keywords tr) =
  fst (extract_keywords self_api_key self_model post json_loads cost_usd
         text' max_keywords tr).
Proof.
  intros H. unfold extract_keywords, try_except. rewrite <- H.
  match goal with |- fst (match ?b with _ => _ end) = _ => destruct b as [[r|e] tr'] end.
  - reflexivity.
  - unfold fallback. cbv [bind get put ret]. cbn [fst].
    rewrite <- (fallback_clean_twice text), <- (fallback_clean_twice text'), H.
    reflexivity.
Qed.

End FallbackPaths.

(** ** The pool of the fallback extractor *)

Section PoolComplete.
Context {ucd : UnicodeData}.

Lemma exists_last_or_nil {A} (l : list A) :
  l = [] \/ exists l' d, l = l' ++ [d].
Proof.
  induction l as [|a l [->|(l' & d & ->)]]; [now left| |].
  - right. now exists [], a.
  - right. now exists (a :: l'), d.
Qed.

Lemma prefix_len_run p s : prefix_len p s = run p None s.
Proof.
  induction s as [|c t IH]; [reflexivity|]. cbn [prefix_len run].
  destruct (p c); [now rewrite IH|reflexivity].
Qed.

Lemma run_ext p q s :
  (forall c, p c = q c) -> run p None s = run q None s.
Proof.
  intros H. induction s as [|c t IH]; [reflexivity|]. cbn [run].
  rewrite <- H. destruct (p c); [now rewrite IH|reflexivity].
Qed.

Lemma runs_from_ext p q :
  (forall c, p c = q c) -> forall s acc, runs_from p acc s = runs_from q acc s.
Proof.
  intros H. induction s as [|c t IH]; intros acc; [reflexivity|].
  cbn [runs_from]. rewrite <- H. destruct (p c); [apply IH|].
  now rewrite IH.
Qed.

Lemma rev_nil_iff (acc : str) :
  match acc with [] => [] | _ => [rev acc] end =
  match rev acc with [] => [] | c :: w => [c :: w] end.
Proof.
  destruct acc as [|a acc]; [reflexivity|]. cbn [rev].
  destruct (rev acc ++ [a]) eqn:E; [|reflexivity].
  apply app_eq_nil in E. destruct E; discriminate.
Qed.

(** The runs of a text: the run it starts with, then the runs after the
    character that ends it. *)
Lemma runs_from_split p : forall s acc,
  runs_from p acc s =
  match rev acc ++ firstn (run p None s) s with [] => [] | c :: w => [c :: w] end
  ++ match skipn (run p None s) s with
     | [] => []
     | _ :: t => runs_from p [] t
     end.
Proof.
  induction s as [|c t IH]; intros acc.
  - cbn [runs_from run firstn skipn]. rewrite !app_nil_r. apply rev_nil_iff.
  - cbn [runs_from run]. destruct (p c) eqn:Hc.
    + rewrite IH. cbn [firstn skipn rev]. now rewrite <- app_assoc.
    + cbn [firstn skipn]. rewrite app_nil_r, <- rev_nil_iff.
      now destruct acc.
Qed.

Lemma runs_from_stop p d t : p d = false -> runs_from p [] (d :: t) = runs_from p [] t.
Proof. intros H. cbn [runs_from]. now rewrite H. Qed.

Lemma firstn_nonempty {A} k (c : A) t : 1 <= k -> firstn k (c :: t) <> [].
Proof. destruct k; [lia|discriminate]. Qed.

(** [re.findall] on one class quantified [{n,}]: the maximal runs of [n]
    characters or more. *)
Lemma findall_single_class p n :
  1 <= n ->
  forall m s prev, length s <= m ->
  findall_from [[Rep p n None]] prev s 0 = long_runs p n s.
Proof.
  intros Hn. unfold long_runs.
  induction m as [|m IH]; intros s prev Hm.
  - destruct s; [|cbn [length] in Hm; lia].
    cbn [findall_from match_here]. rewrite match_seq_rep1. cbn [run].
    destruct (Nat.leb_spec n 0); [lia|reflexivity].
  - destruct s as [|c t].
    + cbn [findall_from match_here]. rewrite match_seq_rep1. cbn [run].
      destruct (Nat.leb_spec n 0); [lia|reflexivity].
    + cbn [length] in Hm. cbn [findall_from match_here]. rewrite match_seq_rep1.
      set (k := run p None (c :: t)).
      assert (Hk : k <= length (c :: t)) by apply run_le_length.
      rewrite (runs_from_split p (c :: t) []). fold k. cbn [rev app].
      pose proof (run_stops p (c :: t)) as Hstop. fold k in Hstop.
      destruct (Nat.leb_spec n k) as [Hle|Hlt].
      * unfold matched. cbn [fst concat]. rewrite app_nil_r.
        rewrite length_firstn, Nat.min_l by exact Hk.
        destruct k as [|j] eqn:Ek; [lia|]. cbn [pred].
        cbn [length] in Hk.
        destruct (findall_from_skip [[Rep p n None]] t j (Some c) ltac:(lia)) as [q ->].
        change (skipn j t) with (skipn (S j) (c :: t)).
        rewrite (IH (skipn (S j) (c :: t)) q)
          by (rewrite length_skipn; cbn [length]; lia).
        cbn [firstn]. cbn [app filter length].
        assert (Hlen : length (firstn j t) = j) by (rewrite length_firstn; lia).
        rewrite Hlen.
        destruct (Nat.leb_spec n (S j)); [|lia]. f_equal.
        destruct (skipn (S j) (c :: t)) as [|d t'] eqn:Es; [reflexivity|].
        now rewrite (runs_from_stop p d t' Hstop).
      * rewrite (IH t (Some c)) by lia.
        destruct (p c) eqn:Hc.
        -- assert (Ek : k = S (run p None t)) by (unfold k; cbn [run]; now rewrite Hc).
           rewrite (runs_from_split p t []). cbn [rev app].
           rewrite Ek. cbn [firstn skipn app].
           rewrite !filter_app. f_equal.
           assert (Hlen : length (firstn (run p None t) t) = run p None t).
           { rewrite length_firstn. pose proof (run_le_length p None t). lia. }
           cbn [filter length]. rewrite Hlen.
           destruct (Nat.leb_spec n (S (run p None t))); [lia|].
           destruct (firstn (run p None t) t) as [|x w] eqn:Ef; [reflexivity|].
           cbn [filter]. rewrite Hlen.
           destruct (Nat.leb_spec n (run p None t)); [lia|reflexivity].
        -- assert (Ek : k = 0) by (unfold k; cbn [run]; now rewrite Hc).
           rewrite Ek. cbn [firstn skipn app]. reflexivity.
Qed.

Lemma upper_ascii c : ascii_upper c = true -> (65 <= c <= 90)%N.
Proof.
  unfold ascii_upper, rng. intros H. apply andb_prop in H. destruct H as [H1 H2].
  apply N.leb_le in H1, H2. lia.
Qed.

Lemma upper_not_digit c : ascii_upper c = true -> is_digit c = false.
Proof.
  intros H. apply upper_ascii in H. unfold is_digit.
  destruct (N.ltb_spec c 128); [|lia].
  unfold ascii_digit, rng. apply andb_false_iff. right. apply N.leb_gt. lia.
Qed.

Lemma upper_not_hyphen c : ascii_upper c = true -> one (ch "-") c = false.
Proof.
  intros H. apply upper_ascii in H. unfold one. apply N.eqb_neq.
  change (ch "-") with 45%N. lia.
Qed.

Lemma run_skipn_head p : forall s k,
  k < run p None s ->
  exists c t, skipn k s = c :: t /\ p c = true.
Proof.
  induction s as [|c t IH]; intros k Hk; [cbn [run] in Hk; lia|].
  cbn [run] in Hk. destruct (p c) eqn:Hc; [|lia].
  destruct k as [|k]; [now exists c, t|]. cbn [skipn]. apply IH. lia.
Qed.

Lemma first_down_only_top {A} (f : nat -> option A) lo n :
  (forall k, lo <= k < n -> f k = None) ->
  first_down f lo n = if lo <=? n then f n else None.
Proof.
  intros H. destruct (Nat.leb_spec lo n) as [Hle|Hlt].
  2:{ now apply first_down_below. }
  destruct (f n) as [r|] eqn:E; [now apply first_down_top|].
  destruct (first_down f lo n) as [r|] eqn:E'; [|reflexivity].
  apply first_down_some in E'. destruct E' as (k & Hk & Hf).
  destruct (Nat.eq_dec k n) as [->|Hne]; [congruence|].
  rewrite H in Hf by lia. discriminate.
Qed.

Lemma firstn_add {A} a d (s : list A) :
  firstn (a + d) s = firstn a s ++ firstn d (skipn a s).
Proof.
  revert s. induction a as [|a IH]; intros s; [reflexivity|].
  destruct s as [|c t]; [now destruct d|]. cbn [Nat.add firstn skipn app].
  now rewrite IH.
Qed.

(** [[A-Z]{2,}\d+]: giving capitals back never helps, a capital is no
    digit. *)
Lemma match_capitals_digits prev s :
  let a := run ascii_upper None s in
  let d := run is_digit None (skipn a s) in
  match_seq [atleast 2 ascii_upper; plus is_digit] prev s =
  if (2 <=? a) && (1 <=? d)
  then Some ([firstn a s; firstn d (skipn a s)], skipn d (skipn a s))
  else None.
Proof.
  intros a d. unfold atleast, plus. rewrite match_seq_rep. fold a.
  rewrite first_down_only_top.
  - destruct (2 <=? a); [|reflexivity]. rewrite match_seq_rep1. fold d.
    destruct (1 <=? d); reflexivity.
  - intros k Hk. rewrite match_seq_rep1.
    destruct (run_skipn_head ascii_upper s k ltac:(unfold a in Hk; lia))
      as (c & t & -> & Hc).
    cbn [run]. now rewrite (upper_not_digit c Hc).
Qed.

(** [[A-Z]+-\d+] *)
Lemma match_capitals_hyphen_digits prev s :
  let a := run ascii_upper None s in
  match_seq [plus ascii_upper; lit (ch "-"); plus is_digit] prev s =
  match skipn a s with
  | h :: t =>
      if (1 <=? a) && ((h =? ch "-")%N && (1 <=? run is_digit None t))
      then Some ([firstn a s; [h]; firstn (run is_digit None t) t],
                 skipn (run is_digit None t) t)
      else None
  | [] => None
  end.
Proof.
  intros a. unfold plus, lit. rewrite match_seq_rep. fold a.
  rewrite first_down_only_top.
  - destruct (Nat.leb_spec 1 a) as [Ha|Ha].
    2:{ now destruct (skipn a s). }
    rewrite match_seq_rep.
    destruct (skipn a s) as [|h t]; [reflexivity|]. cbn [run andb].
    unfold one at 1.
    destruct (h =? ch "-")%N; cbn [andb].
    + rewrite run_cap0, first_down_1_1. cbn [firstn skipn].
      rewrite match_seq_rep1.
      destruct (1 <=? run is_digit None t); reflexivity.
    + now rewrite first_down_below by lia.
  - intros k Hk. rewrite match_seq_rep.
    destruct (run_skipn_head ascii_upper s k ltac:(unfold a in Hk; lia))
      as (c & t & -> & Hc).
    cbn [run]. rewrite (upper_not_hyphen c Hc).
    now rewrite first_down_below by lia.
Qed.

Lemma identifier_at_le s n : identifier_at s = Some n -> n <= length s.
Proof.
  unfold identifier_at. rewrite !prefix_len_run.
  set (a := run ascii_upper None s).
  assert (Ha : a <= length s) by apply run_le_length.
  assert (Hs : length (skipn a s) = length s - a) by apply length_skipn.
  pose proof (run_le_length is_digit None (skipn a s)) as Hd.
  destruct (_ && _).
  { intros [= <-]. lia. }
  destruct (_ && _) eqn:E.
  { intros [= <-]. revert E. destruct (skipn a s) as [|h t].
    - rewrite andb_false_r. discriminate.
    - intros _. cbn [tl]. cbn [length] in Hs.
      pose proof (run_le_length is_digit None t). lia. }
  destruct (3 <=? run is_digit None s); [|discriminate].
  intros [= <-]. apply run_le_length.
Qed.

(** A match of the identifier pattern is the identifier the text starts
    with. *)
Lemma match_identifier prev s :
  option_map matched (match_here re_identifier prev s) =
  option_map (fun n => firstn n s) (identifier_at s).
Proof.
  unfold re_identifier, identifier_at. cbn [match_here].
  rewrite match_capitals_digits, match_capitals_hyphen_digits.
  rewrite !prefix_len_run.
  set (a := run ascii_upper None s).
  destruct ((2 <=? a) && (1 <=? run is_digit None (skipn a s))).
  { cbn [option_map]. unfold matched. cbn [fst concat].
    now rewrite app_nil_r, firstn_add. }
  destruct (skipn a s) as [|h t] eqn:Es.
  - rewrite andb_false_r. unfold atleast. rewrite match_seq_rep1.
    destruct (3 <=? run is_digit None s); [|reflexivity].
    cbn [option_map]. unfold matched. cbn [fst concat]. now rewrite app_nil_r.
  - cbn [tl]. rewrite prefix_len_run.
    destruct ((1 <=? a) && ((h =? ch "-")%N && (1 <=? run is_digit None t))).
    + cbn [option_map]. unfold matched. cbn [fst concat].
      rewrite app_nil_r, <- Nat.add_assoc, firstn_add, Es. reflexivity.
    + unfold atleast. rewrite match_seq_rep1.
      destruct (3 <=? run is_digit None s); [|reflexivity].
      cbn [option_map]. unfold matched. cbn [fst concat]. now rewrite app_nil_r.
Qed.

(** [re.findall] on the identifier pattern: the identifiers of the text. *)
Lemma findall_identifiers : forall s prev k,
  findall_from re_identifier prev s k = identifiers_from s k.
Proof.
  induction s as [|c t IH]; intros prev k.
  - destruct k; [|reflexivity]. cbn [findall_from identifiers_from].
    pose proof (match_identifier prev []) as H.
    destruct (match_here re_identifier prev []); [discriminate H|reflexivity].
  - destruct k as [|k]; [|apply IH]. cbn [findall_from identifiers_from].
    pose proof (match_identifier prev (c :: t)) as H.
    destruct (match_here re_identifier prev (c :: t)) as [m|],
             (identifier_at (c :: t)) as [n|] eqn:En; try discriminate H.
    + cbn [option_map] in H. injection H as H. rewrite H.
      rewrite length_firstn, Nat.min_l by now apply identifier_at_le.
      now rewrite IH.
    + apply IH.
Qed.

(** The pool of the code is the pool of the spec: every maximal Hangul run
    of two or more, every maximal Latin run of three or more and every
    identifier of the text is pooled, in this order, and nothing else is. *)
Lemma pooled_tokens_complete s : pooled_tokens s = token_pool s.
Proof.
  unfold pooled_tokens, token_pool, re_findall, re_korean, re_english, atleast.
  rewrite (findall_single_class hangul 2 ltac:(lia) (length s)) by lia.
  rewrite (findall_single_class _ 3 ltac:(lia) (length s)) by lia.
  rewrite findall_identifiers. f_equal. f_equal.
  unfold long_runs. f_equal. apply runs_from_ext.
  intros c. unfold ascii_letter, any_of. cbn [existsb].
  rewrite !orb_false_r. apply orb_comm.
Qed.

(** A run of [p] that nothing of [p] bounds is one of the runs read. *)
Lemma runs_from_all p w : forall r acc,
  Forall (fun c => p c = true) w ->
  runs_from p acc (w ++ r) = runs_from p (rev w ++ acc) r.
Proof.
  induction w as [|c w IH]; intros r acc Hw; [reflexivity|].
  cbn [app runs_from]. rewrite (Forall_inv Hw), IH by now apply Forall_inv_tail in Hw.
  cbn [rev]. now rewrite <- app_assoc.
Qed.

Lemma runs_from_after p x : forall l acc,
  (exists l' d, l = l' ++ [d] /\ p d = false) ->
  exists pre, runs_from p acc (l ++ x) = pre ++ runs_from p [] x.
Proof.
  induction l as [|c l IH]; intros acc (l' & d & E & Hd).
  - destruct l'; discriminate.
  - destruct l' as [|a l''].
    + injection E as -> ->. cbn [app runs_from]. rewrite Hd.
      destruct acc as [|a0 acc]; [now exists []|now exists [rev (a0 :: acc)]].
    + injection E as -> E.
      assert (Hl : exists l0 d0, l = l0 ++ [d0] /\ p d0 = false) by now exists l'', d.
      change ((a :: l) ++ x) with (a :: (l ++ x)).
      destruct (IH (a :: acc) Hl) as [pre1 H1]. destruct (IH [] Hl) as [pre2 H2].
      clear IH E Hl. remember (l ++ x) as y eqn:Ey. cbn [runs_from].
      destruct (p a).
      * now exists pre1.
      * rewrite H2. destruct acc as [|a0 acc];
          [now exists pre2|now exists (rev (a0 :: acc) :: pre2)].
Qed.

Lemma runs_from_maximal p l w r :
  w <> [] -> Forall (fun c => p c = true) w -> maximal_in p l r ->
  In w (runs_from p [] (l ++ w ++ r)).
Proof.
  intros Hne Hw [Hl Hr].
  assert (Hcore : In w (runs_from p [] (w ++ r))).
  { rewrite runs_from_all, app_nil_r by exact Hw.
    assert (Hrev : rev (rev w) = w) by apply rev_involutive.
    destruct (rev w) as [|a v] eqn:Ev.
    { cbn in Hrev. now subst w. }
    destruct r as [|d r'].
    - cbn [runs_from]. left. exact Hrev.
    - cbn [runs_from]. rewrite (Hr d r' eq_refl). left. exact Hrev. }
  destruct (exists_last_or_nil l) as [->|(l' & d & ->)]; [exact Hcore|].
  destruct (runs_from_after p (w ++ r) (l' ++ [d]) []) as [pre ->].
  { exists l', d. split; [reflexivity|]. now apply (Hl l' d). }
  apply in_or_app. now right.
Qed.

End PoolComplete.

Section FallbackClaim.
Context {ucd : UnicodeData}.

(** C6: the fallback extractor is a function of the normalized form of its
    argument and of [max_keywords] alone. Its pool is the pool of the spec,
    read off the normalized text without the patterns: the maximal runs of
    two or more Hangul syllables, then the maximal runs of three or more
    Latin letters, then the identifiers. Every pooled token is of one of the
    three classes, and every maximal Hangul run of two or more and every
    maximal Latin run of three or more is pooled. The result is made of
    distinct pooled tokens, as many as asked for (all of them when there are
    fewer), in the order of decreasing frequency, tokens of equal frequency
    in the order of first occurrence in the pool; every pooled token left
    out ranks after every token returned. *)
Theorem fallback_top_by_frequency (text : str) (max_keywords : Z) :
  let normalized := _clean_text text in
  let pool := token_pool normalized in
  let result := _fallback_keyword_extraction text max_keywords in
  pooled_tokens normalized = pool /\
  (forall w, In w pool -> hangul_run w \/ latin_run w \/ identifier w) /\
  (forall l w r, normalized = l ++ w ++ r -> hangul_run w ->
                 maximal_in hangul l r -> In w pool) /\
  (forall l w r, normalized = l ++ w ++ r -> latin_run w ->
                 maximal_in (any_of [ascii_upper; ascii_lower]) l r -> In w pool) /\
  NoDup result /\
  (forall w, In w result -> In w pool) /\
  length result = Nat.min (Z.to_nat max_keywords) (length (nodup str_eq_dec pool)) /\
  StronglySorted (ranks_before pool) result /\
  (forall w v, In w result -> In v pool -> ~ In v result -> ranks_before pool w v).
Proof.
  intros normalized pool result.
  assert (Hpool : pooled_tokens normalized = pool) by apply pooled_tokens_complete.
  split; [exact Hpool|]. rewrite <- Hpool.
  split; [|split; [|split; [|apply fallback_ranking]]].
  - intros w Hw. unfold pooled_tokens in Hw.
    apply in_app_or in Hw. destruct Hw as [Hw|Hw].
    + left. now apply findall_korean in Hw.
    + apply in_app_or in Hw. destruct Hw as [Hw|Hw].
      * right. left. now apply findall_english in Hw.
      * right. right. now apply findall_identifier in Hw.
  - intros l w r E [Hall Hlen] Hmax. unfold pooled_tokens.
    apply in_or_app. left. unfold re_findall, re_korean, atleast.
    rewrite (findall_single_class hangul 2 ltac:(lia) (length normalized)) by lia.
    apply filter_In. split; [|now apply Nat.leb_le].
    rewrite E. apply runs_from_maximal; [|exact Hall|exact Hmax].
    intros ->. cbn [length] in Hlen. lia.
  - intros l w r E [Hall Hlen] Hmax. unfold pooled_tokens.
    apply in_or_app. right. apply in_or_app. left.
    unfold re_findall, re_english, atleast.
    rewrite (findall_single_class _ 3 ltac:(lia) (length normalized)) by lia.
    apply filter_In. split; [|now apply Nat.leb_le].
    rewrite E. apply runs_from_maximal; [|exact Hall|exact Hmax].
    intros ->. cbn [length] in Hlen. lia.
Qed.

End FallbackClaim.

(** ** Concrete runs *)

(** The short text ["Hi"] takes the empty-text path even with a credential
    and a working endpoint. *)
Lemma empty_text_short_circuit_witness :
  length (_clean_text (ucd := hangul_only) (u "Hi")) < 10 /\
  extract_keywords (ucd := hangul_only) (PStr (u "sk-test")) (u "openai/gpt-3.5-turbo")
    (fun _ => HttpResponse 200 (u "{}")) (fun _ => Some sample_completion)
    (fun _ _ => Ok (PFloat 0)) (u "Hi") 5 [] =
  (Ok {| keywords := []; method := u "empty_text"; model := u "openai/gpt-3.5-turbo";
         token_info := [] |}, []).
Proof.
  assert (H : length (_clean_text (ucd := hangul_only) (u "Hi")) < 10)
    by (apply Nat.ltb_lt; vm_compute; reflexivity).
  split; [exact H|].
  exact (empty_text_short_circuit (ucd := hangul_only) (PStr (u "sk-test"))
           (u "openai/gpt-3.5-turbo") (fun _ => HttpResponse 200 (u "{}"))
           (fun _ => Some sample_completion) (fun _ _ => Ok (PFloat 0))
           (u "Hi") 5 [] H).
Defined.

(** With [max_keywords = 2] the three keywords of the endpoint are cut to
    two. *)
Lemma extraction_bound_witness :
  (0 <= 2)%Z /\
  exists r tr',
    extract_keywords (ucd := hangul_only) (PStr (u "sk-test")) (u "openai/gpt-3.5-turbo")
      (fun _ => HttpResponse 200 (u "{}")) (fun _ => Some sample_completion)
      (fun _ _ => Ok (PFloat 0)) (u "quarterly inspection report") 2 [] = (Ok r, tr') /\
    (Z.of_nat (length (keywords r)) <= 2)%Z.
Proof.
  assert (H : (0 <= 2)%Z) by lia.
  split; [exact H|].
  exact (extraction_bound (ucd := hangul_only) (PStr (u "sk-test"))
           (u "openai/gpt-3.5-turbo") (fun _ => HttpResponse 200 (u "{}"))
           (fun _ => Some sample_completion) (fun _ _ => Ok (PFloat 0))
           (u "quarterly inspection report") 2 [] H).
Defined.

(** C1 as stated fails for a negative maximum: with [max_keywords = -1] the
    slice [keywords[:-1]] drops the last of three parsed keywords and two are
    returned. *)
Lemma extraction_bound_negative_max :
  exists r tr',
    extract_keywords (ucd := hangul_only) (PStr (u "sk-test")) (u "openai/gpt-3.5-turbo")
      (fun _ => HttpResponse 200 (u "{}")) (fun _ => Some sample_completion)
      (fun _ _ => Ok (PFloat 0)) (u "quarterly inspection report") (-1) [] = (Ok r, tr') /\
    keywords r = [u "alpha"; u "beta"] /\
    ~ (Z.of_nat (length (keywords r)) <= -1)%Z.
Proof.
  eexists. eexists. split; [vm_compute; reflexivity|].
  split; [vm_compute; reflexivity|]. cbn. lia.
Qed.

(** C5 as stated fails: an isolated letter is removed after the whitespace
    has been collapsed, which leaves two spaces that only a second pass
    collapses. *)
Lemma clean_text_not_idempotent :
  _clean_text (ucd := hangul_only) (u "hello a world") = u "hello  world" /\
  _clean_text (ucd := hangul_only) (_clean_text (ucd := hangul_only) (u "hello a world"))
    = u "hello world" /\
  ~ (forall (ucd : UnicodeData) (x : str),
        _clean_text (_clean_text x) = _clean_text x).
Proof.
  split; [vm_compute; reflexivity|]. split; [vm_compute; reflexivity|].
  intros H. specialize (H hangul_only (u "hello a world")).
  vm_compute in H. discriminate.
Qed.


Lemma deep_payload_unreadable :
  deep_payload <> [] /\ sample_decoder deep_payload = Raise RecursionError.
Proof.
  assert (Hlen : length deep_payload = N.to_nat 100000) by apply repeat_length.
  split.
  - intros E. rewrite E in Hlen. cbn [length] in Hlen. lia.
  - unfold sample_decoder.
    assert (H1 : str_eqb deep_payload (u "[]") = false).
    { apply str_eqb_neq. intros E. rewrite E in Hlen. cbn in Hlen. lia. }
    assert (H2 : forallb (N.eqb (ch "[")) deep_payload = true).
    { apply forallb_forall. intros x Hx. apply repeat_spec in Hx. subst x. reflexivity. }
    assert (H3 : (1000 <? length deep_payload) = true).
    { apply Nat.ltb_lt. rewrite Hlen. lia. }
    now rewrite H1, H2, H3.
Qed.

(** A record whose payload is nested too deep for the decoder: the check on
    a re-delivery of its message raises [RecursionError]. *)
Lemma check_duplicate_decode_error_escapes_witness :
  let row := {| MailDb.account_id := 1; MailDb.message_id := u "msg-1";
                MailDb.received_time := u "2025-01-01T00:00:00";
                MailDb.subject := u "subject"; MailDb.sender := u "sender";
                MailDb.keywords := Some deep_payload;
                MailDb.processed_at := u "2025-01-01T00:00:01";
                MailDb.content_hash := None |} in
  let db := {| MailDb.accounts := []; MailDb.mail_history := [row];
               MailDb.has_content_hash_column := true |} in
  let content := _clean_text (ucd := hangul_only) (u "other content") in
  MailDb.mail_history db = [] ++ row :: [] /\
  (forall r, In r [] -> ~ row_matches content (u "msg-1") r) /\
  row_matches content (u "msg-1") row /\
  escapes sample_decoder (MailDb.keywords row) RecursionError /\
  MailDb.check_duplicate_by_content_hash (fun s => s) sample_decoder
    (u "msg-1") content db = (Raise RecursionError, db) /\
  forall kws,
    MailDb.check_duplicate_by_content_hash (fun s => s) sample_decoder
      (u "msg-1") content db <> (Ok (true, kws), db).
Proof.
  intros row db content.
  assert (H1 : MailDb.mail_history db = [] ++ row :: []) by reflexivity.
  assert (H2 : forall r, In r [] -> ~ row_matches content (u "msg-1") r)
    by (intros r []).
  assert (H3 : row_matches content (u "msg-1") row) by (right; reflexivity).
  assert (H4 : escapes sample_decoder (MailDb.keywords row) RecursionError).
  { exists deep_payload. split; [reflexivity|].
    split; [exact (proj1 deep_payload_unreadable)|].
    split; [exact (proj2 deep_payload_unreadable)|]. intros [H|H]; discriminate. }
  split; [exact H1|]. split; [exact H2|]. split; [exact H3|]. split; [exact H4|].
  exact (check_duplicate_decode_error_escapes (ucd := hangul_only) (fun s => s)
           sample_decoder (u "msg-1") (u "other content") db [] row [] RecursionError
           H1 H2 H3 H4).
Defined.

(** On ["hello world"] nothing is left for a second pass. *)
Lemma clean_text_stabilises_witness :
  substring [SP; SP] (_clean_text (ucd := hangul_only) (u "hello world")) = false /\
  substring (u "---") (_clean_text (ucd := hangul_only) (u "hello world")) = false /\
  _clean_text (ucd := hangul_only) (_clean_text (ucd := hangul_only) (u "hello world"))
    = _clean_text (ucd := hangul_only) (u "hello world").
Proof.
  assert (H1 : substring [SP; SP] (_clean_text (ucd := hangul_only) (u "hello world"))
               = false) by (vm_compute; reflexivity).
  assert (H2 : substring (u "---") (_clean_text (ucd := hangul_only) (u "hello world"))
               = false) by (vm_compute; reflexivity).
  split; [exact H1|]. split; [exact H2|].
  exact (proj1 (clean_text_stabilises (ucd := hangul_only) (u "hello world")) H1 H2).
Defined.

(** The normalizer on a mail body with markup, an address, links, a divider
    and line breaks. *)
Example clean_text_sample :
  _clean_text (ucd := hangul_only)
    (u "<p>Hello <b>World</b></p> see https://x.y/z or www.foo.com, mail me@ex.com"
       ++ [CR; LF] ++ u "======" ++ [LF; TAB] ++ u "선박 안전 EA004 REQ-123")
  = u "Hello World see or mail 선박 안전 EA004 REQ-123".
Proof. vm_compute. reflexivity. Qed.

(** The fallback extractor: ["선박"] and ["abc"] occur twice, the Hangul
    class is pooled first. *)
Example fallback_sample :
  _fallback_keyword_extraction (ucd := hangul_only)
    (u "abc 선박 abc EA004 REQ-123 12345 선박 def") 3
  = [u "선박"; u "abc"; u "REQ"].
Proof. vm_compute. reflexivity. Qed.

(** A 500 response, a timeout and a credential that is no string. *)
Example remote_500_falls_back :
  exists r tr',
    extract_keywords (ucd := hangul_only) (PStr (u "sk-test")) (u "openai/gpt-3.5-turbo")
      (fun _ => HttpResponse 500 (u "Internal Server Error")) (fun _ => None)
      (fun _ _ => Ok (PFloat 0)) (u "quarterly inspection report") 5 [] = (Ok r, tr') /\
    method r = u "fallback" /\
    keywords r = [u "quarterly"; u "inspection"; u "report"].
Proof. eexists. eexists. split; [vm_compute; reflexivity|]. split; reflexivity. Qed.

Example timeout_falls_back :
  exists r tr',
    extract_keywords (ucd := hangul_only) (PStr (u "sk-test")) (u "openai/gpt-3.5-turbo")
      (fun _ => HttpRaise TimeoutError) (fun _ => None)
      (fun _ _ => Ok (PFloat 0)) (u "quarterly inspection report") 5 [] = (Ok r, tr') /\
    method r = u "fallback".
Proof. eexists. eexists. split; [vm_compute; reflexivity|]. reflexivity. Qed.

Example odd_credential_falls_back :
  exists r tr',
    extract_keywords (ucd := hangul_only) (PInt 42) (u "openai/gpt-3.5-turbo")
      (fun _ => HttpResponse 200 (u "{}")) (fun _ => Some sample_completion)
      (fun _ _ => Ok (PFloat 0)) (u "quarterly inspection report") 5 [] = (Ok r, tr') /\
    method r = u "fallback_error" /\ tr' = [FallbackCall (u "quarterly inspection report")].
Proof. eexists. eexists. split; [vm_compute; reflexivity|]. split; reflexivity. Qed.

(** A stored payload that does not decode still gives a duplicate. *)
Example duplicate_with_malformed_payload :
  let row := {| MailDb.account_id := 1; MailDb.message_id := u "msg-1";
                MailDb.received_time := u "2025-01-01T00:00:00";
                MailDb.subject := u "subject"; MailDb.sender := u "sender";
                MailDb.keywords := Some (u "[not json");
                MailDb.processed_at := u "2025-01-01T00:00:01";
                MailDb.content_hash := None |} in
  let db := {| MailDb.accounts := []; MailDb.mail_history := [row];
               MailDb.has_content_hash_column := true |} in
  MailDb.check_duplicate_by_content_hash (fun s => s) sample_decoder
    (u "msg-1") (u "other content") db = (Ok (true, PList []), db).
Proof. vm_compute. reflexivity. Qed.

(** ** Further concrete runs *)

(** A message saved into an empty store is found again, with its keywords. *)
Lemma saved_keywords_read_back_witness :
  let mail := {| MailDb.pm_mail_id := u "msg-1";
                 MailDb.pm_account_id := MailDb.AccountStr (u "kim");
                 MailDb.pm_sent_time := u "2025-01-01T00:00:00";
                 MailDb.pm_subject := u "subject";
                 MailDb.pm_sender_address := u "sender";
                 MailDb.pm_keywords := [u "alpha"];
                 MailDb.pm_processed_at := u "2025-01-01T00:00:01" |} in
  let empty := {| MailDb.accounts := []; MailDb.mail_history := [];
                  MailDb.has_content_hash_column := false |} in
  let content := _clean_text (ucd := hangul_only) (u "hello world") in
  let dumps := fun _ : list str => u "[alpha]" in
  let loads := fun _ : str => Ok (PList [PStr (u "alpha")]) in
  (forall r, In r (MailDb.mail_history empty) ->
             ~ row_matches content (u "msg-1") r) /\
  dumps [u "alpha"] <> [] /\
  loads (dumps [u "alpha"]) = Ok (PList [PStr (u "alpha")]) /\
  exists db',
    MailDb.save_mail_with_hash (fun s => s) dumps mail content empty = (Ok tt, db') /\
    MailDb.check_duplicate_by_content_hash (fun s => s) loads (u "msg-1") content db'
      = (Ok (true, PList [PStr (u "alpha")]), db').
Proof.
  intros mail empty content dumps loads.
  assert (H1 : forall r, In r (MailDb.mail_history empty) ->
                         ~ row_matches content (u "msg-1") r) by (intros r []).
  assert (H2 : dumps [u "alpha"] <> []) by discriminate.
  assert (H3 : loads (dumps [u "alpha"]) = Ok (PList [PStr (u "alpha")]))
    by reflexivity.
  split; [exact H1|]. split; [exact H2|]. split; [exact H3|].
  exact (saved_keywords_read_back (ucd := hangul_only) (fun s => s) loads dumps mail
           (u "hello world") empty (PList [PStr (u "alpha")]) H1 H2 H3).
Defined.

(** A save that makes a placeholder account next to an existing one. *)
Lemma save_keeps_accounts_distinct_witness :
  let mail := {| MailDb.pm_mail_id := u "msg-2";
                 MailDb.pm_account_id := MailDb.AccountStr (u "lee");
                 MailDb.pm_sent_time := u "2025-01-01T00:00:00";
                 MailDb.pm_subject := u "subject";
                 MailDb.pm_sender_address := u "sender";
                 MailDb.pm_keywords := [u "alpha"];
                 MailDb.pm_processed_at := u "2025-01-01T00:00:01" |} in
  let db := {| MailDb.accounts :=
                 [{| MailDb.id := 1; MailDb.user_id := u "kim";
                     MailDb.user_name := u "Kim"; MailDb.is_active := 1 |}];
               MailDb.mail_history := [];
               MailDb.has_content_hash_column := true |} in
  let out := MailDb.save_mail_with_hash (fun s => s) (fun _ => u "[alpha]") mail
               (u "hello world") db in
  (NoDup (map MailDb.id (MailDb.accounts db)) /\
   NoDup (map MailDb.user_id (MailDb.accounts db))) /\
  map MailDb.user_id (MailDb.accounts (snd out)) = [u "kim"; u "lee"] /\
  NoDup (map MailDb.id (MailDb.accounts (snd out))) /\
  NoDup (map MailDb.user_id (MailDb.accounts (snd out))).
Proof.
  intros mail db out.
  assert (H : NoDup (map MailDb.id (MailDb.accounts db)) /\
              NoDup (map MailDb.user_id (MailDb.accounts db))).
  { split; (constructor; [intros []|constructor]). }
  split; [exact H|]. split; [reflexivity|].
  exact (save_keeps_accounts_distinct (fun s => s) (fun _ => u "[alpha]") mail
           (u "hello world") db (fst out) (snd out) H (surjective_pairing out)).
Defined.

(** Content with the lone surrogate U+D800. *)
Lemma surrogate_content_refused_witness :
  let mail := {| MailDb.pm_mail_id := u "msg-3";
                 MailDb.pm_account_id := MailDb.AccountStr (u "kim");
                 MailDb.pm_sent_time := u "2025-01-01T00:00:00";
                 MailDb.pm_subject := u "subject";
                 MailDb.pm_sender_address := u "sender";
                 MailDb.pm_keywords := [];
                 MailDb.pm_processed_at := u "2025-01-01T00:00:01" |} in
  let empty := {| MailDb.accounts := []; MailDb.mail_history := [];
                  MailDb.has_content_hash_column := false |} in
  let content := u "bad " ++ [55296%N] in
  existsb surrogate content = true /\
  MailDb._generate_content_hash (fun s => s) content = Raise UnicodeEncodeError /\
  MailDb.check_duplicate_by_content_hash (fun s => s) sample_decoder (u "msg-3")
    content empty = (Raise UnicodeEncodeError, empty) /\
  MailDb.save_mail_with_hash (fun s => s) (fun _ => u "[]") mail content empty
    = (Raise UnicodeEncodeError, empty).
Proof.
  intros mail empty content.
  assert (H : existsb surrogate content = true) by reflexivity.
  split; [exact H|].
  exact (surrogate_content_refused (fun s => s) sample_decoder (fun _ => u "[]")
           mail (u "msg-3") content empty H).
Defined.

(** A service without a credential, on a text long enough for extraction. *)
Lemma no_credential_no_remote_call_witness :
  truthy PNone = false /\
  exists r events,
    extract_keywords (ucd := hangul_only) PNone (u "openai/gpt-3.5-turbo")
      (fun _ => HttpResponse 200 (u "{}")) (fun _ => Some sample_completion)
      (fun _ _ => Ok (PFloat 0)) (u "quarterly inspection report") 5 []
      = (Ok r, [] ++ events) /\
    (forall prompt, ~ In (RemoteCall prompt) events) /\
    (method r = u "empty_text" \/ method r = u "fallback") /\
    token_info r = [].
Proof.
  assert (H : truthy PNone = false) by reflexivity.
  split; [exact H|].
  exact (no_credential_no_remote_call (ucd := hangul_only) PNone
           (u "openai/gpt-3.5-turbo") (fun _ => HttpResponse 200 (u "{}"))
           (fun _ => Some sample_completion) (fun _ _ => Ok (PFloat 0))
           (u "quarterly inspection report") 5 [] H).
Defined.

(** A response whose usage block is no dict: reading it raises, the
    exception is swallowed, and the four counters are still there. *)
Lemma call_openrouter_api_usage_keys_witness :
  let data := PDict [(u "usage", PInt 3)] in
  let call := _call_openrouter_api (ucd := hangul_only) (PStr (u "sk-test"))
                (fun _ => HttpResponse 200 (u "{}")) (fun _ => Some data)
                (fun _ _ => Ok (PFloat 0)) (u "quarterly inspection report") 5 [] in
  call = (Ok ([], initial_token_info),
          [RemoteCall (prompt_for (u "quarterly inspection report") 5)]) /\
  map fst initial_token_info =
    [u "prompt_tokens"; u "completion_tokens"; u "total_tokens"; u "cost_usd"].
Proof.
  intros data call.
  assert (H : call = (Ok ([], initial_token_info),
                      [RemoteCall (prompt_for (u "quarterly inspection report") 5)]))
    by (vm_compute; reflexivity).
  split; [exact H|].
  exact (call_openrouter_api_usage_keys (ucd := hangul_only) (PStr (u "sk-test"))
           (fun _ => HttpResponse 200 (u "{}")) (fun _ => Some data)
           (fun _ _ => Ok (PFloat 0)) (u "quarterly inspection report") 5 []
           [] initial_token_info _ H).
Defined.

(** Two texts that differ in their 1001st character only. *)
Lemma call_openrouter_api_reads_1000_witness :
  let text := repeat (ch "a") 1000 ++ u "b" in
  let text' := repeat (ch "a") 1000 ++ u "c" in
  text <> text' /\
  firstn 1000 text = firstn 1000 text' /\
  _call_openrouter_api (ucd := hangul_only) (PStr (u "sk-test"))
    (fun _ => HttpResponse 200 (u "{}")) (fun _ => Some sample_completion)
    (fun _ _ => Ok (PFloat 0)) text 5 [] =
  _call_openrouter_api (ucd := hangul_only) (PStr (u "sk-test"))
    (fun _ => HttpResponse 200 (u "{}")) (fun _ => Some sample_completion)
    (fun _ _ => Ok (PFloat 0)) text' 5 [].
Proof.
  intros text text'.
  assert (H : firstn 1000 text = firstn 1000 text') by (vm_compute; reflexivity).
  split.
  { intros E. apply (f_equal (fun s => nth 1000 s 0%N)) in E. vm_compute in E.
    discriminate. }
  split; [exact H|].
  exact (call_openrouter_api_reads_1000 (ucd := hangul_only) (PStr (u "sk-test"))
           (fun _ => HttpResponse 200 (u "{}")) (fun _ => Some sample_completion)
           (fun _ _ => Ok (PFloat 0)) text text' 5 [] H).
Defined.

(** The letter of ["b2"] stays: a digit follows it. *)
Lemma clean_text_no_single_letter_witness :
  _clean_text (ucd := hangul_only) (u "plan b2 ok") = u "plan " ++ ch "b" :: u "2 ok" /\
  ascii_letter (ch "b") = true /\
  (word_at (ucd := hangul_only) (prev_after None (u "plan ")) = true \/
   word_at (ucd := hangul_only) (hd_error (u "2 ok")) = true).
Proof.
  assert (H1 : _clean_text (ucd := hangul_only) (u "plan b2 ok")
               = u "plan " ++ ch "b" :: u "2 ok") by (vm_compute; reflexivity).
  assert (H2 : ascii_letter (ch "b") = true) by reflexivity.
  split; [exact H1|]. split; [exact H2|].
  exact (clean_text_no_single_letter (ucd := hangul_only) (u "plan b2 ok")
           (u "plan ") (ch "b") (u "2 ok") H1 H2).
Defined.

(** ["www."] before a space is no link and stays. *)
Lemma clean_text_www_cut_witness :
  _clean_text (ucd := hangul_only) (u "see www. here") = u "see " ++ u "www." ++ u " here" /\
  (u " here" = [] \/ exists r', u " here" = SP :: r').
Proof.
  assert (H : _clean_text (ucd := hangul_only) (u "see www. here")
              = u "see " ++ u "www." ++ u " here") by (vm_compute; reflexivity).
  split; [exact H|].
  exact (clean_text_www_cut (ucd := hangul_only) (u "see www. here")
           (u "see ") (u " here") H).
Defined.

(** Spaces, a line feed and a tab. *)
Lemma clean_text_blank_witness :
  forallb is_space [SP; LF; TAB; SP] = true /\
  _clean_text (ucd := hangul_only) [SP; LF; TAB; SP] = [].
Proof.
  assert (H : forallb is_space [SP; LF; TAB; SP] = true) by reflexivity.
  split; [exact H|].
  exact (clean_text_blank (ucd := hangul_only) [SP; LF; TAB; SP] H).
Defined.

(** Two requests, a close, a third request and the exit of the context, on
    a new service. *)
Lemma sessions_accounted_for_witness :
  let calls := [Session.GetSession; Session.GetSession; Session.Close;
                Session.GetSession; Session.Exit] in
  leak_free Session.__init__ /\
  Forall (fun c => c <> Session.Enter) calls /\
  leak_free (Session.run calls Session.__init__) /\
  forall n, Session.is_closed n (Session.close (Session.run calls Session.__init__))
            = true.
Proof.
  intros calls.
  assert (H1 : leak_free Session.__init__).
  { intros n H. destruct n; discriminate. }
  assert (H2 : Forall (fun c => c <> Session.Enter) calls).
  { repeat constructor; discriminate. }
  split; [exact H1|]. split; [exact H2|].
  exact (sessions_accounted_for calls Session.__init__ H1 H2).
Defined.

(** A request, then the context is entered: the session of the request
    stays open through a further request and a close. *)
Lemma aenter_drops_open_session_witness :
  let st := snd (Session._get_session Session.__init__) in
  let calls := [Session.GetSession; Session.Close] in
  Session._session st = Some 0 /\
  Session.is_closed 0 st = false /\
  Session._session (Session.__aenter__ st) <> Some 0 /\
  Session.is_closed 0 (Session.run calls (Session.__aenter__ st)) = false.
Proof.
  intros st calls.
  assert (H1 : Session._session st = Some 0) by reflexivity.
  assert (H2 : Session.is_closed 0 st = false) by reflexivity.
  split; [exact H1|]. split; [exact H2|].
  exact (aenter_drops_open_session st 0 calls H1 H2).
Defined.

(** Two spellings of one text: extra spaces and a line break. *)
Lemma extract_keywords_by_normal_form_witness :
  let text := u "quarterly   inspection" ++ [LF] ++ u "report" in
  let text' := u "quarterly inspection report" in
  text <> text' /\
  _clean_text (ucd := hangul_only) text = _clean_text (ucd := hangul_only) text' /\
  fst (extract_keywords (ucd := hangul_only) (PStr (u "sk-test"))
         (u "openai/gpt-3.5-turbo") (fun _ => HttpResponse 500 (u "{}"))
         (fun _ => None) (fun _ _ => Ok (PFloat 0)) text 5 []) =
  fst (extract_keywords (ucd := hangul_only) (PStr (u "sk-test"))
         (u "openai/gpt-3.5-turbo") (fun _ => HttpResponse 500 (u "{}"))
         (fun _ => None) (fun _ _ => Ok (PFloat 0)) text' 5 []).
Proof.
  intros text text'.
  assert (H : _clean_text (ucd := hangul_only) text = _clean_text (ucd := hangul_only) text')
    by (vm_compute; reflexivity).
  split; [intros E; vm_compute in E; discriminate|].
  split; [exact H|].
  exact (extract_keywords_by_normal_form (ucd := hangul_only) (PStr (u "sk-test"))
           (u "openai/gpt-3.5-turbo") (fun _ => HttpResponse 500 (u "{}"))
           (fun _ => None) (fun _ _ => Ok (PFloat 0)) text text' 5 [] H).
Defined.
